(** * WaterCoin: the droplet simulation, its scaler, monitor and milestones

    A shallow embedding of the simulation classes of the WaterCoin test
    suite ([MockWaterSimulationEngine], [FrameRateMonitor],
    [PerformanceScaler], [ObjectPool]), of the loops of the performance
    tests that drive them, of the geometry helpers of [ResponsiveTester], of
    the milestone, accumulation and tally loops of [test-runner.js] and of
    the Progress Manager of the specification over JSON, together with the
    properties the specification states about them and further properties
    of the code.

    JavaScript numbers are IEEE 754 binary64 values.  The code is written
    once, over an interface of number operations ([JSNumber]), and read at
    two instances: [Binary64] (Rocq's primitive floats, the arithmetic the
    program really runs on) and [Exact] (rationals, the arithmetic the
    program's authors reason in).  Properties that need no law of
    arithmetic are proved at every instance; the water level, the lives of
    droplets and the signs of radii and frame rates are followed in
    binary64; bounds that rest on the order of a field are proved in exact
    arithmetic.

    [Math.random()] is a function [random] from the number of the draw to the
    value drawn, and every method threads the number of draws made; the
    clock ([performance.now()]) is an argument of the methods that read it.
    Objects of the pool are references, compared as [===] compares them.

    The file has three parts: the program, the vocabulary of its
    properties, and the properties. *)

From Stdlib Require Import ZArith QArith Qround Qminmax Qabs Lqa Lia.
From Stdlib Require Import Floats Ascii DecimalN.
From stdpp Require Import base option list strings gmap.

Unset Default Proof Using.

(** * The program *)

(** ** Numbers *)

Declare Scope js_scope.
Delimit Scope js_scope with js.

Class JSNumber (num : Type) := {
  lit : Q -> num;                 (* a numeric literal of the source text *)
  add : num -> num -> num;
  sub : num -> num -> num;
  mul : num -> num -> num;
  div : num -> num -> num;
  ltb : num -> num -> bool;       (* a < b *)
  leb : num -> num -> bool;       (* a <= b *)
  Math_min : num -> num -> num;
  Math_max : num -> num -> num;
  Math_floor : num -> num;
  Math_round : num -> num
}.

Arguments lit {num _} _%_Q.

Infix "+" := add : js_scope.
Infix "-" := sub : js_scope.
Infix "*" := mul : js_scope.
Infix "/" := div : js_scope.
Infix "<?" := ltb : js_scope.
Infix "<=?" := leb : js_scope.
Notation "a >? b" := (ltb b a) (at level 70) : js_scope.
Notation "a >=? b" := (leb b a) (at level 70) : js_scope.

(** [Math.ceil] is [-Math.floor(-x)]. *)
Definition Math_ceil {num : Type} `{!JSNumber num} (x : num) : num :=
  (lit 0 - Math_floor (lit 0 - x))%js.

(** *** Exact rationals *)

Module ExactOps.

Definition ltb (a b : Q) : bool := negb (Qle_bool b a).

Definition min (a b : Q) : Q := if Qle_bool a b then a else b.

Definition max (a b : Q) : Q := if Qle_bool a b then b else a.

Definition floor (a : Q) : Q := inject_Z (Qfloor a).

(* the nearest integer, ties towards +infinity *)
Definition round (a : Q) : Q := inject_Z (Qfloor (a + (1 # 2))).

End ExactOps.

#[export] Instance Exact : JSNumber Q := {|
  lit q := q;
  add := Qplus;
  sub := Qminus;
  mul := Qmult;
  div := Qdiv;
  ltb := ExactOps.ltb;
  leb := Qle_bool;
  Math_min := ExactOps.min;
  Math_max := ExactOps.max;
  Math_floor := ExactOps.floor;
  Math_round := ExactOps.round
|}.

(** *** IEEE 754 binary64 *)

Module Binary64Ops.

Definition of_Z (z : Z) : float :=
  match z with
  | Z0 => PrimFloat.zero
  | Zpos _ => PrimFloat.of_uint63 (Uint63.of_Z z)
  | Zneg p => PrimFloat.opp (PrimFloat.of_uint63 (Uint63.of_Z (Zpos p)))
  end.

(* A decimal literal denotes the double nearest to it: numerator and
   denominator are exact (below 2^53 for every literal of the program)
   and the division rounds correctly. *)
Definition of_Q (q : Q) : float :=
  PrimFloat.div (of_Z (Qnum q)) (of_Z (Zpos (Qden q))).

Definition is_neg_zero (a : float) : bool :=
  match PrimFloat.classify a with NZero => true | _ => false end.

(* Math.min: NaN if either argument is NaN, and -0 is below +0. *)
Definition min (a b : float) : float :=
  if PrimFloat.is_nan a then a
  else if PrimFloat.is_nan b then b
  else if PrimFloat.ltb a b then a
  else if PrimFloat.ltb b a then b
  else if is_neg_zero a then a else b.

Definition max (a b : float) : float :=
  if PrimFloat.is_nan a then a
  else if PrimFloat.is_nan b then b
  else if PrimFloat.ltb a b then b
  else if PrimFloat.ltb b a then a
  else if is_neg_zero a then b else a.

Definition two52 : float := of_Z (2 ^ 52).

(* Below 2^52 in magnitude, adding and subtracting 2^52 rounds to an
   integer (to nearest); one step down gives the floor.  Larger values,
   infinities and NaN are integral or returned as they are. *)
Definition floor (x : float) : float :=
  if PrimFloat.ltb (PrimFloat.abs x) two52 then
    let r := if PrimFloat.leb PrimFloat.zero x
             then PrimFloat.sub (PrimFloat.add x two52) two52
             else PrimFloat.add (PrimFloat.sub x two52) two52 in
    if PrimFloat.eqb r x then x
    else if PrimFloat.ltb x r then PrimFloat.sub r PrimFloat.one
    else r
  else x.

(* Math.round: the nearest integer, ties towards +infinity; x - floor x
   is exact. *)
Definition round (x : float) : float :=
  let r := floor x in
  if PrimFloat.eqb r x then x
  else if PrimFloat.leb (of_Q (1 # 2)) (PrimFloat.sub x r)
       then let u := PrimFloat.add r PrimFloat.one in
            if PrimFloat.ltb x PrimFloat.zero && PrimFloat.eqb u PrimFloat.zero
            then PrimFloat.neg_zero else u
       else r.

End Binary64Ops.

#[export] Instance Binary64 : JSNumber float := {|
  lit := Binary64Ops.of_Q;
  add := PrimFloat.add;
  sub := PrimFloat.sub;
  mul := PrimFloat.mul;
  div := PrimFloat.div;
  ltb := PrimFloat.ltb;
  leb := PrimFloat.leb;
  Math_min := Binary64Ops.min;
  Math_max := Binary64Ops.max;
  Math_floor := Binary64Ops.floor;
  Math_round := Binary64Ops.round
|}.

(** ** The simulation engine ([MockWaterSimulationEngine]) *)

Module Droplet.
Record t (num : Type) := mk {
  x : num;
  y : num;
  velocityX : num;
  velocityY : num;
  size : num;
  life : num;
  splashed : bool
}.
Arguments mk {num}.
Arguments x {num}.
Arguments y {num}.
Arguments velocityX {num}.
Arguments velocityY {num}.
Arguments size {num}.
Arguments life {num}.
Arguments splashed {num}.
End Droplet.

Module Splash.
Record t (num : Type) := mk {
  x : num;
  y : num;
  radius : num;
  maxRadius : num;
  expansionSpeed : num;
  opacity : num;
  life : num
}.
Arguments mk {num}.
Arguments x {num}.
Arguments y {num}.
Arguments radius {num}.
Arguments maxRadius {num}.
Arguments expansionSpeed {num}.
Arguments opacity {num}.
Arguments life {num}.
End Splash.

(** [Array.prototype.shift]: drops index 0, nothing on an empty array. *)
Definition shift {A : Type} (l : list A) : list A := drop 1 l.

(** An array length, as a number. *)
Definition of_nat {num : Type} `{!JSNumber num} (n : nat) : num :=
  lit (inject_Z (Z.of_nat n)).

(** The fields of the engine, and [randomCalls], the number of values drawn
    from [Math.random()] so far. *)
Record Engine (num : Type) := mkEngine {
  waterLevel : num;
  droplets : list (Droplet.t num);
  splashEffects : list (Splash.t num);
  gravity : num;
  dropletIncrement : num;
  maxDroplets : nat;
  maxSplashEffects : nat;
  randomCalls : nat
}.
Arguments mkEngine {num}.
Arguments waterLevel {num}.
Arguments droplets {num}.
Arguments splashEffects {num}.
Arguments gravity {num}.
Arguments dropletIncrement {num}.
Arguments maxDroplets {num}.
Arguments maxSplashEffects {num}.
Arguments randomCalls {num}.

Section MockWaterSimulationEngine.

Context {num : Type} `{!JSNumber num}.

(** [random k] is the value the [k]-th call of [Math.random()] returns. *)
Variable random : nat -> num.

Open Scope js_scope.

Definition constructor : Engine num :=
  {| waterLevel := lit 0;
     droplets := [];
     splashEffects := [];
     gravity := lit 0.5;
     dropletIncrement := lit 0.8;
     maxDroplets := 10;
     maxSplashEffects := 5;
     randomCalls := 0 |}.

Definition set_waterLevel (v : num) (e : Engine num) : Engine num :=
  mkEngine v (droplets e) (splashEffects e) (gravity e) (dropletIncrement e)
           (maxDroplets e) (maxSplashEffects e) (randomCalls e).

Definition set_droplets (v : list (Droplet.t num)) (e : Engine num) : Engine num :=
  mkEngine (waterLevel e) v (splashEffects e) (gravity e) (dropletIncrement e)
           (maxDroplets e) (maxSplashEffects e) (randomCalls e).

Definition set_splashEffects (v : list (Splash.t num)) (e : Engine num) : Engine num :=
  mkEngine (waterLevel e) (droplets e) v (gravity e) (dropletIncrement e)
           (maxDroplets e) (maxSplashEffects e) (randomCalls e).

Definition set_randomCalls (v : nat) (e : Engine num) : Engine num :=
  mkEngine (waterLevel e) (droplets e) (splashEffects e) (gravity e)
           (dropletIncrement e) (maxDroplets e) (maxSplashEffects e) v.

(** The droplet [addDroplet(x, y)] pushes, [k] values having been drawn. *)
Definition new_droplet (k : nat) (x y : num) : Droplet.t num :=
  {| Droplet.x := x;
     Droplet.y := y;
     Droplet.velocityX := (random k - lit 0.5) * lit 2;
     Droplet.velocityY := lit 0;
     Droplet.size := lit 4 + random (S k) * lit 2;
     Droplet.life := lit 1.0;
     Droplet.splashed := false |}.

(** [addDroplet(x, y)]: the value returned and the engine after the call. *)
Definition addDroplet (x y : num) (e : Engine num) : bool * Engine num :=
  if decide (maxDroplets e <= length (droplets e))%nat then (false, e)
  else
    let k := randomCalls e in
    (true, set_randomCalls (S (S k))
             (set_droplets (droplets e ++ [new_droplet k x y]) e)).

(** The splash [createSplash(x, y)] pushes, [k] values having been drawn. *)
Definition new_splash (k : nat) (x y : num) : Splash.t num :=
  {| Splash.x := x;
     Splash.y := y;
     Splash.radius := lit 2;
     Splash.maxRadius := lit 30 + random k * lit 20;
     Splash.expansionSpeed := lit 50 + random (S k) * lit 30;
     Splash.opacity := lit 0.8;
     Splash.life := lit 1.0 |}.

Definition createSplash (x y : num) (e : Engine num) : Engine num :=
  let e :=
    if decide (maxSplashEffects e <= length (splashEffects e))%nat
    then set_splashEffects (shift (splashEffects e)) e
    else e in
  let k := randomCalls e in
  set_randomCalls (S (S k))
    (set_splashEffects (splashEffects e ++ [new_splash k x y]) e).

(** [400 - (this.waterLevel / 100) * 300] *)
Definition waterSurfaceY (e : Engine num) : num :=
  lit 400 - (waterLevel e / lit 100) * lit 300.

(** The droplet after the three assignments that move it. *)
Definition move_droplet (deltaTime : num) (e : Engine num) (droplet : Droplet.t num)
  : Droplet.t num :=
  let velocityY := Droplet.velocityY droplet + gravity e * deltaTime in
  {| Droplet.x := Droplet.x droplet + Droplet.velocityX droplet * deltaTime;
     Droplet.y := Droplet.y droplet + velocityY * deltaTime;
     Droplet.velocityX := Droplet.velocityX droplet;
     Droplet.velocityY := velocityY;
     Droplet.size := Droplet.size droplet;
     Droplet.life := Droplet.life droplet;
     Droplet.splashed := Droplet.splashed droplet |}.

(** [droplet.y >= waterSurfaceY && !droplet.splashed], on the moved droplet. *)
Definition collides (e : Engine num) (droplet : Droplet.t num) : bool :=
  (Droplet.y droplet >=? waterSurfaceY e) && negb (Droplet.splashed droplet).

(** [droplet.y > 450 || droplet.life <= 0] *)
Definition droplet_gone (droplet : Droplet.t num) : bool :=
  (Droplet.y droplet >? lit 450) || (Droplet.life droplet <=? lit 0).

Definition set_splashed (droplet : Droplet.t num) : Droplet.t num :=
  Droplet.mk (Droplet.x droplet) (Droplet.y droplet) (Droplet.velocityX droplet)
             (Droplet.velocityY droplet) (Droplet.size droplet)
             (Droplet.life droplet) true.

Definition age_droplet (deltaTime : num) (droplet : Droplet.t num) : Droplet.t num :=
  Droplet.mk (Droplet.x droplet) (Droplet.y droplet) (Droplet.velocityX droplet)
             (Droplet.velocityY droplet) (Droplet.size droplet)
             (Droplet.life droplet - deltaTime * lit 0.001)
             (Droplet.splashed droplet).

(** [Math.min(100, this.waterLevel + this.dropletIncrement)] *)
Definition raise_level (e : Engine num) : num :=
  Math_min (lit 100) (waterLevel e + dropletIncrement e).

(** The body of the droplet loop of [update], at index [i]. *)
Definition update_droplet (deltaTime : num) (i : nat) (e : Engine num) : Engine num :=
  match droplets e !! i with
  | None => e
  | Some droplet =>
    let droplet := move_droplet deltaTime e droplet in
    let surface := waterSurfaceY e in
    let hit := collides e droplet in
    let droplet := if hit then set_splashed droplet else droplet in
    let e :=
      if hit
      then createSplash (Droplet.x droplet) surface (set_waterLevel (raise_level e) e)
      else e in
    if droplet_gone droplet
    then set_droplets (delete i (droplets e)) e
    else set_droplets (<[i := age_droplet deltaTime droplet]> (droplets e)) e
  end.

(** [for (let i = n - 1; i >= 0; i--)] over the droplets. *)
Fixpoint update_droplets (deltaTime : num) (n : nat) (e : Engine num) : Engine num :=
  match n with
  | O => e
  | S i => update_droplets deltaTime i (update_droplet deltaTime i e)
  end.

(** The splash after the three assignments of the splash loop. *)
Definition age_splash (deltaTime : num) (splash : Splash.t num) : Splash.t num :=
  {| Splash.x := Splash.x splash;
     Splash.y := Splash.y splash;
     Splash.radius := Splash.radius splash + Splash.expansionSpeed splash * deltaTime;
     Splash.maxRadius := Splash.maxRadius splash;
     Splash.expansionSpeed := Splash.expansionSpeed splash;
     Splash.opacity := Splash.opacity splash - deltaTime * lit 0.002;
     Splash.life := Splash.life splash - deltaTime * lit 0.001 |}.

(** [splash.life <= 0 || splash.opacity <= 0] *)
Definition splash_gone (splash : Splash.t num) : bool :=
  (Splash.life splash <=? lit 0) || (Splash.opacity splash <=? lit 0).

(** The body of the splash loop of [update], at index [i]. *)
Definition update_splash (deltaTime : num) (i : nat) (e : Engine num) : Engine num :=
  match splashEffects e !! i with
  | None => e
  | Some splash =>
    let splash := age_splash deltaTime splash in
    if splash_gone splash
    then set_splashEffects (delete i (splashEffects e)) e
    else set_splashEffects (<[i := splash]> (splashEffects e)) e
  end.

Fixpoint update_splashes (deltaTime : num) (n : nat) (e : Engine num) : Engine num :=
  match n with
  | O => e
  | S i => update_splashes deltaTime i (update_splash deltaTime i e)
  end.

Definition update (deltaTime : num) (e : Engine num) : Engine num :=
  let e := update_droplets deltaTime (length (droplets e)) e in
  update_splashes deltaTime (length (splashEffects e)) e.

(** A call of one of the engine's methods, and a sequence of them. *)
Inductive Call : Type :=
  | AddDroplet (x y : num)
  | Update (deltaTime : num)
  | CreateSplash (x y : num).

Definition call (e : Engine num) (c : Call) : Engine num :=
  match c with
  | AddDroplet x y => snd (addDroplet x y e)
  | Update deltaTime => update deltaTime e
  | CreateSplash x y => createSplash x y e
  end.

Definition run (calls : list Call) (e : Engine num) : Engine num :=
  foldl call e calls.

(** The droplets that have not yet hit the surface. *)
Definition unsplashed (l : list (Droplet.t num)) : nat :=
  length (filter (fun d => Droplet.splashed d = false) l).

End MockWaterSimulationEngine.

Arguments Call : clear implicits.

(** ** The frame rate monitor ([FrameRateMonitor]) *)

Module FrameRateMonitor.

Record t (num : Type) := mk {
  frameCount : nat;
  lastTime : num;
  fps : num;
  fpsHistory : list num;
  maxHistoryLength : nat
}.
Arguments mk {num}.
Arguments frameCount {num}.
Arguments lastTime {num}.
Arguments fps {num}.
Arguments fpsHistory {num}.
Arguments maxHistoryLength {num}.

Section Methods.

Context {num : Type} `{!JSNumber num}.

Open Scope js_scope.

(** The clock ([performance.now()]) is read once, and passed as [now]. *)
Definition constructor (now : num) : t num :=
  {| frameCount := 0;
     lastTime := now;
     fps := lit 60;
     fpsHistory := [];
     maxHistoryLength := 60 |}.

(** [getAverageFps] over a history: [reduce((a, b) => a + b, 0) / length]. *)
Definition average (history : list num) : num :=
  if decide (length history = 0%nat) then lit 60
  else foldl add (lit 0) history / of_nat (length history).

Definition getAverageFps (m : t num) : num := average (fpsHistory m).

Definition getCurrentFps (m : t num) : num := Math_round (fps m).

(** The history after [push(currentFps)] and the [shift] that bounds it. *)
Definition record_sample (m : t num) (currentFps : num) : list num :=
  let history := fpsHistory m ++ [currentFps] in
  if decide (maxHistoryLength m < length history)%nat then shift history else history.

Definition update (now : num) (m : t num) : t num :=
  let deltaTime := now - lastTime m in
  let m :=
    if deltaTime >? lit 0 then
      let history := record_sample m (lit 1000 / deltaTime) in
      mk (frameCount m) (lastTime m) (average history) history (maxHistoryLength m)
    else m in
  mk (S (frameCount m)) now (fps m) (fpsHistory m) (maxHistoryLength m).

End Methods.

End FrameRateMonitor.

(** ** The performance scaler ([PerformanceScaler]) *)

Module PerformanceScaler.

Record t (num : Type) := mk {
  performanceLevel : num;
  lastAdjustment : num;
  adjustmentCooldown : num;
  minPerformanceLevel : num
}.
Arguments mk {num}.
Arguments performanceLevel {num}.
Arguments lastAdjustment {num}.
Arguments adjustmentCooldown {num}.
Arguments minPerformanceLevel {num}.

Section Methods.

Context {num : Type} `{!JSNumber num}.

Open Scope js_scope.

Definition constructor : t num :=
  {| performanceLevel := lit 1.0;
     lastAdjustment := lit 0;
     adjustmentCooldown := lit 2000;
     minPerformanceLevel := lit 0.3 |}.

(** The level the ladder of [adjustPerformance] assigns for a frame rate. *)
Definition ladder (fps : num) (s : t num) : num :=
  if fps <? lit 20 then
    Math_max (minPerformanceLevel s) (performanceLevel s * lit 0.6)
  else if fps <? lit 30 then
    Math_max (minPerformanceLevel s) (performanceLevel s * lit 0.8)
  else if (fps >? lit 50) && (performanceLevel s <? lit 1.0) then
    Math_min (lit 1.0) (performanceLevel s * lit 1.1)
  else performanceLevel s.

(** [adjustPerformance(frameRateMonitor)], the clock reading [now]: the value
    returned and the scaler after the call. *)
Definition adjustPerformance (now : num) (frameRateMonitor : FrameRateMonitor.t num)
    (s : t num) : num * t num :=
  if now - lastAdjustment s <? adjustmentCooldown s then (performanceLevel s, s)
  else
    let fps := FrameRateMonitor.getCurrentFps frameRateMonitor in
    let level := ladder fps s in
    (level, mk level now (adjustmentCooldown s) (minPerformanceLevel s)).

Definition getScaledValue (baseValue : num) (s : t num) : num :=
  Math_max (lit 1) (Math_floor (baseValue * performanceLevel s)).

End Methods.

End PerformanceScaler.

(** ** The object pool ([ObjectPool])

    Objects are references: [indexOf] compares them with [===], which is a
    decidable equality on a type [A] of references.  [createFn k] is the
    object the [k]-th call of [createFn] returns, and [created] counts the
    calls made so far. *)

Module ObjectPool.

Record t (A : Type) := mk {
  pool : list A;
  active : list A;
  created : nat
}.
Arguments mk {A}.
Arguments pool {A}.
Arguments active {A}.
Arguments created {A}.

Section Methods.

Context {A : Type} `{!EqDecision A}.

Variable createFn : nat -> A.

(** [this.pool.push(this.createFn())], [n] times. *)
Fixpoint fill (n : nat) (p : t A) : t A :=
  match n with
  | O => p
  | S n => fill n (mk (pool p ++ [createFn (created p)]) (active p) (S (created p)))
  end.

(** [new ObjectPool(createFn, initialSize)]; [initialSize] is 10 when it
    is left out. *)
Definition constructor (initialSize : nat) : t A :=
  fill initialSize (mk [] [] 0).

(** [acquire()]: the object returned and the pool after the call.  The pool
    has a last element exactly when [this.pool.length > 0], and [pop] takes
    it. *)
Definition acquire (p : t A) : A * t A :=
  match last (pool p) with
  | Some obj => (obj, mk (removelast (pool p)) (active p ++ [obj]) (created p))
  | None =>
    let obj := createFn (created p) in
    (obj, mk (pool p) (active p ++ [obj]) (S (created p)))
  end.

(** [this.active.indexOf(obj)]: the first index that holds [obj]. *)
Definition indexOf (obj : A) (l : list A) : option nat :=
  fst <$> list_find (fun o => o = obj) l.

Definition release (obj : A) (p : t A) : t A :=
  match indexOf obj (active p) with
  | None => p
  | Some index =>
    let active := delete index (active p) in
    if decide (length (pool p) < 50)%nat
    then mk (pool p ++ [obj]) active (created p)
    else mk (pool p) active (created p)
  end.

Definition getPoolSize (p : t A) : nat := length (pool p).

Definition getActiveCount (p : t A) : nat := length (active p).

(** One round of the loop of [testObjectPoolEfficiency]: [acquire], then
    [release] of the object acquired.  The assignments to the fields of the
    object in between leave the reference as it is. *)
Definition cycle (p : t A) : t A :=
  let '(obj, p) := acquire p in release obj p.

(** A call of [acquire] or [release], and a sequence of them. *)
Inductive Call : Type :=
  | Acquire
  | Release (obj : A).

Definition call (p : t A) (c : Call) : t A :=
  match c with
  | Acquire => snd (acquire p)
  | Release obj => release obj p
  end.

Definition run (calls : list Call) (p : t A) : t A := foldl call p calls.

End Methods.

Arguments Call : clear implicits.

End ObjectPool.

(** ** The loops of the performance tests ([PerformanceTester]) *)

Section PerformanceTester.

Context {num : Type} `{!JSNumber num}.

Open Scope js_scope.

(** The inner loop of [testMemoryUsageStability]:
    [while (droplets.length > 0 && iterations < budget) { update(deltaTime);
    iterations++ }], with [budget = 1000] and [deltaTime = 16.67] in the
    source; the iterations made and the engine after them. *)
Fixpoint drain (random : nat -> num) (deltaTime : num) (budget : nat) (e : Engine num)
  : nat * Engine num :=
  match budget with
  | O => (O, e)
  | S budget =>
    if decide (0 < length (droplets e))%nat
    then let '(iterations, e) := drain random deltaTime budget (update random deltaTime e) in
         (S iterations, e)
    else (O, e)
  end.

(** The loop of [testPerformanceScaling] over the frame rates of its
    scenarios; [now k] is the [k]-th reading of the clock.  Each round sets
    the monitor's [fps] and gives [initialLevel], [adjustedLevel] and
    [scaledValue]. *)
Fixpoint scaling_loop (now : nat -> num) (k : nat) (scenarios : list num)
    (monitor : FrameRateMonitor.t num) (scaler : PerformanceScaler.t num)
  : list (num * num * num) :=
  match scenarios with
  | [] => []
  | fps :: scenarios =>
    let monitor :=
      FrameRateMonitor.mk (FrameRateMonitor.frameCount monitor)
        (FrameRateMonitor.lastTime monitor) fps
        (FrameRateMonitor.fpsHistory monitor)
        (FrameRateMonitor.maxHistoryLength monitor) in
    let initialLevel := PerformanceScaler.performanceLevel scaler in
    let '(adjustedLevel, scaler) :=
      PerformanceScaler.adjustPerformance (now k) monitor scaler in
    (initialLevel, adjustedLevel, PerformanceScaler.getScaledValue (lit 10) scaler)
    :: scaling_loop now (S k) scenarios monitor scaler
  end.

(** [testPerformanceScaling]: its [results].  The monitor's constructor
    reads the clock first, then each [adjustPerformance] reads it once. *)
Definition testPerformanceScaling (now : nat -> num) : list (num * num * num) :=
  scaling_loop now 1 [lit 60; lit 45; lit 25; lit 15]
    (FrameRateMonitor.constructor (now 0%nat)) PerformanceScaler.constructor.

End PerformanceTester.

(** ** The geometry helpers of [ResponsiveTester] *)

Module Rect.
Record t (num : Type) := mk {
  left : num;
  right : num;
  top : num;
  bottom : num
}.
Arguments mk {num}.
Arguments left {num}.
Arguments right {num}.
Arguments top {num}.
Arguments bottom {num}.
End Rect.

Section ResponsiveTester.

Context {num : Type} `{!JSNumber num}.

Open Scope js_scope.

Definition isTextReadable (fontSize viewportWidth : num) : bool :=
  let minSize :=
    if viewportWidth <=? lit 480 then lit 14
    else if viewportWidth <=? lit 768 then lit 16
    else lit 16 in
  fontSize >=? minSize.

Definition checkElementOverlap (rect1 rect2 : Rect.t num) : bool :=
  negb ((Rect.right rect1 <? Rect.left rect2) ||
        (Rect.right rect2 <? Rect.left rect1) ||
        (Rect.bottom rect1 <? Rect.top rect2) ||
        (Rect.bottom rect2 <? Rect.top rect1)).

End ResponsiveTester.

(** ** Milestones and accumulation ([test-runner.js]) *)

Module Milestone.
Record t (num : Type) := mk {
  threshold : num;
  achieved : bool
}.
Arguments mk {num}.
Arguments threshold {num}.
Arguments achieved {num}.
End Milestone.

Section Milestones.

Context {num : Type} `{!JSNumber num}.

Open Scope js_scope.

(** The object [milestones], as its entries in insertion order. *)
Definition milestones : list (string * Milestone.t num) :=
  [ ("fish"%string, Milestone.mk (lit 30) false);
    ("waves"%string, Milestone.mk (lit 70) false);
    ("completion"%string, Milestone.mk (lit 100) false) ].

(** [!milestone.achieved && level >= milestone.threshold] *)
Definition fires (level : num) (milestone : Milestone.t num) : bool :=
  negb (Milestone.achieved milestone) && (level >=? Milestone.threshold milestone).

(** The loop over [Object.entries(milestones)] at one water level: the keys
    pushed on [achieved], and the milestones after it. *)
Fixpoint evaluate (level : num) (entries : list (string * Milestone.t num))
  : list string * list (string * Milestone.t num) :=
  match entries with
  | [] => ([], [])
  | (key, milestone) :: rest =>
    let '(keys, rest') := evaluate level rest in
    if fires level milestone
    then (key :: keys, (key, Milestone.mk (Milestone.threshold milestone) true) :: rest')
    else (keys, (key, milestone) :: rest')
  end.

(** [waterLevel = Math.min(100, waterLevel + dropletIncrement)], [n] times,
    as [testWaterLevelAccumulation] does it. *)
Definition accumulate (dropletIncrement : num) (n : nat) (waterLevel : num) : num :=
  Nat.iter n (fun waterLevel => Math_min (lit 100) (waterLevel + dropletIncrement)) waterLevel.

(** The loop of [testEndToEndFlow]: [for (let i = 0; i < requiredDroplets; i++)],
    with [fuel] bounding the number of iterations. *)
Fixpoint endToEnd_loop (fuel : nat) (requiredDroplets dropletIncrement i waterLevel : num)
    (entries : list (string * Milestone.t num))
  : option (num * list (string * Milestone.t num)) :=
  if i <? requiredDroplets then
    match fuel with
    | O => None
    | S fuel =>
      let waterLevel := Math_min (lit 100) (waterLevel + dropletIncrement) in
      endToEnd_loop fuel requiredDroplets dropletIncrement (i + lit 1) waterLevel
                    (snd (evaluate waterLevel entries))
    end
  else Some (waterLevel, entries).

Definition all_achieved (entries : list (string * Milestone.t num)) : bool :=
  forallb (fun entry => Milestone.achieved (snd entry)) entries.

(** [testEndToEndFlow]: the final level, the milestones and [flowComplete]. *)
Definition testEndToEndFlow (fuel : nat)
  : option (num * list (string * Milestone.t num) * bool) :=
  let dropletIncrement := lit 0.8 in
  let targetLevel := lit 100 in
  let requiredDroplets := Math_ceil (targetLevel / dropletIncrement) in
  match endToEnd_loop fuel requiredDroplets dropletIncrement (lit 0) (lit 0) milestones with
  | None => None
  | Some (waterLevel, entries) =>
    Some (waterLevel, entries, (waterLevel >=? lit 100) && all_achieved entries)
  end.

End Milestones.

(** *** The milestone test ([testMilestoneThresholds]) *)

Section MilestoneTest.

Context {num : Type} `{!JSNumber num}.

(** [achieved.length === expected.length &&
     achieved.every(a => expected.includes(a))] *)
Definition correct (achieved expected : list string) : bool :=
  bool_decide (length achieved = length expected) &&
  forallb (fun a => bool_decide (a ∈ expected)) achieved.

(** The loop of [testMilestoneThresholds] over the levels and the keys
    expected at each: [allCorrect], and the milestones after it. *)
Fixpoint thresholds_loop (cases : list (num * list string))
    (entries : list (string * Milestone.t num)) (allCorrect : bool)
  : bool * list (string * Milestone.t num) :=
  match cases with
  | [] => (allCorrect, entries)
  | (level, expected) :: cases =>
    let '(achieved, entries) := evaluate level entries in
    thresholds_loop cases entries
      (if correct achieved expected then allCorrect else false)
  end.

(** [testMilestoneThresholds]: its [allCorrect]. *)
Definition testMilestoneThresholds : bool :=
  let testLevels := [lit 25; lit 30; lit 65; lit 70; lit 95; lit 100] in
  let expectedAchievements :=
    [ []; ["fish"]; ["fish"]; ["fish"; "waves"]; ["fish"; "waves"];
      ["fish"; "waves"; "completion"] ]%string in
  (thresholds_loop (zip testLevels expectedAchievements) milestones true).1.

End MilestoneTest.

(** *** The accumulation test ([testWaterLevelAccumulation]) *)

Section AccumulationTest.

Context {num : Type} `{!JSNumber num}.

Open Scope js_scope.

(** [Math.abs]: the larger of [x] and [0 - x]. *)
Definition Math_abs (x : num) : num := Math_max x (lit 0 - x).

(** [testWaterLevelAccumulation]: its [accurate], for a number of droplets
    ([numDroplets], 10 in the source). *)
Definition testWaterLevelAccumulation (numDroplets : nat) : bool :=
  let dropletIncrement := lit 0.8 in
  let waterLevel := accumulate dropletIncrement numDroplets (lit 0) in
  let expectedLevel := Math_min (lit 100) (of_nat numDroplets * dropletIncrement) in
  Math_abs (waterLevel - expectedLevel) <? lit 0.1.

End AccumulationTest.

(** *** The tally of the runner ([updateOverallResults]) *)

Module OverallResults.
Record t := mk {
  passed : nat;
  failed : nat;
  warnings : nat;
  errors : nat;
  total : nat
}.
End OverallResults.

(** One round of the loop: [total++], and the [switch] on the status. *)
Definition count_result (o : OverallResults.t) (status : string) : OverallResults.t :=
  let total := S (OverallResults.total o) in
  let '(OverallResults.mk passed failed warnings errors _) := o in
  if decide (status = "pass") then OverallResults.mk (S passed) failed warnings errors total
  else if decide (status = "fail") then OverallResults.mk passed (S failed) warnings errors total
  else if decide (status = "warning") then OverallResults.mk passed failed (S warnings) errors total
  else if decide (status = "error") then OverallResults.mk passed failed warnings (S errors) total
  else OverallResults.mk passed failed warnings errors total.

(** [updateOverallResults(suiteResults)], on the statuses of the results. *)
Definition updateOverallResults (suiteResults : list string) (o : OverallResults.t)
  : OverallResults.t :=
  foldl count_result o suiteResults.

(** ** Progress persistence (the Progress Manager of the specification)

    The Progress Manager is not among the source files: the test suite only
    exercises [localStorage], [JSON.stringify] and [JSON.parse] inline.  It
    is modelled here from its specification, which names JSON as the format
    of the record: the values of JSON, their text as [JSON.stringify] writes
    it, the reading of a text by the grammar of JSON, and [save] and [load]
    on top of them.  A character is a code unit below 256. *)

Module ProgressManager.

(** The text of a stored item, as its characters. *)
Definition text : Type := list ascii.

Definition quote : ascii := "034"%char.

Definition backslash : ascii := "092"%char.

Definition chars (s : string) : text := String.list_ascii_of_string s.

(** *** Numbers

    JSON writes a number in decimal, and a number of a record is here the
    decimal that is written for it: zero, or a sign, the digits from the
    first to the last one that is not 0, and the power of ten of the last
    digit.  [JSON.stringify] writes a binary64 as the shortest decimal that
    reads back as it, so that every finite binary64 is one of these
    decimals; NaN and the infinities, which JSON cannot write, are not
    among them. *)

Inductive nonzero : Type := n1 | n2 | n3 | n4 | n5 | n6 | n7 | n8 | n9.

Inductive digit : Type := zero | nz (d : nonzero).

Inductive significand : Type :=
  | One (d : nonzero)
  | More (first : nonzero) (middle : list digit) (last : nonzero).

(** Modelled from the spec: the number [waterLevel] of the persisted
    record, as a decimal. *)
Inductive Dec : Type :=
  | Zero
  | Signed (negative : bool) (m : significand) (e : Z).

Definition digits (m : significand) : list digit :=
  match m with
  | One d => [nz d]
  | More first middle last => nz first :: middle ++ [nz last]
  end.

Definition digit_char (d : digit) : ascii :=
  match d with
  | zero => "0" | nz n1 => "1" | nz n2 => "2" | nz n3 => "3" | nz n4 => "4"
  | nz n5 => "5" | nz n6 => "6" | nz n7 => "7" | nz n8 => "8" | nz n9 => "9"
  end%char.

Definition char_digit (c : ascii) : option digit :=
  match c with
  | "0" => Some zero | "1" => Some (nz n1) | "2" => Some (nz n2)
  | "3" => Some (nz n3) | "4" => Some (nz n4) | "5" => Some (nz n5)
  | "6" => Some (nz n6) | "7" => Some (nz n7) | "8" => Some (nz n8)
  | "9" => Some (nz n9) | _ => None
  end%char.

(** Digits and the numerals of the library. *)
Fixpoint to_uint (l : list digit) : Decimal.uint :=
  match l with
  | [] => Decimal.Nil
  | zero :: l => Decimal.D0 (to_uint l)
  | nz n1 :: l => Decimal.D1 (to_uint l)
  | nz n2 :: l => Decimal.D2 (to_uint l)
  | nz n3 :: l => Decimal.D3 (to_uint l)
  | nz n4 :: l => Decimal.D4 (to_uint l)
  | nz n5 :: l => Decimal.D5 (to_uint l)
  | nz n6 :: l => Decimal.D6 (to_uint l)
  | nz n7 :: l => Decimal.D7 (to_uint l)
  | nz n8 :: l => Decimal.D8 (to_uint l)
  | nz n9 :: l => Decimal.D9 (to_uint l)
  end.

Fixpoint of_uint (u : Decimal.uint) : list digit :=
  match u with
  | Decimal.Nil => []
  | Decimal.D0 u => zero :: of_uint u
  | Decimal.D1 u => nz n1 :: of_uint u
  | Decimal.D2 u => nz n2 :: of_uint u
  | Decimal.D3 u => nz n3 :: of_uint u
  | Decimal.D4 u => nz n4 :: of_uint u
  | Decimal.D5 u => nz n5 :: of_uint u
  | Decimal.D6 u => nz n6 :: of_uint u
  | Decimal.D7 u => nz n7 :: of_uint u
  | Decimal.D8 u => nz n8 :: of_uint u
  | Decimal.D9 u => nz n9 :: of_uint u
  end.

(** The digits of a natural number, and the number of a run of digits. *)
Definition numeral (n : N) : list digit := of_uint (N.to_uint n).

Definition number_of (l : list digit) : N := N.of_uint (to_uint l).

(** The value of a decimal. *)
Definition value_of (d : Dec) : Q :=
  match d with
  | Zero => 0
  | Signed negative m e =>
    let v := (inject_Z (Z.of_N (number_of (digits m))) * 10 ^ e)%Q in
    if negative then (- v)%Q else v
  end.

(** **** Writing a number

    The text of a number as [JSON.stringify] writes it ([Number::toString]
    of the digits [m] and of the place [n] of the decimal point): the
    digits and zeros up to the point when [k <= n <= 21]; the digits with
    the point among them when [0 < n <= 21]; [0.] and zeros and the digits
    when [-6 < n <= 0]; and else the first digit, the others after a point,
    and the exponent [n - 1] with its sign. *)
Definition print_digits (l : list digit) : text := map digit_char l.

Definition print_mantissa (m : significand) : text :=
  match m with
  | One d => [digit_char (nz d)]
  | More first middle last =>
    digit_char (nz first) :: "."%char :: print_digits (middle ++ [nz last])
  end.

Definition print_exponent (x : Z) : text :=
  "e"%char :: (if decide (0 <= x)%Z then "+"%char else "-"%char) ::
  print_digits (numeral (Z.abs_N x)).

Definition print_unsigned (m : significand) (e : Z) : text :=
  let ds := digits m in
  let k := Z.of_nat (length ds) in
  let n := (e + k)%Z in
  if decide (k <= n <= 21)%Z then
    print_digits (ds ++ replicate (Z.to_nat (n - k)) zero)
  else if decide (0 < n <= 21)%Z then
    print_digits (take (Z.to_nat n) ds) ++ "."%char :: print_digits (drop (Z.to_nat n) ds)
  else if decide (-6 < n <= 0)%Z then
    "0"%char :: "."%char :: print_digits (replicate (Z.to_nat (- n)) zero ++ ds)
  else print_mantissa m ++ print_exponent (n - 1).

(** Modelled from the spec: the text of a number in the serialization. *)
Definition print_number (d : Dec) : text :=
  match d with
  | Zero => ["0"%char]
  | Signed negative m e =>
    (if negative then ["-"%char] else []) ++ print_unsigned m e
  end.

(** **** Reading a number

    The grammar of a JSON number: an optional [-]; [0], or digits that do
    not start with 0; an optional fraction, a point and at least one digit;
    an optional exponent, [e] or [E], an optional sign and at least one
    digit. *)
Fixpoint read_digits (s : text) : list digit * text :=
  match s with
  | [] => ([], [])
  | c :: s' =>
    match char_digit c with
    | Some d => let '(l, rest) := read_digits s' in (d :: l, rest)
    | None => ([], s)
    end
  end.

Fixpoint drop_zeros (l : list digit) : list digit :=
  match l with
  | zero :: l => drop_zeros l
  | _ => l
  end.

(** The digits of [l] up to its last digit that is not 0, that digit, and
    the number of zeros after it. *)
Fixpoint trailing (l : list digit) : option (list digit * nonzero) * nat :=
  match l with
  | [] => (None, 0)
  | d :: l =>
    match trailing l, d with
    | (Some (middle, last), z), _ => (Some (d :: middle, last), z)
    | (None, z), nz last => (Some ([], last), z)
    | (None, z), zero => (None, S z)
    end
  end.

(** The decimal of the digits [l] with the last of them at the power [e]. *)
Definition normal (negative : bool) (l : list digit) (e : Z) : Dec :=
  match drop_zeros l with
  | nz first :: l =>
    match trailing l with
    | (Some (middle, last), z) => Signed negative (More first middle last) (e + Z.of_nat z)
    | (None, z) => Signed negative (One first) (e + Z.of_nat z)
    end
  | _ => Zero
  end.

(** [0], or digits that do not start with 0. *)
Definition integer_part (l : list digit) : bool :=
  match l with
  | [] => false
  | [zero] => true
  | zero :: _ => false
  | nz _ :: _ => true
  end.

Definition read_fraction (s : text) : option (list digit * text) :=
  match s with
  | c :: s' =>
    if (c =? ".")%char then
      match read_digits s' with
      | ([], _) => None
      | (l, rest) => Some (l, rest)
      end
    else Some ([], s)
  | [] => Some ([], s)
  end.

Definition read_sign (s : text) : bool * text :=
  match s with
  | c :: s' =>
    if (c =? "-")%char then (true, s')
    else if (c =? "+")%char then (false, s')
    else (false, s)
  | [] => (false, s)
  end.

Definition read_exponent (s : text) : option (Z * text) :=
  match s with
  | c :: s' =>
    if (c =? "e")%char || (c =? "E")%char then
      let '(negative, s') := read_sign s' in
      match read_digits s' with
      | ([], _) => None
      | (l, rest) =>
        let x := Z.of_N (number_of l) in
        Some (if negative : bool then (- x)%Z else x, rest)
      end
    else Some (0%Z, s)
  | [] => Some (0%Z, s)
  end.

(** What follows the sign of a number. *)
Definition read_unsigned (negative : bool) (s : text) : option (Dec * text) :=
  let '(whole, s) := read_digits s in
  if integer_part whole then
    '(fraction, s) ← read_fraction s;
    '(x, s) ← read_exponent s;
    Some (normal negative (whole ++ fraction) (x - Z.of_nat (length fraction)), s)
  else None.

(** Modelled from the spec: the number at the start of a text, and what
    follows it; [None] when the text does not start with a JSON number. *)
Definition read_number (s : text) : option (Dec * text) :=
  match s with
  | c :: s' => if (c =? "-")%char then read_unsigned true s' else read_unsigned false s
  | [] => None
  end.

(** *** Strings *)

Definition hex_char (n : N) : ascii :=
  match n with
  | 0 => "0" | 1 => "1" | 2 => "2" | 3 => "3" | 4 => "4" | 5 => "5" | 6 => "6"
  | 7 => "7" | 8 => "8" | 9 => "9" | 10 => "a" | 11 => "b" | 12 => "c"
  | 13 => "d" | 14 => "e" | _ => "f"
  end%N%char.

(** The value of a hexadecimal digit, in either case. *)
Definition hex_value (c : ascii) : option N :=
  match c with
  | "a" | "A" => Some 10
  | "b" | "B" => Some 11
  | "c" | "C" => Some 12
  | "d" | "D" => Some 13
  | "e" | "E" => Some 14
  | "f" | "F" => Some 15
  | _ => (fun d => number_of [d]) <$> char_digit c
  end%N%char.

(** Modelled from the spec: a character inside a string as
    [JSON.stringify] writes it: the quote
    and the backslash after a backslash, a control character by its letter
    or by its code in hexadecimal, and any other character as it is. *)
Definition escape (c : ascii) : text :=
  if (c =? quote)%char then [backslash; quote]
  else if (c =? backslash)%char then [backslash; backslash]
  else
    match N_of_ascii c with
    | 8 => [backslash; "b"%char]
    | 9 => [backslash; "t"%char]
    | 10 => [backslash; "n"%char]
    | 12 => [backslash; "f"%char]
    | 13 => [backslash; "r"%char]
    | n =>
      if (n <? 32)%N then
        [backslash; "u"; "0"; "0"; hex_char (n / 16); hex_char (n mod 16)]%char
      else [c]
    end%N.

Definition print_string (s : string) : text :=
  quote :: flat_map escape (chars s) ++ [quote].

(** The character a letter after a backslash stands for. *)
Definition unescape (c : ascii) : option ascii :=
  match c with
  | "034" => Some quote
  | "092" => Some backslash
  | "/" => Some "/"
  | "b" => Some "008"
  | "f" => Some "012"
  | "n" => Some "010"
  | "r" => Some "013"
  | "t" => Some "009"
  | _ => None
  end%char.

(** The character of four hexadecimal digits; the characters of this
    development have codes below 256. *)
Definition unicode (h1 h2 h3 h4 : ascii) : option ascii :=
  v1 ← hex_value h1; v2 ← hex_value h2; v3 ← hex_value h3; v4 ← hex_value h4;
  let code := (((v1 * 16 + v2) * 16 + v3) * 16 + v4)%N in
  if (code <? 256)%N then Some (ascii_of_N code) else None.

(** Modelled from the spec: the characters of a string up to its closing
    quote as [JSON.parse] reads them, the opening quote being read: a control character is not allowed as it is, and a
    backslash starts one of the escapes of JSON. *)
Fixpoint read_string (s : text) : option (text * text) :=
  match s with
  | [] => None
  | c :: s =>
    if (c =? quote)%char then Some ([], s)
    else if (c =? backslash)%char then
      match s with
      | [] => None
      | c :: s =>
        if (c =? "u")%char then
          match s with
          | h1 :: h2 :: h3 :: h4 :: s =>
            c ← unicode h1 h2 h3 h4;
            '(l, rest) ← read_string s;
            Some (c :: l, rest)
          | _ => None
          end
        else
          c ← unescape c;
          '(l, rest) ← read_string s;
          Some (c :: l, rest)
      end
    else if (N_of_ascii c <? 32)%N then None
    else '(l, rest) ← read_string s; Some (c :: l, rest)
  end.

(** *** Values *)

(** Modelled from the spec: the values of JSON, the format of the persisted
    record that the specification names. *)
#[local] Unset Elimination Schemes.
Inductive json : Type :=
  | JNull
  | JBool (b : bool)
  | JNumber (d : Dec)
  | JString (s : string)
  | JArray (elements : list json)
  | JObject (members : list (string * json)).
#[local] Set Elimination Schemes.

(** Texts with a comma between them. *)
Fixpoint separated (l : list text) : text :=
  match l with
  | [] => []
  | [t] => t
  | t :: l => t ++ ","%char :: separated l
  end.

(** Modelled from the spec: the text of a value as [JSON.stringify] writes
    it, as in [testDataIntegrity], without any space. *)
Fixpoint print (j : json) : text :=
  match j with
  | JNull => chars "null"
  | JBool true => chars "true"
  | JBool false => chars "false"
  | JNumber d => print_number d
  | JString s => print_string s
  | JArray elements => "["%char :: separated (map print elements) ++ ["]"%char]
  | JObject members =>
    "{"%char ::
    separated (map (fun m => print_string m.1 ++ ":"%char :: print m.2) members) ++
    ["}"%char]
  end.

(** The nesting of arrays and objects in a value. *)
Fixpoint depth (j : json) : nat :=
  match j with
  | JArray elements => S (foldr (fun j d => depth j `max` d) 0 elements)
  | JObject members => S (foldr (fun m d => depth m.2 `max` d) 0 members)
  | _ => 1
  end.

Definition whitespace (c : ascii) : bool :=
  (c =? " ")%char || (c =? "009")%char || (c =? "010")%char || (c =? "013")%char.

Fixpoint skip (s : text) : text :=
  match s with
  | c :: s' => if whitespace c then skip s' else s
  | [] => []
  end.

(** [expect p s]: what follows [p] in [s], when [s] starts with [p]. *)
Fixpoint expect (p s : text) : option text :=
  match p, s with
  | [], _ => Some s
  | a :: p, b :: s => if (a =? b)%char then expect p s else None
  | _ :: _, [] => None
  end.

Section Loops.

(** The reader of a value inside an array or an object. *)
Variable read_value : text -> option (json * text).

(** The elements of an array that is not empty, up to its bracket. *)
Fixpoint read_elements (n : nat) (s : text) : option (list json * text) :=
  match n with
  | O => None
  | S n =>
    '(j, s) ← read_value s;
    match skip s with
    | c :: s =>
      if (c =? ",")%char then '(l, s) ← read_elements n s; Some (j :: l, s)
      else if (c =? "]")%char then Some ([j], s)
      else None
    | [] => None
    end
  end.

(** The members of an object that is not empty, up to its brace. *)
Fixpoint read_members (n : nat) (s : text) : option (list (string * json) * text) :=
  match n with
  | O => None
  | S n =>
    s ← expect [quote] (skip s);
    '(name, s) ← read_string s;
    s ← expect [":"%char] (skip s);
    '(j, s) ← read_value s;
    let m := (String.string_of_list_ascii name, j) in
    match skip s with
    | c :: s =>
      if (c =? ",")%char then '(l, s) ← read_members n s; Some (m :: l, s)
      else if (c =? "}")%char then Some ([m], s)
      else None
    | [] => None
    end
  end.

End Loops.

(** Modelled from the spec: a value at the start of a text as [JSON.parse]
    reads it, and what follows it; [fuel] bounds the nesting of arrays and
    objects. *)
Fixpoint read_value (fuel : nat) (s : text) : option (json * text) :=
  match fuel with
  | O => None
  | S fuel =>
    match skip s with
    | [] => None
    | c :: s' =>
      if (c =? "[")%char then
        match skip s' with
        | c' :: s'' =>
          if (c' =? "]")%char then Some (JArray [], s'')
          else '(l, rest) ← read_elements (read_value fuel) (length s') s';
               Some (JArray l, rest)
        | [] => None
        end
      else if (c =? "{")%char then
        match skip s' with
        | c' :: s'' =>
          if (c' =? "}")%char then Some (JObject [], s'')
          else '(l, rest) ← read_members (read_value fuel) (length s') s';
               Some (JObject l, rest)
        | [] => None
        end
      else if (c =? quote)%char then
        '(l, rest) ← read_string s'; Some (JString (String.string_of_list_ascii l), rest)
      else if (c =? "t")%char then
        rest ← expect (chars "rue") s'; Some (JBool true, rest)
      else if (c =? "f")%char then
        rest ← expect (chars "alse") s'; Some (JBool false, rest)
      else if (c =? "n")%char then
        rest ← expect (chars "ull") s'; Some (JNull, rest)
      else '(d, rest) ← read_number (c :: s'); Some (JNumber d, rest)
    end
  end.

(** Modelled from the spec: the value of a text as [JSON.parse] reads it, as
    in [testDataIntegrity]; [None] is a text that is not JSON (corrupt
    JSON).  Spaces may surround the value and its parts. *)
Definition parse (s : text) : option json :=
  '(j, rest) ← read_value (length s) s;
  match skip rest with
  | [] => Some j
  | _ :: _ => None
  end.

(** *** The record *)

(** Modelled from the spec: the persisted record
    [{ waterLevel: number, milestones: { [name]: boolean } }] of the absent
    Progress Manager.  Two records are deep-equal when they are equal. *)
Record State := mkState {
  waterLevel : Dec;
  milestones : gmap string bool
}.

(** Modelled from the spec: the durable key-value storage the absent
    Progress Manager writes to, which may be unavailable. *)
Inductive Storage : Type :=
  | Unavailable
  | Available (items : gmap string text).

(** Modelled from the spec: the object that is serialized, with the members
    [waterLevel] and [milestones], the flags in the order [order]. *)
Definition record (level : Dec) (order : list (string * bool)) : json :=
  JObject [("waterLevel"%string, JNumber level);
           ("milestones"%string, JObject (map (fun m => (m.1, JBool m.2)) order))].

(** Modelled from the spec: the object of a state.  A map has no order of
    its own: the flags are written in the order in which the map lists
    them. *)
Definition to_json (st : State) : json :=
  record (waterLevel st) (map_to_list (milestones st)).

(** Modelled from the spec: an object as [JSON.parse] keeps it, the map of
    its members, with the last of the members of a name. *)
Definition object (members : list (string * json)) : gmap string json :=
  list_to_map (reverse members).

Definition is_flag (j : json) : bool :=
  match j with
  | JBool _ => true
  | _ => false
  end.

Definition as_flag (j : json) : option bool :=
  match j with
  | JBool b => Some b
  | _ => None
  end.

(** The flags of an object all of whose members are booleans. *)
Definition flags (members : list (string * json)) : option (gmap string bool) :=
  let o := object members in
  if forallb (fun m => is_flag m.2) (map_to_list o) then Some (omap as_flag o) else None.

(** Modelled from the spec: the record of a value.  [None] is a value that
    is not a record (malformed persisted data): not an object, or one
    without a number [waterLevel], or without an object [milestones] of
    booleans.  The order of the members does not matter, and other members
    are not looked at. *)
Definition of_json (j : json) : option State :=
  match j with
  | JObject members =>
    let o := object members in
    level ← o !! "waterLevel"%string;
    record ← o !! "milestones"%string;
    match level, record with
    | JNumber d, JObject ms => mkState d <$> flags ms
    | _, _ => None
    end
  | _ => None
  end.

(** Modelled from the spec: the serialization of [{waterLevel, milestones}]
    that [save] of the absent Progress Manager performs, and the
    deserialization that [load] performs. *)
Definition stringify (st : State) : text := print (to_json st).

Definition parse_state (s : text) : option State := parse s ≫= of_json.

(** Modelled from the spec: the fixed key of the record, which the
    specification does not name. *)
Definition storageKey : string := "water-progress".

(** Modelled from the spec: [save(state)] of the absent Progress Manager
    serializes the state and writes it under the fixed key, replacing the
    whole record; a storage failure is caught and reported ([false]), the
    storage staying as it was. *)
Definition save (st : State) (storage : Storage) : bool * Storage :=
  match storage with
  | Unavailable => (false, Unavailable)
  | Available items => (true, Available (<[storageKey := stringify st]> items))
  end.

(** Modelled from the spec: [load()] of the absent Progress Manager reads
    and deserializes the record; it returns [null] ([None]) on a missing key,
    on corrupt JSON, on a value that is not a record and on unavailable
    storage. *)
Definition load (storage : Storage) : option State :=
  match storage with
  | Unavailable => None
  | Available items => items !! storageKey ≫= parse_state
  end.

End ProgressManager.

(** * The vocabulary of the properties *)

Section EngineVocabulary.

Context {num : Type} `{!JSNumber num}.

(** One collision's worth of water. *)
Definition bump (increment level : num) : num :=
  Math_min (lit 100) (add level increment).

(** The configuration of an engine: the fields no method assigns. *)
Definition same_config (e e' : Engine num) : Prop :=
  gravity e' = gravity e /\ dropletIncrement e' = dropletIncrement e /\
  maxDroplets e' = maxDroplets e /\ maxSplashEffects e' = maxSplashEffects e.

(** [e'] is [e] after some iterations of [update]: the configuration is
    kept, no droplet is added, every increment of the level is paid for by
    an unsplashed droplet, and the splash bound is kept. *)
Definition ticked (e e' : Engine num) : Prop :=
  same_config e e' /\
  length (droplets e') <= length (droplets e) /\
  (exists k : nat,
     waterLevel e' = Nat.iter k (bump (dropletIncrement e)) (waterLevel e) /\
     k + unsplashed (droplets e') <= unsplashed (droplets e)) /\
  (1 <= maxSplashEffects e ->
   length (splashEffects e) <= maxSplashEffects e ->
   length (splashEffects e') <= maxSplashEffects e).

(** What the splash loop leaves of one splash. *)
Definition splash_after (deltaTime : num) (splash : Splash.t num)
  : option (Splash.t num) :=
  let splash := age_splash deltaTime splash in
  if splash_gone splash then None else Some splash.

Definition option_list {A : Type} (o : option A) : list A :=
  match o with Some a => [a] | None => [] end.

(** The number of [addDroplet] calls of a sequence. *)
Fixpoint spawns (calls : list (Call num)) : nat :=
  match calls with
  | [] => 0
  | AddDroplet _ _ :: calls => S (spawns calls)
  | _ :: calls => spawns calls
  end.

Section Created.

Variable random : nat -> num.

(** The splashes [createSplash] pushes for a list of points, the first of
    them after [k] random draws. *)
Fixpoint created (k : nat) (points : list (num * num)) : list (Splash.t num) :=
  match points with
  | [] => []
  | (x, y) :: points => new_splash random k x y :: created (S (S k)) points
  end.

End Created.

Definition createSplashes (points : list (num * num)) : list (Call num) :=
  map (fun p => CreateSplash p.1 p.2) points.

(** The milestone after an evaluation at [level]. *)
Definition evaluated (level : num) (milestone : Milestone.t num) : Milestone.t num :=
  Milestone.mk (Milestone.threshold milestone)
    (Milestone.achieved milestone || (level >=? Milestone.threshold milestone)%js).

End EngineVocabulary.

(** A monitor whose rolling mean is [fps], as [testPerformanceScaling] sets it. *)
Definition monitor_at {num : Type} `{!JSNumber num} (fps : num) : FrameRateMonitor.t num :=
  FrameRateMonitor.mk 0 (lit 0) fps [] 60.

(** The scaler after adjustments at 2000, 4000 and 6000 ms, all at 15 fps. *)
Definition throttled {num : Type} `{!JSNumber num} : PerformanceScaler.t num :=
  let m := monitor_at (lit 15) in
  let s := (PerformanceScaler.adjustPerformance (lit 2000) m PerformanceScaler.constructor).2 in
  let s := (PerformanceScaler.adjustPerformance (lit 4000) m s).2 in
  (PerformanceScaler.adjustPerformance (lit 6000) m s).2.

(** The monitor after [update] calls at the clock readings [readings]. *)
Definition updates {num : Type} `{!JSNumber num} (readings : list num) (m : FrameRateMonitor.t num)
  : FrameRateMonitor.t num :=
  foldl (fun m now => FrameRateMonitor.update now m) m readings.


(** ** In binary64 arithmetic *)

Section Binary64Vocabulary.

Open Scope js_scope.

(** The water level after [n] collisions, from an empty ocean. *)
Definition level_after (n : nat) : float :=
  Nat.iter n (bump (lit 0.8)) (lit 0).

(** [table n l]: the levels [l], [bump l], ... reached by fewer than [n]
    collisions from level [l]. *)
Fixpoint table (n : nat) (l : float) : list float :=
  match n with
  | O => []
  | S n => l :: table n (bump (lit 0.8) l)
  end.

(** Every entry is below all later ones. *)
Fixpoint ascending (t : list float) : bool :=
  match t with
  | [] => true
  | a :: t' => forallb (fun b => a <=? b) t && ascending t'
  end.

Definition within (t : list float) : bool :=
  forallb (fun a => (lit 0 <=? a) && (a <=? lit 100)) t.

Section Collision.

Variable random : nat -> float.

(** One successful collision: a droplet spawned below the surface, and the
    frame (16.67 ms) in which it hits and leaves the canvas. *)
Definition collision (e : Engine float) : Engine float :=
  update random (lit 16.67) (addDroplet random (lit 0) (lit 1000) e).2.

End Collision.

(** A source of random numbers that always answers 0.5. *)
Definition half : nat -> float := fun _ => lit 0.5.

(** Twelve clicks at (100, 50) on a new engine. *)
Definition twelve_clicks : list (Call float) :=
  replicate 12 (AddDroplet (lit 100) (lit 50)).

(** Six splashes in a row on a new engine. *)
Definition six_points : list (float * float) :=
  [(lit 1, lit 400); (lit 2, lit 400); (lit 3, lit 400);
   (lit 4, lit 400); (lit 5, lit 400); (lit 6, lit 400)].

(** A click just below the surface of an empty ocean. *)
Definition one_click : list (Call float) := [AddDroplet (lit 0) (lit 420)].

(** A click just below the surface of an empty ocean, and a tick of 1 ms:
    the droplet has hit and is still falling. *)
Definition hit_and_falling : list (Call float) :=
  [AddDroplet (lit 0) (lit 420); Update (lit 1)].

End Binary64Vocabulary.

(** ** In exact arithmetic *)

Section ExactVocabulary.

Open Scope Q_scope.

(** The updates of a sequence of calls run forwards in time. *)
Definition forwards (c : Call Q) : Prop :=
  match c with
  | Update deltaTime => 0 <= deltaTime
  | _ => True
  end.

(** A splash that grows. *)
Definition grows (s : Splash.t Q) : Prop :=
  0 <= Splash.radius s /\ 0 <= Splash.expansionSpeed s.

(** A splash that outlives every tick of length at most [b]. *)
Definition lasting (b : Q) : Splash.t Q :=
  let life := Math_max 1 (b + 1) in
  Splash.mk 0 0 0 0 1 life life.

(** [Math.min(100, n * 0.8)], exactly. *)
Definition closed_form (n : nat) : Q :=
  Qmin 100 (inject_Z (Z.of_nat n) * 0.8).

(** The rational a finite binary64 value denotes. *)
Definition exact_value (f : float) : option Q :=
  match Prim2SF f with
  | S754_zero _ => Some 0
  | S754_finite s m e =>
    Some ((if s then -1 else 1) * inject_Z (Z.pos m) * Qpower 2 e)
  | _ => None
  end.

(** The binary64 level after [n] collisions is within 0.01 of the closed form. *)
Definition within_tolerance (n : nat) : bool :=
  match exact_value (level_after n) with
  | Some q => ltb (Qabs (q - closed_form n)) 0.01
  | None => false
  end.

(** A source of random numbers that always answers 0.5, and one splash. *)
Definition exact_half : nat -> Q := fun _ => 0.5.

Definition one_splash : list (Call Q) := [CreateSplash 100 200].

End ExactVocabulary.

(** ** Object pools *)

Section PoolVocabulary.

Context {A : Type}.

Variable createFn : nat -> A.

(** No object is held twice, pooled or active, and every object held came
    from one of the calls of [createFn] made so far. *)
Definition well_formed (p : ObjectPool.t A) : Prop :=
  NoDup (ObjectPool.pool p ++ ObjectPool.active p) /\
  forall o : A, o ∈ ObjectPool.pool p ++ ObjectPool.active p ->
    exists i : nat, i < ObjectPool.created p /\ o = createFn i.

End PoolVocabulary.

(** The size of a pool built with [initialSize] objects, after [n] rounds
    of [acquire] and [release]. *)
Definition pool_size_after (initialSize n : nat) : nat :=
  if decide (initialSize = 0) then n `min` 1
  else (initialSize `min` 50) `max` (initialSize - n).

(** Objects numbered in the order of their creation. *)
Definition numbered : nat -> nat := fun k => k.

(** ** The droplet loop as a pass over a list *)

Section SweepVocabulary.

Context {num : Type} `{!JSNumber num}.

Variable random : nat -> num.

Open Scope js_scope.

(** What one iteration of the droplet loop makes of a droplet: the engine
    after it, and the droplet if it stays. *)
Definition droplet_after (deltaTime : num) (e : Engine num) (d : Droplet.t num)
  : Engine num * option (Droplet.t num) :=
  let moved := move_droplet deltaTime e d in
  let hit := collides e moved in
  let d' := if hit then set_splashed moved else moved in
  (if hit
   then createSplash random (Droplet.x d') (waterSurfaceY e) (set_waterLevel (raise_level e) e)
   else e,
   if droplet_gone d' then None else Some (age_droplet deltaTime d')).

(** One pass over a list of droplets, from the last to the first: the engine
    after it, and the droplets that stay, in their order. *)
Fixpoint sweep (deltaTime : num) (ds : list (Droplet.t num)) (e : Engine num)
  : Engine num * list (Droplet.t num) :=
  match ds with
  | [] => (e, [])
  | d :: ds =>
    let later := sweep deltaTime ds e in
    let this := droplet_after deltaTime later.1 d in
    (this.1, option_list this.2 ++ later.2)
  end.

(** [d'] is the droplet [d] after a tick of [deltaTime] under [gravity]
    that did not remove it. *)
Definition survived (deltaTime gravity : num) (d d' : Droplet.t num) : Prop :=
  Droplet.velocityY d' = Droplet.velocityY d + gravity * deltaTime /\
  Droplet.x d' = Droplet.x d + Droplet.velocityX d * deltaTime /\
  Droplet.y d' = Droplet.y d + Droplet.velocityY d' * deltaTime /\
  Droplet.velocityX d' = Droplet.velocityX d /\
  Droplet.size d' = Droplet.size d /\
  Droplet.life d' = Droplet.life d - deltaTime * lit 0.001 /\
  (Droplet.splashed d = true -> Droplet.splashed d' = true) /\
  (Droplet.y d' >? lit 450) = false /\
  (Droplet.life d <=? lit 0) = false.

(** Clicks at a list of points, one after the other. *)
Definition addDroplets (points : list (num * num)) : list (Call num) :=
  map (fun p => AddDroplet p.1 p.2) points.

(** Where a droplet is. *)
Definition position (d : Droplet.t num) : num * num := (Droplet.x d, Droplet.y d).

(** The scaler after calls of [adjustPerformance], each with the clock
    reading and the monitor of the call. *)
Definition adjustments (calls : list (num * FrameRateMonitor.t num))
    (s : PerformanceScaler.t num) : PerformanceScaler.t num :=
  foldl (fun s c => (PerformanceScaler.adjustPerformance c.1 c.2 s).2) s calls.

End SweepVocabulary.

(** [results.some(r => r.adjustedLevel !== r.initialLevel)], on exact numbers. *)
Definition hasScaling (results : list (Q * Q * Q)) : bool :=
  existsb (fun r => negb (Qeq_bool r.1.2 r.1.1)) results.

(** ** The tally of test results *)

(** How often a status occurs among the results. *)
Definition occurrences (status : string) (results : list string) : nat :=
  length (filter (fun s => s = status) results).

(** The statuses the [switch] of [updateOverallResults] has a case for. *)
Definition counted : list string := ["pass"; "fail"; "warning"; "error"]%string.

Definition tally (o : OverallResults.t) : nat :=
  OverallResults.passed o + OverallResults.failed o +
  OverallResults.warnings o + OverallResults.errors o.

(** ** Rectangles *)

(** A rectangle with its sides in order, and a point of it (sides included). *)
Definition well_sided (r : Rect.t Q) : Prop :=
  (Rect.left r <= Rect.right r)%Q /\ (Rect.top r <= Rect.bottom r)%Q.

Definition inside (r : Rect.t Q) (x y : Q) : Prop :=
  (Rect.left r <= x <= Rect.right r)%Q /\ (Rect.top r <= y <= Rect.bottom r)%Q.

(** ** Droplets under the surface, and calls of the scaler *)

(** A droplet at or below the lowest surface (y = 400) that has not hit yet
    and does not rise. *)
Definition sinking (d : Droplet.t Q) : Prop :=
  Droplet.splashed d = false /\ (400 <= Droplet.y d)%Q /\ (0 <= Droplet.velocityY d)%Q.

(** Calls of [adjustPerformance] none of which falls into the cooldown of
    the adjustment before it, [last] being the clock reading of the last
    adjustment before them. *)
Fixpoint spaced (cooldown last : Q) (calls : list (Q * FrameRateMonitor.t Q)) : Prop :=
  match calls with
  | [] => True
  | (now, _) :: calls => (cooldown <= now - last)%Q /\ spaced cooldown now calls
  end.

(** The frame rate a call reads. *)
Definition reads (c : Q * FrameRateMonitor.t Q) : Q := FrameRateMonitor.getCurrentFps c.2.

(** ** The surface, in binary64 arithmetic *)

(** The surfaces of a list of levels are within [100, 400], and every one
    is at or above (at a y not larger than) those before it. *)
Definition surfaces_within (t : list float) : bool :=
  forallb (fun l => let y := waterSurfaceY (set_waterLevel l constructor) in
                    (leb (lit 100) y) && (leb y (lit 400))) t.

Fixpoint surfaces_rise (t : list float) : bool :=
  match t with
  | [] => true
  | a :: t' =>
    forallb (fun b => leb (waterSurfaceY (set_waterLevel b constructor))
                          (waterSurfaceY (set_waterLevel a constructor))) t
    && surfaces_rise t'
  end.

(** ** Progress persistence *)

Section PersistenceVocabulary.

Import ProgressManager.

(** What may follow a number: not a character that continues it. *)
Definition closes (s : text) : Prop :=
  match s with
  | [] => True
  | c :: _ => char_digit c = None /\ c <> "."%char /\ c <> "e"%char /\ c <> "E"%char
  end.

(** The first character of a written value: not a space, and not one that
    closes an array or an object. *)
Definition opens (c : ascii) : Prop :=
  whitespace c = false /\ c <> "]"%char /\ c <> "}"%char.

(** [read] reads the value [j] back, whatever closes it. *)
Definition reads_back (read : text -> option (json * text)) (j : json) : Prop :=
  forall s : text, closes s -> read (print j ++ s) = Some (j, s).

(** A member of an object as it is written: the name, a colon, the value. *)
Definition print_member (m : string * json) : text :=
  print_string m.1 ++ ":"%char :: print m.2.

(** The characters of a number. *)
Definition number_char (c : ascii) : bool :=
  match char_digit c with
  | Some _ => true
  | None => (c =? ".")%char || (c =? "e")%char || (c =? "E")%char ||
            (c =? "+")%char || (c =? "-")%char
  end.

(** [read] reads the written value [j], if anything. *)
Definition back_or_none (read : text -> option (json * text)) (j : json) : Prop :=
  forall s : text, closes s -> read (print j ++ s) = None \/ read (print j ++ s) = Some (j, s).

(** Nothing was read, or a number up to characters of a number. *)
Definition halted (o : option (json * text)) : Prop :=
  match o with
  | None => True
  | Some (_, r) => Forall (fun c => number_char c = true) r
  end.

(** What [read] makes of the written value [j] cut short. *)
Definition cut_short (read : text -> option (json * text)) (j : json) : Prop :=
  forall s t : text,
    print j = s ++ t -> t <> [] ->
    halted (read s) /\ ((forall d, j <> JNumber d) -> read s = None).

(** The record of the specification's example,
    [{ waterLevel: 42, milestones: { fish: true, waves: false, completion: false } }],
    and the record of [testDataIntegrity]. *)
Definition spec_record : State :=
  mkState (Signed false (More n4 [] n2) 0)
          {[ "fish"%string := true; "waves"%string := false;
             "completion"%string := false ]}.

(** [{ waterLevel: 75.5, milestones: { fish: true, waves: false } }] *)
Definition test_record : State :=
  mkState (Signed false (More n7 [nz n5] n5) (-1))
          {[ "fish"%string := true; "waves"%string := false ]}.

(** The increment of the water level, 0.8. *)
Definition increment : Dec := Signed false (One n8) (-1).

(** A record with a name that needs escapes: [a], a quote, a backslash, a
    new line, the control character of code 1, and [b]. *)
Definition escaped_record : State :=
  mkState increment
          {[ String "a" (String quote (String backslash
               (String "010" (String "001" "b")))) := true ]}.

(** A name between quotes. *)
Definition quoted (s : string) : text := quote :: chars s ++ [quote].

(** The text that [JSON.stringify(testData)] writes in [testDataIntegrity],
    and the same with spaces, new lines and the members in another order. *)
Definition test_text : text :=
  chars "{" ++ quoted "waterLevel" ++ chars ":75.5," ++ quoted "milestones" ++
  chars ":{" ++ quoted "fish" ++ chars ":true," ++ quoted "waves" ++ chars ":false}}".

Definition spaced_text : text :=
  chars "{ " ++ quoted "milestones" ++ chars " : {" ++ ["010"%char] ++ quoted "waves" ++
  chars " : false , " ++ quoted "fish" ++ chars ": true } ," ++ ["009"%char] ++
  quoted "waterLevel" ++ chars " : 7.55e1 } ".

(** Texts that are not JSON: a number with a leading zero, a name in single
    quotes, a comma before the brace, and nothing. *)
Definition corrupt_texts : list text :=
  [chars "{" ++ quoted "waterLevel" ++ chars ":042," ++ quoted "milestones" ++ chars ":{}}";
   chars "{'waterLevel':42,'milestones':{}}";
   chars "{" ++ quoted "waterLevel" ++ chars ":42," ++ quoted "milestones" ++ chars ":{},}";
   chars "not json";
   []].

(** Texts that are JSON but not a record: a number, an object without
    [milestones], a flag that is not a boolean, a level that is a string. *)
Definition malformed_texts : list text :=
  [chars "42";
   chars "{" ++ quoted "waterLevel" ++ chars ":42}";
   chars "{" ++ quoted "waterLevel" ++ chars ":42," ++ quoted "milestones" ++ chars ":{" ++
     quoted "fish" ++ chars ":1}}";
   chars "{" ++ quoted "waterLevel" ++ chars ":" ++ quoted "42" ++ chars "," ++
     quoted "milestones" ++ chars ":{}}"].

End PersistenceVocabulary.

(** ** Signs, in binary64 arithmetic *)

(** A binary64 value that does not compare below 0 (a NaN does not), and one
    that compares above 0. *)
Definition not_negative (x : float) : Prop := ltb x (lit 0) = false.

Definition above_zero (x : float) : Prop := ltb (lit 0) x = true.

(** The same of the specification's view of a value: the sign bit of an
    infinity or of a finite value that is not zero is clear. *)
Definition sf_not_negative (x : spec_float) : bool :=
  match x with
  | S754_infinity s | S754_finite s _ _ => negb s
  | _ => true
  end.

(** A value whose sign bit is [s], or NaN. *)
Definition sf_sign (s : bool) (x : spec_float) : bool :=
  match x with
  | S754_zero s' | S754_infinity s' | S754_finite s' _ _ => bool_decide (s' = s)
  | S754_nan => true
  end.

(** A binary64 value whose sign bit is clear, or NaN. *)
Definition sign_clear (x : float) : Prop := sf_sign false (Prim2SF x) = true.

(** The updates of a sequence of calls do not run backwards. *)
Definition not_backwards (c : Call float) : Prop :=
  match c with
  | Update deltaTime => not_negative deltaTime
  | _ => True
  end.

(** A splash whose radius and speed are not negative. *)
Definition expanding (s : Splash.t float) : Prop :=
  not_negative (Splash.radius s) /\ not_negative (Splash.expansionSpeed s).

(** A monitor whose samples and rolling mean are not negative. *)
Definition sound (m : FrameRateMonitor.t float) : Prop :=
  Forall not_negative (FrameRateMonitor.fpsHistory m) /\
  not_negative (FrameRateMonitor.fps m).

(** Three frames of 33 ms on a new monitor. *)
Definition three_frames : FrameRateMonitor.t float :=
  updates [lit 33; lit 66; lit 99] (FrameRateMonitor.constructor (lit 0)).

(** ** The life of a droplet, in binary64 arithmetic *)

(** The life of a droplet after [k] ticks of 16.67 ms. *)
Definition life_after (k : nat) : float :=
  Nat.iter k (fun life => sub life (mul (lit 16.67) (lit 0.001))) (lit 1.0).

(** The updates of a sequence of calls are the frames of 16.67 ms that
    every caller in the test suite passes. *)
Definition steady (c : Call float) : Prop :=
  match c with
  | Update deltaTime => deltaTime = lit 16.67
  | _ => True
  end.

(** A droplet that has lived through at least [n] and at most 60 frames. *)
Definition aged (n : nat) (d : Droplet.t float) : Prop :=
  exists k : nat, n <= k <= 60 /\ Droplet.life d = life_after k.

(** A click far above the canvas on a new engine: its droplet does not
    leave the canvas within twelve ticks of 100 ms. *)
Definition high_click : Engine float :=
  (addDroplet half (lit 0) (lit (-1000000)) constructor).2.

(** * Properties *)

(** ** The engine, at any number instance *)

Section EngineFacts.

Context {num : Type} `{!JSNumber num}.

Variable random : nat -> num.

Lemma raise_level_bump (e : Engine num) :
  raise_level e = bump (dropletIncrement e) (waterLevel e).
Proof. reflexivity. Qed.

Lemma same_config_refl (e : Engine num) : same_config e e.
Proof. by repeat split. Qed.

Lemma same_config_trans (e1 e2 e3 : Engine num) :
  same_config e1 e2 -> same_config e2 e3 -> same_config e1 e3.
Proof.
  intros (?&?&?&?) (?&?&?&?). repeat split; congruence.
Qed.

Lemma createSplash_splashEffects (x y : num) (e : Engine num) :
  splashEffects (createSplash random x y e) =
  (if decide (maxSplashEffects e <= length (splashEffects e))
   then shift (splashEffects e) else splashEffects e)
  ++ [new_splash random (randomCalls e) x y].
Proof. unfold createSplash. by case_decide. Qed.

Lemma createSplash_frame (x y : num) (e : Engine num) :
  waterLevel (createSplash random x y e) = waterLevel e /\
  droplets (createSplash random x y e) = droplets e /\
  same_config e (createSplash random x y e).
Proof. unfold createSplash. by case_decide. Qed.

Lemma createSplash_length (x y : num) (e : Engine num) :
  1 <= maxSplashEffects e ->
  length (splashEffects e) <= maxSplashEffects e ->
  length (splashEffects (createSplash random x y e)) <= maxSplashEffects e.
Proof.
  intros Hcap Hlen. rewrite createSplash_splashEffects.
  case_decide; rewrite length_app; simpl; unfold shift; rewrite ?length_drop; lia.
Qed.

Lemma addDroplet_frame (x y : num) (e : Engine num) :
  waterLevel (addDroplet random x y e).2 = waterLevel e /\
  splashEffects (addDroplet random x y e).2 = splashEffects e /\
  same_config e (addDroplet random x y e).2.
Proof. unfold addDroplet. by case_decide. Qed.

Lemma addDroplet_length (x y : num) (e : Engine num) :
  length (droplets e) <= maxDroplets e ->
  length (droplets (addDroplet random x y e).2) <= maxDroplets e.
Proof.
  intros Hlen. unfold addDroplet. case_decide; simpl; [done|].
  rewrite length_app. simpl. lia.
Qed.

(** *** One iteration of the droplet loop *)

Lemma update_droplet_spec (deltaTime : num) (i : nat) (e : Engine num) (d : Droplet.t num) :
  droplets e !! i = Some d ->
  let moved := move_droplet deltaTime e d in
  let hit := collides e moved in
  let d' := if hit then set_splashed moved else moved in
  let e' := update_droplet random deltaTime i e in
  waterLevel e' = (if hit then raise_level e else waterLevel e) /\
  droplets e' = (if droplet_gone d' then delete i (droplets e)
                 else <[i := age_droplet deltaTime d']> (droplets e)) /\
  splashEffects e' =
    (if hit then splashEffects (createSplash random (Droplet.x moved) (waterSurfaceY e) e)
     else splashEffects e) /\
  same_config e e'.
Proof.
  intros Hd. simpl. unfold update_droplet. rewrite Hd.
  destruct (collides e (move_droplet deltaTime e d)) eqn:Hhit;
    destruct (droplet_gone _) eqn:Hgone; simpl;
    rewrite ?createSplash_splashEffects; simpl;
    unfold createSplash; simpl; repeat case_decide; try lia; done.
Qed.

Lemma update_droplet_out_of_range (deltaTime : num) (i : nat) (e : Engine num) :
  droplets e !! i = None -> update_droplet random deltaTime i e = e.
Proof. intros Hd. unfold update_droplet. by rewrite Hd. Qed.

Lemma unsplashed_app (l1 l2 : list (Droplet.t num)) :
  unsplashed (l1 ++ l2) = unsplashed l1 + unsplashed l2.
Proof. unfold unsplashed. by rewrite filter_app, length_app. Qed.

Lemma unsplashed_cons (d : Droplet.t num) (l : list (Droplet.t num)) :
  unsplashed (d :: l) = (if Droplet.splashed d then 0 else 1) + unsplashed l.
Proof.
  unfold unsplashed. rewrite filter_cons.
  destruct (Droplet.splashed d); case_decide; simpl; congruence.
Qed.

Lemma unsplashed_delete (i : nat) (l : list (Droplet.t num)) (d : Droplet.t num) :
  l !! i = Some d ->
  unsplashed (delete i l) + (if Droplet.splashed d then 0 else 1) = unsplashed l.
Proof.
  intros Hd. rewrite <- (take_drop_middle l i d Hd) at 2.
  rewrite delete_take_drop, !unsplashed_app, unsplashed_cons. lia.
Qed.

Lemma unsplashed_insert (i : nat) (l : list (Droplet.t num)) (d d' : Droplet.t num) :
  l !! i = Some d ->
  unsplashed (<[i := d']> l) + (if Droplet.splashed d then 0 else 1) =
  unsplashed l + (if Droplet.splashed d' then 0 else 1).
Proof.
  intros Hd. rewrite <- (take_drop_middle l i d Hd) at 2.
  rewrite insert_take_drop by (by eapply lookup_lt_Some).
  rewrite !unsplashed_app, !unsplashed_cons. lia.
Qed.

Lemma collides_unsplashed (deltaTime : num) (e : Engine num) (d : Droplet.t num) :
  collides e (move_droplet deltaTime e d) = true -> Droplet.splashed d = false.
Proof.
  unfold collides. simpl. intros [_ H]%andb_true_iff. by destruct (Droplet.splashed d).
Qed.

(** A droplet that raises the level is unsplashed before the iteration and
    gone or splashed after it: the count of unsplashed droplets pays for
    every increment. *)
Lemma update_droplet_pays (deltaTime : num) (i : nat) (e : Engine num) :
  let e' := update_droplet random deltaTime i e in
  exists k : nat,
    waterLevel e' = Nat.iter k (bump (dropletIncrement e)) (waterLevel e) /\
    k + unsplashed (droplets e') <= unsplashed (droplets e).
Proof.
  simpl. destruct (droplets e !! i) as [d|] eqn:Hd.
  - destruct (update_droplet_spec deltaTime i e d Hd) as (Hl & Hds & _ & _).
    simpl in *. rewrite Hl, Hds.
    destruct (collides e (move_droplet deltaTime e d)) eqn:Hhit.
    + exists 1. split; [done|].
      pose proof (collides_unsplashed _ _ _ Hhit) as Hu.
      destruct (droplet_gone _).
      * pose proof (unsplashed_delete i _ d Hd) as H. rewrite Hu in H. lia.
      * pose proof (unsplashed_insert i _ d
          (age_droplet deltaTime (set_splashed (move_droplet deltaTime e d))) Hd) as H.
        rewrite Hu in H. simpl in H. lia.
    + exists 0. split; [done|].
      destruct (droplet_gone _).
      * pose proof (unsplashed_delete i _ d Hd) as H. lia.
      * pose proof (unsplashed_insert i _ d
          (age_droplet deltaTime (move_droplet deltaTime e d)) Hd) as H.
        simpl in H. lia.
  - rewrite update_droplet_out_of_range by done. exists 0. split; [done|lia].
Qed.

Lemma update_droplet_config (deltaTime : num) (i : nat) (e : Engine num) :
  same_config e (update_droplet random deltaTime i e).
Proof.
  destruct (droplets e !! i) as [d|] eqn:Hd.
  - by destruct (update_droplet_spec deltaTime i e d Hd) as (_ & _ & _ & ?).
  - rewrite update_droplet_out_of_range by done. apply same_config_refl.
Qed.

Lemma update_droplet_length (deltaTime : num) (i : nat) (e : Engine num) :
  length (droplets (update_droplet random deltaTime i e)) <= length (droplets e).
Proof.
  destruct (droplets e !! i) as [d|] eqn:Hd.
  - destruct (update_droplet_spec deltaTime i e d Hd) as (_ & Hds & _ & _).
    simpl in Hds. rewrite Hds.
    destruct (droplet_gone _); [|by rewrite length_insert].
    rewrite length_delete by eauto. lia.
  - by rewrite update_droplet_out_of_range.
Qed.

Lemma update_droplet_splash_count (deltaTime : num) (i : nat) (e : Engine num) :
  1 <= maxSplashEffects e ->
  length (splashEffects e) <= maxSplashEffects e ->
  length (splashEffects (update_droplet random deltaTime i e)) <= maxSplashEffects e.
Proof.
  intros Hcap Hlen. destruct (droplets e !! i) as [d|] eqn:Hd.
  - destruct (update_droplet_spec deltaTime i e d Hd) as (_ & _ & Hs & _).
    simpl in Hs. rewrite Hs. destruct (collides _ _); [|done].
    by apply createSplash_length.
  - by rewrite update_droplet_out_of_range.
Qed.

Lemma update_droplet_splashed (deltaTime : num) (i : nat) (e : Engine num)
    (d : Droplet.t num) :
  droplets e !! i = Some d -> Droplet.splashed d = true ->
  waterLevel (update_droplet random deltaTime i e) = waterLevel e.
Proof.
  intros Hd Hs. destruct (update_droplet_spec deltaTime i e d Hd) as (Hl & _).
  simpl in Hl. rewrite Hl. unfold collides. simpl. rewrite Hs.
  by rewrite andb_false_r.
Qed.

Lemma update_droplet_level (deltaTime : num) (i : nat) (e : Engine num) :
  waterLevel (update_droplet random deltaTime i e) = waterLevel e \/
  waterLevel (update_droplet random deltaTime i e) = raise_level e.
Proof.
  destruct (droplets e !! i) as [d|] eqn:Hd.
  - destruct (update_droplet_spec deltaTime i e d Hd) as (Hl & _).
    simpl in Hl. rewrite Hl. destruct (collides _ _); auto.
  - rewrite update_droplet_out_of_range by done. auto.
Qed.

(** *** What a tick may do to an engine *)

Lemma ticked_refl (e : Engine num) : ticked e e.
Proof.
  split; [apply same_config_refl|]. split; [done|]. split; [|done].
  exists 0. split; [done|lia].
Qed.

Lemma ticked_trans (e1 e2 e3 : Engine num) :
  ticked e1 e2 -> ticked e2 e3 -> ticked e1 e3.
Proof.
  intros (Hc1 & Hl1 & (k1 & Hk1 & Hu1) & Hs1) (Hc2 & Hl2 & (k2 & Hk2 & Hu2) & Hs2).
  split; [by eapply same_config_trans|]. split; [lia|]. split.
  - exists (k2 + k1). split; [|lia].
    destruct Hc1 as (_ & Hinc & _ & _).
    rewrite Hk2, Hk1, Hinc. symmetry. apply Nat.iter_add.
  - intros Hcap Hlen. destruct Hc1 as (_ & _ & _ & Hcap1).
    rewrite Hcap1 in Hs2. auto.
Qed.

Lemma update_droplet_ticked (deltaTime : num) (i : nat) (e : Engine num) :
  ticked e (update_droplet random deltaTime i e).
Proof.
  split; [apply update_droplet_config|].
  split; [apply update_droplet_length|].
  split; [apply update_droplet_pays|].
  apply update_droplet_splash_count.
Qed.

Lemma update_droplets_ticked (deltaTime : num) (n : nat) (e : Engine num) :
  ticked e (update_droplets random deltaTime n e).
Proof.
  revert e. induction n as [|i IH]; intros e; simpl.
  - apply ticked_refl.
  - eapply ticked_trans; [apply update_droplet_ticked|apply IH].
Qed.

(** *** The splash loop *)

Lemma update_splash_out_of_range (deltaTime : num) (i : nat) (e : Engine num) :
  splashEffects e !! i = None -> update_splash deltaTime i e = e.
Proof. intros Hs. unfold update_splash. by rewrite Hs. Qed.

Lemma update_splash_spec (deltaTime : num) (i : nat) (e : Engine num) (s : Splash.t num) :
  splashEffects e !! i = Some s ->
  update_splash deltaTime i e =
  set_splashEffects
    (take i (splashEffects e) ++ option_list (splash_after deltaTime s)
       ++ drop (S i) (splashEffects e)) e.
Proof.
  intros Hs. unfold update_splash, splash_after. rewrite Hs. simpl.
  destruct (splash_gone _); simpl.
  - by rewrite delete_take_drop.
  - rewrite insert_take_drop; [done|by eapply lookup_lt_Some].
Qed.

Lemma omap_option_list {A B : Type} (f : A -> option B) (a : A) :
  omap f [a] = option_list (f a).
Proof. simpl. by destruct (f a). Qed.

(** The loop from index [n - 1] down to 0 ages the first [n] splashes, drops
    the dead ones and keeps the order. *)
Lemma update_splashes_prefix (deltaTime : num) (n : nat) (e : Engine num) :
  n <= length (splashEffects e) ->
  update_splashes deltaTime n e =
  set_splashEffects
    (omap (splash_after deltaTime) (take n (splashEffects e))
       ++ drop n (splashEffects e)) e.
Proof.
  revert e. induction n as [|i IH]; intros e Hn; simpl.
  - rewrite drop_0. by destruct e.
  - destruct (lookup_lt_is_Some_2 (splashEffects e) i) as [s Hs]; [lia|].
    rewrite (update_splash_spec _ _ _ _ Hs).
    rewrite IH; simpl.
    + unfold set_splashEffects; simpl. f_equal.
      assert (length (take i (splashEffects e)) = i) as Hlen
        by (rewrite length_take; lia).
      rewrite take_app_length', drop_app_length' by done.
      rewrite (take_S_r _ _ _ Hs), omap_app, omap_option_list.
      by rewrite <- app_assoc.
    + rewrite length_app, length_take. lia.
Qed.

Lemma update_splashes_spec (deltaTime : num) (e : Engine num) :
  update_splashes deltaTime (length (splashEffects e)) e =
  set_splashEffects (omap (splash_after deltaTime) (splashEffects e)) e.
Proof.
  rewrite update_splashes_prefix by done.
  by rewrite firstn_all, drop_all, app_nil_r.
Qed.

Lemma length_omap_le {A B : Type} (f : A -> option B) (l : list A) :
  length (omap f l) <= length l.
Proof. induction l as [|a l IH]; csimpl; [done|]. destruct (f a); csimpl; lia. Qed.

Lemma update_splashes_ticked (deltaTime : num) (e : Engine num) :
  ticked e (update_splashes deltaTime (length (splashEffects e)) e).
Proof.
  rewrite update_splashes_spec.
  split; [by repeat split|]. split; [done|]. split.
  - exists 0. split; [done|simpl; lia].
  - intros _ Hlen. simpl.
    pose proof (length_omap_le (splash_after deltaTime) (splashEffects e)). lia.
Qed.

Lemma update_ticked (deltaTime : num) (e : Engine num) :
  ticked e (update random deltaTime e).
Proof.
  unfold update.
  eapply ticked_trans; [apply update_droplets_ticked|apply update_splashes_ticked].
Qed.

Lemma update_splashEffects (deltaTime : num) (e : Engine num) :
  splashEffects (update random deltaTime e) =
  omap (splash_after deltaTime)
       (splashEffects (update_droplets random deltaTime (length (droplets e)) e)).
Proof. unfold update. by rewrite update_splashes_spec. Qed.

(** *** Sequences of calls *)

Lemma run_snoc (calls : list (Call num)) (c : Call num) (e : Engine num) :
  run random (calls ++ [c]) e = call random (run random calls e) c.
Proof. unfold run. by rewrite foldl_app. Qed.

Lemma run_app (calls more : list (Call num)) (e : Engine num) :
  run random (calls ++ more) e = run random more (run random calls e).
Proof. unfold run. by rewrite foldl_app. Qed.

Lemma spawns_app (calls more : list (Call num)) :
  spawns (calls ++ more) = spawns calls + spawns more.
Proof.
  induction calls as [|[] calls IH]; simpl; [done|by rewrite IH..].
Qed.

Lemma addDroplet_unsplashed (x y : num) (e : Engine num) :
  unsplashed (droplets (addDroplet random x y e).2) <= S (unsplashed (droplets e)).
Proof.
  unfold addDroplet. case_decide; simpl; [lia|].
  rewrite unsplashed_app, unsplashed_cons. simpl. unfold unsplashed. simpl. lia.
Qed.

(** What any one call keeps: the configuration, both bounds, and the
    account of level increments against droplets. *)
Lemma call_keeps (c : Call num) (e : Engine num) :
  let e' := call random e c in
  same_config e e' /\
  (length (droplets e) <= maxDroplets e -> length (droplets e') <= maxDroplets e) /\
  (1 <= maxSplashEffects e -> length (splashEffects e) <= maxSplashEffects e ->
   length (splashEffects e') <= maxSplashEffects e) /\
  (exists k : nat,
     waterLevel e' = Nat.iter k (bump (dropletIncrement e)) (waterLevel e) /\
     k + unsplashed (droplets e') <= unsplashed (droplets e) + spawns [c]).
Proof.
  destruct c as [x y|deltaTime|x y]; cbn [call spawns]; cbv zeta.
  - destruct (addDroplet_frame x y e) as (Hl & Hs & Hc).
    split; [done|]. split; [apply addDroplet_length|]. split; [by rewrite Hs|].
    exists 0. split; [done|].
    pose proof (addDroplet_unsplashed x y e). lia.
  - destruct (update_ticked deltaTime e) as (Hc & Hl & (k & Hk & Hu) & Hs).
    split; [done|]. split; [lia|]. split; [done|].
    exists k. split; [done|lia].
  - destruct (createSplash_frame x y e) as (Hl & Hd & Hc).
    split; [done|]. split; [by rewrite Hd|]. split; [apply createSplash_length|].
    exists 0. rewrite Hd. split; [done|lia].
Qed.

Lemma run_keeps (calls : list (Call num)) (e : Engine num) :
  let e' := run random calls e in
  same_config e e' /\
  (length (droplets e) <= maxDroplets e -> length (droplets e') <= maxDroplets e) /\
  (1 <= maxSplashEffects e -> length (splashEffects e) <= maxSplashEffects e ->
   length (splashEffects e') <= maxSplashEffects e) /\
  (exists k : nat,
     waterLevel e' = Nat.iter k (bump (dropletIncrement e)) (waterLevel e) /\
     k + unsplashed (droplets e') <= unsplashed (droplets e) + spawns calls).
Proof.
  induction calls as [|c calls IH] using rev_ind; simpl.
  - split; [apply same_config_refl|]. do 2 (split; [done|]).
    exists 0. split; [done|]. lia.
  - rewrite run_snoc.
    destruct IH as (Hc & Hd & Hs & (k & Hk & Hu)).
    destruct (call_keeps c (run random calls e)) as (Hc' & Hd' & Hs' & (k' & Hk' & Hu')).
    pose proof Hc as (_ & Hinc & Hmd & Hms).
    rewrite Hinc, Hmd, Hms in *.
    split; [by eapply same_config_trans|].
    split; [auto|]. split; [auto|].
    exists (k' + k). rewrite spawns_app. split; [|lia].
    rewrite Hk', Hk. symmetry. apply Nat.iter_add.
Qed.

(** *** Splashes created in a row *)

Lemma length_created (k : nat) (points : list (num * num)) :
  length (created random k points) = length points.
Proof.
  revert k. induction points as [|[x y] points IH]; intros k; simpl; [done|].
  by rewrite IH.
Qed.

Lemma createSplash_randomCalls (x y : num) (e : Engine num) :
  randomCalls (createSplash random x y e) = S (S (randomCalls e)).
Proof. unfold createSplash. by case_decide. Qed.

(** A bounded queue: what survives is the tail of everything pushed. *)
Lemma createSplashes_survivors (points : list (num * num)) (e : Engine num) :
  1 <= maxSplashEffects e ->
  length (splashEffects e) <= maxSplashEffects e ->
  splashEffects (run random (createSplashes points) e) =
  drop (length (splashEffects e) + length points - maxSplashEffects e)
       (splashEffects e ++ created random (randomCalls e) points).
Proof.
  revert e. induction points as [|[x y] points IH]; intros e Hcap Hlen; simpl.
  - rewrite app_nil_r. replace (_ - _) with 0 by lia. done.
  - destruct (createSplash_frame x y e) as (_ & _ & (_ & _ & _ & Hms)).
    pose proof (createSplash_length x y e Hcap Hlen) as Hlen'.
    rewrite IH by (rewrite ?Hms; done).
    rewrite Hms, createSplash_randomCalls, createSplash_splashEffects.
    case_decide as Hfull.
    + destruct (splashEffects e) as [|s old] eqn:Hold; simpl in *; [lia|].
      unfold shift. simpl. rewrite drop_0, length_app. simpl.
      rewrite <- app_assoc. simpl.
      replace (length old + 1 + length points - maxSplashEffects e)
        with (length points) by lia.
      replace (S (length old + S (length points)) - maxSplashEffects e)
        with (S (length points)) by lia.
      done.
    + rewrite length_app. simpl. rewrite <- app_assoc. simpl.
      f_equal. lia.
Qed.

End EngineFacts.

(** ** Bounds on droplets and splashes, at every number instance *)

Section EngineBounds.

Context {num : Type} `{!JSNumber num}.

Variable random : nat -> num.

(** C3. However [addDroplet], [update] and [createSplash] calls follow each
    other, the number of active droplets stays within [maxDroplets].
    [addDroplet(x, y)] at or above the cap returns [false] and leaves the
    engine as it was; below the cap it returns [true] and appends exactly
    one droplet, at [(x, y)], with vertical velocity 0, horizontal velocity
    [(Math.random() - 0.5) * 2], life 1.0 and [splashed = false], and
    touches neither the water level, the splashes nor the configuration. *)
Theorem addDroplet_respects_cap (e0 : Engine num) (calls : list (Call num)) (x y : num) :
  length (droplets e0) <= maxDroplets e0 ->
  let e := run random calls e0 in
  length (droplets e) <= maxDroplets e /\
  maxDroplets e = maxDroplets e0 /\
  (maxDroplets e <= length (droplets e) -> addDroplet random x y e = (false, e)) /\
  (length (droplets e) < maxDroplets e ->
   exists (e' : Engine num) (d : Droplet.t num),
     addDroplet random x y e = (true, e') /\
     droplets e' = droplets e ++ [d] /\
     Droplet.x d = x /\ Droplet.y d = y /\
     Droplet.velocityY d = lit 0 /\
     Droplet.velocityX d = mul (sub (random (randomCalls e)) (lit 0.5)) (lit 2) /\
     Droplet.life d = lit 1.0 /\
     Droplet.splashed d = false /\
     waterLevel e' = waterLevel e /\
     splashEffects e' = splashEffects e /\
     same_config e e').
Proof.
  intros Hlen e.
  destruct (run_keeps random calls e0) as ((_ & _ & Hmd & _) & Hd & _ & _).
  fold e in Hmd, Hd. split; [rewrite Hmd; auto|]. split; [done|]. split.
  - intros Hfull. unfold addDroplet. by case_decide.
  - intros Hroom. unfold addDroplet. case_decide; [lia|].
    eexists _, (new_droplet random (randomCalls e) x y).
    split; [done|]. by repeat split.
Qed.

(** C5. However calls follow each other, the number of active splashes
    stays within [maxSplashEffects] (at least 1).  [createSplash] at or above
    the cap removes index 0 and then appends; below the cap it only appends.
    After [cap + 1] calls of [createSplash] on an engine without splashes,
    the splashes are the 2nd to the [(cap + 1)]-th created, in that order:
    the first one is gone. *)
Theorem createSplash_fifo (e0 : Engine num) (calls : list (Call num)) (x y : num) :
  1 <= maxSplashEffects e0 ->
  length (splashEffects e0) <= maxSplashEffects e0 ->
  let e := run random calls e0 in
  length (splashEffects e) <= maxSplashEffects e /\
  maxSplashEffects e = maxSplashEffects e0 /\
  (maxSplashEffects e <= length (splashEffects e) ->
   splashEffects (createSplash random x y e) =
   drop 1 (splashEffects e) ++ [new_splash random (randomCalls e) x y]) /\
  (length (splashEffects e) < maxSplashEffects e ->
   splashEffects (createSplash random x y e) =
   splashEffects e ++ [new_splash random (randomCalls e) x y]) /\
  (forall points : list (num * num),
     splashEffects e = [] ->
     length points = S (maxSplashEffects e) ->
     splashEffects (run random (createSplashes points) e) =
     drop 1 (created random (randomCalls e) points)).
Proof.
  intros Hcap Hlen e.
  destruct (run_keeps random calls e0) as ((_ & _ & _ & Hms) & _ & Hs & _).
  fold e in Hms, Hs. specialize (Hs Hcap Hlen).
  split; [by rewrite Hms|]. split; [done|].
  repeat split.
  - intros Hfull. rewrite createSplash_splashEffects. by case_decide.
  - intros Hroom. rewrite createSplash_splashEffects. case_decide; [lia|done].
  - intros points Hnone Hpoints.
    rewrite createSplashes_survivors by (rewrite ?Hms; lia).
    rewrite Hnone, Hpoints. simpl. f_equal. lia.
Qed.

End EngineBounds.

(** ** The water level in binary64 arithmetic *)

Section Binary64Level.

Open Scope js_scope.

Lemma table_lookup (n i : nat) (l : float) :
  i < n -> table n l !! i = Some (Nat.iter i (bump (lit 0.8)) l).
Proof.
  revert i l. induction n as [|n IH]; intros i l Hi; [lia|].
  destruct i as [|i]; [done|].
  rewrite Nat.iter_succ_r. apply IH. lia.
Qed.

Lemma ascending_lookup (t : list float) (i j : nat) (a b : float) :
  ascending t = true -> i <= j -> t !! i = Some a -> t !! j = Some b ->
  (a <=? b) = true.
Proof.
  revert i j. induction t as [|c t IH]; intros i j Ht Hij Ha Hb; [done|].
  cbn [ascending] in Ht. apply andb_true_iff in Ht as [Hc Ht].
  destruct i as [|i].
  - injection Ha as ->.
    rewrite forallb_forall in Hc. apply Hc.
    apply list_elem_of_In. by eapply list_elem_of_lookup_2.
  - destruct j as [|j]; [lia|]. simpl in Ha, Hb.
    apply (IH i j); [done|lia|done|done].
Qed.

Lemma within_lookup (t : list float) (i : nat) (a : float) :
  within t = true -> t !! i = Some a ->
  (lit 0 <=? a) = true /\ (a <=? lit 100) = true.
Proof.
  unfold within. rewrite forallb_forall. intros Ht Ha.
  apply andb_true_iff, Ht, list_elem_of_In. by eapply list_elem_of_lookup_2.
Qed.

Lemma level_after_S (n : nat) :
  level_after (S n) = bump (lit 0.8) (level_after n).
Proof. reflexivity. Qed.

Lemma level_after_126 : level_after 126 = lit 100.
Proof. vm_compute. reflexivity. Qed.

Lemma bump_100 : bump (lit 0.8) (lit 100) = lit 100 :> float.
Proof. vm_compute. reflexivity. Qed.

(** After 126 collisions the level is 100, and stays there. *)
Lemma level_saturates (n : nat) : level_after (126 + n) = lit 100.
Proof.
  induction n as [|n IH].
  - apply level_after_126.
  - rewrite Nat.add_succ_r, level_after_S, IH. apply bump_100.
Qed.

Lemma level_after_table (n : nat) :
  table 127 (lit 0) !! (n `min` 126) = Some (level_after n).
Proof.
  rewrite table_lookup by lia. f_equal. fold (level_after (n `min` 126)).
  destruct (decide (n <= 126)%nat) as [Hn|Hn].
  - by rewrite Nat.min_l.
  - rewrite Nat.min_r by lia.
    replace n with (126 + (n - 126))%nat by lia.
    rewrite level_saturates. apply level_after_126.
Qed.

Lemma table_ascending : ascending (table 127 (lit 0)) = true.
Proof. vm_compute. reflexivity. Qed.

Lemma table_within : within (table 127 (lit 0)) = true.
Proof. vm_compute. reflexivity. Qed.

Lemma level_after_bounds (n : nat) :
  (lit 0 <=? level_after n) = true /\ (level_after n <=? lit 100) = true.
Proof. eapply within_lookup; [apply table_within|apply level_after_table]. Qed.

Lemma level_after_mono (n m : nat) :
  n <= m -> (level_after n <=? level_after m) = true.
Proof.
  intros Hnm.
  eapply (ascending_lookup _ (n `min` 126) (m `min` 126));
    [apply table_ascending|lia|apply level_after_table..].
Qed.

End Binary64Level.

Section Binary64Engine.

Variable random : nat -> float.

Open Scope js_scope.

(** C1. In binary64 arithmetic, whatever calls of [addDroplet], [update] and
    [createSplash] were made on a new engine: the water level is within
    [0, 100]; further calls never lower it; the level after them is the level
    before with [Math.min(100, level + 0.8)] applied [k] times, where every
    one of the [k] increments is paid for by a droplet that was unsplashed
    (or spawned meanwhile) and no longer is; an iteration of the droplet loop
    leaves the level alone or applies that one increment; and on a droplet
    whose [splashed] flag is set it leaves the level alone.  The increment
    is applied exactly at a collision: when the droplet, moved by the tick,
    is at or below the surface and its [splashed] flag is not set, the
    iteration raises the level to [Math.min(100, level + 0.8)] and the
    droplet, if it stays, has the flag set; in every other case the level
    stays as it is. *)
Theorem water_level_invariant (calls more : list (Call float)) :
  let e := run random calls constructor in
  let e' := run random more e in
  (lit 0 <=? waterLevel e) = true /\
  (waterLevel e <=? lit 100) = true /\
  (waterLevel e <=? waterLevel e') = true /\
  (exists k : nat,
     waterLevel e' = Nat.iter k (fun level => Math_min (lit 100) (level + lit 0.8))
                       (waterLevel e) /\
     (k + unsplashed (droplets e') <= unsplashed (droplets e) + spawns more)%nat) /\
  (forall (deltaTime : float) (i : nat),
     waterLevel (update_droplet random deltaTime i e) = waterLevel e \/
     waterLevel (update_droplet random deltaTime i e) =
     Math_min (lit 100) (waterLevel e + lit 0.8)) /\
  (forall (deltaTime : float) (i : nat) (d : Droplet.t float),
     droplets e !! i = Some d -> Droplet.splashed d = true ->
     waterLevel (update_droplet random deltaTime i e) = waterLevel e) /\
  (forall (deltaTime : float) (i : nat) (d : Droplet.t float),
     droplets e !! i = Some d ->
     let hit := (Droplet.y (move_droplet deltaTime e d) >=? waterSurfaceY e)
                && negb (Droplet.splashed d) in
     waterLevel (update_droplet random deltaTime i e) =
       (if hit then Math_min (lit 100) (waterLevel e + lit 0.8) else waterLevel e) /\
     (hit = true ->
      droplet_gone (set_splashed (move_droplet deltaTime e d)) = false ->
      exists d' : Droplet.t float,
        droplets (update_droplet random deltaTime i e) !! i = Some d' /\
        Droplet.splashed d' = true)).
Proof.
  intros e e'.
  destruct (run_keeps random calls constructor) as ((_ & Hinc & _) & _ & _ & (k & Hk & _)).
  destruct (run_keeps random more e) as (_ & _ & _ & (k' & Hk' & Hu')).
  fold e in Hinc, Hk. fold e' in Hk', Hu'. rewrite Hinc in Hk'.
  change (waterLevel e = level_after k) in Hk.
  assert (waterLevel e' = level_after (k' + k)) as Hk''.
  { rewrite Hk', Hk. symmetry. apply Nat.iter_add. }
  split; [rewrite Hk; apply level_after_bounds|].
  split; [rewrite Hk; apply level_after_bounds|].
  split; [rewrite Hk, Hk''; apply level_after_mono; lia|].
  split; [by exists k'|].
  split.
  - intros deltaTime i.
    destruct (update_droplet_level random deltaTime i e) as [H|H]; [by left|right].
    rewrite H. unfold raise_level. by rewrite Hinc.
  - split; [intros deltaTime i d; apply update_droplet_splashed|].
    intros deltaTime i d Hd hit.
    destruct (update_droplet_spec random deltaTime i e d Hd) as (Hl & Hds & _ & _).
    cbv zeta in Hl, Hds.
    change (collides e (move_droplet deltaTime e d)) with hit in Hl, Hds.
    split.
    + rewrite Hl. unfold raise_level. by rewrite Hinc.
    + intros Hhit Hstays. rewrite Hds, Hhit, Hstays.
      eexists. split; [apply list_lookup_insert_eq; by eapply lookup_lt_Some|done].
Qed.

End Binary64Engine.

(** ** Concrete runs *)

Lemma addDroplet_respects_cap_witness :
  (length (droplets (@constructor float _)) <= maxDroplets (@constructor float _)) /\
  length (droplets (run half twelve_clicks constructor)) = 10 /\
  addDroplet half (lit 100) (lit 50) (run half twelve_clicks constructor) =
  (false, run half twelve_clicks constructor).
Proof.
  assert (length (droplets (@constructor float _)) <= maxDroplets (@constructor float _))
    as H0 by (simpl; lia).
  split; [exact H0|]. split; [reflexivity|].
  destruct (addDroplet_respects_cap half constructor twelve_clicks (lit 100) (lit 50) H0)
    as (_ & _ & Hfull & _).
  apply Hfull. vm_compute. lia.
Defined.

Lemma createSplash_fifo_witness :
  (1 <= maxSplashEffects (@constructor float _)) /\
  (length (splashEffects (@constructor float _)) <= maxSplashEffects (@constructor float _)) /\
  map Splash.x (splashEffects (run half (createSplashes six_points) constructor)) =
  [lit 2; lit 3; lit 4; lit 5; lit 6].
Proof.
  assert (1 <= maxSplashEffects (@constructor float _)) as H1 by (simpl; lia).
  assert (length (splashEffects (@constructor float _))
          <= maxSplashEffects (@constructor float _)) as H2 by (simpl; lia).
  split; [exact H1|]. split; [exact H2|].
  destruct (createSplash_fifo half constructor [] (lit 0) (lit 0) H1 H2)
    as (_ & _ & _ & _ & Hsix).
  simpl in Hsix. rewrite (Hsix six_points); reflexivity.
Defined.

(** ** Milestones *)

Section MilestoneFacts.

Context {num : Type} `{!JSNumber num}.

Open Scope js_scope.

Lemma evaluate_cons (level : num) (key : string) (milestone : Milestone.t num)
    (rest : list (string * Milestone.t num)) :
  evaluate level ((key, milestone) :: rest) =
  ((if fires level milestone then [key] else []) ++ (evaluate level rest).1,
   (key, evaluated level milestone) :: (evaluate level rest).2).
Proof.
  simpl. destruct (evaluate level rest) as [keys rest'].
  unfold fires, evaluated. destruct milestone as [t [|]]; simpl; [done|].
  by destruct (t <=? level).
Qed.

Lemma evaluate_entries (level : num) (entries : list (string * Milestone.t num)) :
  (evaluate level entries).2 =
  map (fun entry => (entry.1, evaluated level entry.2)) entries.
Proof.
  induction entries as [|[key m] rest IH]; [done|].
  rewrite evaluate_cons. simpl. by rewrite IH.
Qed.

Lemma evaluate_keys (level : num) (entries : list (string * Milestone.t num)) :
  (evaluate level entries).1 =
  map fst (List.filter (fun entry => fires level entry.2) entries).
Proof.
  induction entries as [|[key m] rest IH]; [done|].
  rewrite evaluate_cons. simpl. rewrite IH. by destruct (fires level m).
Qed.

Lemma evaluate_quiet (level : num) (entries : list (string * Milestone.t num)) :
  Forall (fun entry => fires level entry.2 = false) entries ->
  (evaluate level entries).1 = [].
Proof.
  intros Hquiet. rewrite evaluate_keys.
  induction Hquiet as [|[key m] rest Hm _ IH]; [done|].
  simpl in *. by rewrite Hm.
Qed.

Lemma fires_evaluated (level level' : num) (milestone : Milestone.t num) :
  ((level' >=? Milestone.threshold milestone) = true ->
   (level >=? Milestone.threshold milestone) = true) ->
  fires level' (evaluated level milestone) = false.
Proof.
  unfold fires, evaluated. simpl. intros Hno.
  destruct (Milestone.achieved milestone); [done|]. simpl.
  destruct (Milestone.threshold milestone <=? level') eqn:H';
    [|by rewrite andb_false_r].
  by rewrite Hno.
Qed.

End MilestoneFacts.

(** C4. At every number instance: an evaluation keeps the entries and their
    order, and sets [achieved] of each to [achieved || level >= threshold]:
    a pending milestone becomes achieved exactly when its threshold is at
    most the level, and an achieved one stays achieved; the keys reported
    are those of the pending entries with threshold at most the level, in
    the order of the entries; a second evaluation at the same level reports
    nothing, and so does one at any level that reaches no threshold the
    first level did not reach.  In binary64 and in exact arithmetic, an
    evaluation of the fresh milestones at 100 reports fish, waves and
    completion in this order (of ascending thresholds 30, 70, 100), also
    after an evaluation at 25 that reports nothing. *)
Theorem evaluate_idempotent_ordered :
  (forall (num : Type) (N : JSNumber num) (level level' : num)
          (entries : list (string * Milestone.t num)),
     let keys := (evaluate level entries).1 in
     let entries' := (evaluate level entries).2 in
     entries' = map (fun entry => (entry.1, evaluated level entry.2)) entries /\
     (forall (i : nat) (key : string) (m : Milestone.t num),
        entries !! i = Some (key, m) ->
        exists m' : Milestone.t num,
          entries' !! i = Some (key, m') /\
          Milestone.threshold m' = Milestone.threshold m /\
          Milestone.achieved m' =
          Milestone.achieved m || leb (Milestone.threshold m) level) /\
     keys = map fst (List.filter
                       (fun entry => negb (Milestone.achieved entry.2)
                                     && leb (Milestone.threshold entry.2) level)
                       entries) /\
     (evaluate level entries').1 = [] /\
     ((forall (key : string) (m : Milestone.t num),
         (key, m) ∈ entries ->
         leb (Milestone.threshold m) level' = true ->
         leb (Milestone.threshold m) level = true) ->
      (evaluate level' entries').1 = [])) /\
  (evaluate (lit 100 : float) milestones).1 =
    ["fish"; "waves"; "completion"]%string /\
  (evaluate (lit 100 : Q) milestones).1 =
    ["fish"; "waves"; "completion"]%string /\
  (evaluate (lit 25 : float) milestones).1 = [] /\
  (evaluate (lit 100 : float) (evaluate (lit 25 : float) milestones).2).1 =
    ["fish"; "waves"; "completion"]%string /\
  map (fun entry => Milestone.threshold entry.2) (@milestones float _) =
    [lit 30; lit 70; lit 100].
Proof.
  split; [|by vm_compute].
  intros num N level level' entries keys entries'.
  assert (forall l : num,
            (forall (key : string) (m : Milestone.t num),
               (key, m) ∈ entries ->
               leb (Milestone.threshold m) l = true ->
               leb (Milestone.threshold m) level = true) ->
            (evaluate l entries').1 = []) as Hquiet.
  { intros l Hno. apply evaluate_quiet. subst entries'.
    rewrite evaluate_entries, Forall_map, Forall_forall.
    intros [key m] Hin. simpl. apply fires_evaluated. eauto. }
  split; [apply evaluate_entries|]. split; [|split; [apply evaluate_keys|]].
  - intros i key m Hi. exists (evaluated level m). subst entries'.
    rewrite evaluate_entries, list_lookup_fmap, Hi. done.
  - split; [|exact (Hquiet level')]. apply Hquiet. auto.
Qed.

(** ** Exact arithmetic *)

Section ExactFacts.

Open Scope Q_scope.

Lemma exact_leb (a b : Q) : leb a b = true <-> a <= b.
Proof. apply Qle_bool_iff. Qed.

Lemma exact_ltb (a b : Q) : ltb a b = true <-> a < b.
Proof.
  simpl. unfold ExactOps.ltb. rewrite negb_true_iff, <- not_true_iff_false, Qle_bool_iff.
  split; [apply Qnot_le_lt|apply Qlt_not_le].
Qed.

Lemma exact_leb_false (a b : Q) : leb a b = false <-> b < a.
Proof.
  rewrite <- not_true_iff_false, exact_leb.
  split; [apply Qnot_le_lt|apply Qlt_not_le].
Qed.

Lemma exact_ltb_false (a b : Q) : ltb a b = false <-> b <= a.
Proof.
  rewrite <- not_true_iff_false, exact_ltb.
  split; [apply Qnot_lt_le|apply Qle_not_lt].
Qed.

Lemma exact_max (a b : Q) :
  (a <= b /\ Math_max a b = b) \/ (b < a /\ Math_max a b = a).
Proof.
  simpl. unfold ExactOps.max. destruct (Qle_bool a b) eqn:H.
  - left. by apply Qle_bool_iff in H.
  - right. by apply (exact_leb_false a b) in H.
Qed.

Lemma exact_min (a b : Q) :
  (a <= b /\ Math_min a b = a) \/ (b < a /\ Math_min a b = b).
Proof.
  simpl. unfold ExactOps.min. destruct (Qle_bool a b) eqn:H.
  - left. by apply Qle_bool_iff in H.
  - right. by apply (exact_leb_false a b) in H.
Qed.

End ExactFacts.

(** Rewrites a test of the exact instance into the order it decides. *)
Ltac exact_tests :=
  repeat match goal with
  | H : ltb _ _ = true |- _ => apply exact_ltb in H
  | H : ltb _ _ = false |- _ => apply exact_ltb_false in H
  | H : leb _ _ = true |- _ => apply exact_leb in H
  | H : leb _ _ = false |- _ => apply exact_leb_false in H
  end.

(** Shows the arithmetic of the exact instance as arithmetic of [Q]. *)
Ltac exact_ops := cbn [lit add sub mul div Exact] in *.

Section ScalerFacts.

Import PerformanceScaler.

Open Scope Q_scope.

Lemma ladder_bounds (fps : Q) (s : PerformanceScaler.t Q) :
  0 <= minPerformanceLevel s ->
  minPerformanceLevel s <= performanceLevel s <= 1 ->
  minPerformanceLevel s <= ladder fps s <= 1.
Proof.
  intros H0 [Hlo Hhi]. unfold ladder. exact_ops.
  destruct (ltb fps 20) eqn:H20; [|destruct (ltb fps 30) eqn:H30].
  - destruct (exact_max (minPerformanceLevel s) (performanceLevel s * 0.6))
      as [[? ->]|[? ->]]; lra.
  - destruct (exact_max (minPerformanceLevel s) (performanceLevel s * 0.8))
      as [[? ->]|[? ->]]; lra.
  - destruct (_ && _) eqn:H50; [|lra].
    apply andb_true_iff in H50 as [_ Hlt]. exact_tests.
    destruct (exact_min 1.0 (performanceLevel s * 1.1)) as [[? ->]|[? ->]]; lra.
Qed.

(** C6, as the code has it.  In exact arithmetic, for a scaler whose level is
    between its floor (at least 0) and 1: a call before the cooldown has
    elapsed since the last adjustment returns the level and changes nothing;
    a call after it stores the clock reading and the level of the ladder
    (fps < 20: [max(floor, level * 0.6)]; else fps < 30:
    [max(floor, level * 0.8)]; else fps > 50 and level < 1:
    [min(1, level * 1.1)]; else the level), which is again between the floor
    and 1; any further call less than the cooldown later (such as 500 ms
    later, for the cooldown of 2000 ms) returns the same level and changes
    nothing; at fps = 15 the new level is at most the old one, strictly
    below it when the old one is above the floor, and equal to it when the
    old one is at the floor. *)
Theorem adjustPerformance_cooldown_ladder
    (now : Q) (monitor : FrameRateMonitor.t Q) (s : PerformanceScaler.t Q) :
  0 <= minPerformanceLevel s ->
  minPerformanceLevel s <= performanceLevel s <= 1 ->
  let fps := FrameRateMonitor.getCurrentFps monitor in
  let level := performanceLevel s in
  let floor := minPerformanceLevel s in
  let r := adjustPerformance now monitor s in
  (now - lastAdjustment s < adjustmentCooldown s -> r = (level, s)) /\
  (adjustmentCooldown s <= now - lastAdjustment s ->
   r.2 = PerformanceScaler.mk r.1 now (adjustmentCooldown s) floor /\
   floor <= r.1 <= 1 /\
   (fps < 20 -> r.1 = Math_max floor (level * 0.6)) /\
   (20 <= fps -> fps < 30 -> r.1 = Math_max floor (level * 0.8)) /\
   (30 <= fps -> 50 < fps -> level < 1 -> r.1 = Math_min 1.0 (level * 1.1)) /\
   (30 <= fps -> fps <= 50 \/ 1 <= level -> r.1 = level) /\
   (fps == 15 ->
    r.1 <= level /\ (floor < level -> r.1 < level) /\ (level == floor -> r.1 == level)) /\
   (forall (now' : Q) (monitor' : FrameRateMonitor.t Q),
      now' - now < adjustmentCooldown s ->
      adjustPerformance now' monitor' r.2 = (r.1, r.2))).
Proof.
  intros H0 Hlevel fps level floor r. split.
  - intros Hsoon. apply exact_ltb in Hsoon.
    subst r. unfold adjustPerformance. exact_ops. by rewrite Hsoon.
  - intros Hlate. apply exact_ltb_false in Hlate.
    assert (r = (ladder fps s,
                 PerformanceScaler.mk (ladder fps s) now (adjustmentCooldown s) floor))
      as Hr by (subst r; unfold adjustPerformance; exact_ops; by rewrite Hlate).
    rewrite Hr. cbn [fst snd].
    pose proof (ladder_bounds fps s H0 Hlevel) as Hbounds.
    split; [done|]. split; [done|].
    unfold ladder in *. exact_ops. fold level floor in H0, Hlevel, Hbounds |- *.
    refine (conj _ (conj _ (conj _ (conj _ (conj _ _))))).
    + intros H20. apply exact_ltb in H20. by rewrite H20.
    + intros H20 H30. apply exact_ltb_false in H20. apply exact_ltb in H30.
      by rewrite H20, H30.
    + intros H30 H50 H1.
      assert (20 <= fps) as H20 by lra.
      apply exact_ltb_false in H20, H30. apply exact_ltb in H50.
      assert (level < 1.0) as H1' by lra. apply exact_ltb in H1'.
      by rewrite H20, H30, H50, H1'.
    + intros H30 Hband.
      assert (20 <= fps) as H20 by lra.
      apply exact_ltb_false in H20, H30. rewrite H20, H30.
      destruct Hband as [H50|H1].
      * apply exact_ltb_false in H50. by rewrite H50.
      * assert (1.0 <= level) as H1' by lra. apply exact_ltb_false in H1'.
        by rewrite H1', andb_false_r.
    + intros H15.
      assert (fps < 20) as H20 by lra. apply exact_ltb in H20. rewrite H20.
      destruct (exact_max floor (level * 0.6)) as [[? ->]|[? ->]];
        (split; [|split]); intros; lra.
    + intros now' monitor' Hsoon. apply exact_ltb in Hsoon.
      unfold adjustPerformance. cbn [lastAdjustment adjustmentCooldown performanceLevel].
      exact_ops. by rewrite Hsoon.
Qed.

End ScalerFacts.

(** The scaler at its floor: in binary64 and in exact arithmetic alike, a
    call at 15 fps after the cooldown returns the level as it was, 0.3.
    And two calls 500 ms apart return different levels when the cooldown
    ends between them. *)
Lemma fps_15_at_the_floor :
  (let m := monitor_at (lit 15 : float) in
   let r := PerformanceScaler.adjustPerformance (lit 8000) m throttled in
   FrameRateMonitor.getCurrentFps m = lit 15 /\
   ltb (sub (lit 8000) (PerformanceScaler.lastAdjustment throttled))
       (PerformanceScaler.adjustmentCooldown throttled) = false /\
   PerformanceScaler.performanceLevel throttled = lit 0.3 /\
   r.1 = lit 0.3 /\
   ltb r.1 (PerformanceScaler.performanceLevel throttled) = false) /\
  (let m := monitor_at (lit 15 : Q) in
   let r := PerformanceScaler.adjustPerformance (lit 8000) m throttled in
   FrameRateMonitor.getCurrentFps m = lit 15 /\
   ltb (sub (lit 8000) (PerformanceScaler.lastAdjustment throttled))
       (PerformanceScaler.adjustmentCooldown throttled) = false /\
   PerformanceScaler.performanceLevel throttled = lit 0.3 /\
   r.1 = lit 0.3 /\
   ltb r.1 (PerformanceScaler.performanceLevel throttled) = false) /\
  (let m := monitor_at (lit 15 : float) in
   let first := PerformanceScaler.adjustPerformance (lit 1600) m PerformanceScaler.constructor in
   let second := PerformanceScaler.adjustPerformance (lit 2100) m first.2 in
   first.1 = lit 1.0 /\ second.1 = lit 0.6).
Proof. vm_compute. repeat split; reflexivity. Qed.

Lemma adjustPerformance_cooldown_ladder_witness :
  let s := @PerformanceScaler.constructor Q _ in
  let r := PerformanceScaler.adjustPerformance (lit 2000) (monitor_at (lit 15)) s in
  (0 <= PerformanceScaler.minPerformanceLevel s)%Q /\
  (PerformanceScaler.minPerformanceLevel s <= PerformanceScaler.performanceLevel s <= 1)%Q /\
  (r.1 < PerformanceScaler.performanceLevel s)%Q.
Proof.
  assert (0 <= PerformanceScaler.minPerformanceLevel (@PerformanceScaler.constructor Q _))%Q
    as H0 by (vm_compute; discriminate).
  assert (PerformanceScaler.minPerformanceLevel (@PerformanceScaler.constructor Q _)
          <= PerformanceScaler.performanceLevel (@PerformanceScaler.constructor Q _) <= 1)%Q
    as H1 by (split; vm_compute; discriminate).
  split; [exact H0|]. split; [exact H1|].
  destruct (adjustPerformance_cooldown_ladder (lit 2000) (monitor_at (lit 15))
              PerformanceScaler.constructor H0 H1) as (_ & Hlate).
  destruct Hlate as (_ & _ & _ & _ & _ & _ & (_ & Hstrict & _) & _).
  - vm_compute. discriminate.
  - vm_compute. reflexivity.
  - apply Hstrict. vm_compute. reflexivity.
Defined.

(** ** The frame rate monitor *)

Section MonitorFacts.

Import FrameRateMonitor.

Open Scope Q_scope.

Lemma update_frame {num : Type} `{!JSNumber num} (now : num) (m : FrameRateMonitor.t num) :
  lastTime (update now m) = now /\
  frameCount (update now m) = S (frameCount m) /\
  maxHistoryLength (update now m) = maxHistoryLength m.
Proof. unfold update. by destruct (ltb _ _). Qed.

Lemma record_sample_survivors {num : Type} `{!JSNumber num}
    (m : FrameRateMonitor.t num) (sample : num) :
  (1 <= maxHistoryLength m)%nat ->
  (length (fpsHistory m) <= maxHistoryLength m)%nat ->
  record_sample m sample =
  drop (S (length (fpsHistory m)) - maxHistoryLength m) (fpsHistory m ++ [sample]).
Proof.
  intros Hcap Hlen. unfold record_sample. rewrite length_app. simpl.
  case_decide as Hfull.
  - unfold shift. f_equal. lia.
  - replace (_ - _)%nat with 0%nat by lia. done.
Qed.

Lemma update_history_length {num : Type} `{!JSNumber num}
    (now : num) (m : FrameRateMonitor.t num) :
  (1 <= maxHistoryLength m)%nat ->
  (length (fpsHistory m) <= maxHistoryLength m)%nat ->
  (length (fpsHistory (update now m)) <= maxHistoryLength m)%nat.
Proof.
  intros Hcap Hlen. unfold update. destruct (ltb _ _); simpl; [|done].
  rewrite record_sample_survivors by done.
  rewrite length_drop, length_app. simpl. lia.
Qed.

Lemma updates_history_length {num : Type} `{!JSNumber num}
    (readings : list num) (m : FrameRateMonitor.t num) :
  (1 <= maxHistoryLength m)%nat ->
  (length (fpsHistory m) <= maxHistoryLength m)%nat ->
  maxHistoryLength (updates readings m) = maxHistoryLength m /\
  (length (fpsHistory (updates readings m)) <= maxHistoryLength m)%nat.
Proof.
  revert m. induction readings as [|now readings IH]; intros m Hcap Hlen; [done|].
  simpl. destruct (update_frame now m) as (_ & _ & Hmax).
  pose proof (update_history_length now m Hcap Hlen) as Hlen'.
  destruct (IH (update now m)) as [Hmax' Hlen'']; rewrite ?Hmax; [done..|].
  by rewrite <- Hmax.
Qed.

(** At every number instance the test [deltaTime > 0] alone decides whether
    a sample is recorded. *)
Lemma update_by_delta {num : Type} `{!JSNumber num}
    (now : num) (m : FrameRateMonitor.t num) :
  (1 <= maxHistoryLength m)%nat ->
  (length (fpsHistory m) <= maxHistoryLength m)%nat ->
  let history := fpsHistory m ++ [div (lit 1000) (sub now (lastTime m))] in
  let kept := drop (length history - maxHistoryLength m) history in
  update now m =
  if ltb (lit 0) (sub now (lastTime m))
  then FrameRateMonitor.mk (S (frameCount m)) now (average kept) kept (maxHistoryLength m)
  else FrameRateMonitor.mk (S (frameCount m)) now (fps m) (fpsHistory m) (maxHistoryLength m).
Proof.
  intros Hcap Hlen. simpl. unfold update. destruct (ltb _ _); [|done].
  cbn [frameCount lastTime fps fpsHistory maxHistoryLength].
  rewrite record_sample_survivors by done. rewrite length_app. simpl.
  by replace (length (fpsHistory m) + 1 - maxHistoryLength m)%nat
    with (S (length (fpsHistory m)) - maxHistoryLength m)%nat by lia.
Qed.

(** C10. In exact arithmetic, for a monitor whose history is within its
    bound (at least 1): an [update] at a clock reading equal to or earlier
    than the previous one pushes no sample and leaves the history, the
    rolling mean and the reported frame rate as they were; so the history
    changes only when the reading is strictly later, and then the sample
    [1000 / delta] is appended, the history is cut from the front to its most
    recent [maxHistoryLength] samples, and the rolling mean is recomputed
    from it; every call stores the reading and counts the frame; and after
    any sequence of updates the history is within the bound. *)
Theorem update_records_positive_deltas
    (now : Q) (readings : list Q) (m : FrameRateMonitor.t Q) :
  (1 <= maxHistoryLength m)%nat ->
  (length (fpsHistory m) <= maxHistoryLength m)%nat ->
  let m' := update now m in
  let history := fpsHistory m ++ [1000 / (now - lastTime m)] in
  (now <= lastTime m ->
   fpsHistory m' = fpsHistory m /\ fps m' = fps m /\
   getCurrentFps m' = getCurrentFps m) /\
  (fpsHistory m' <> fpsHistory m -> lastTime m < now) /\
  (lastTime m < now ->
   fpsHistory m' = drop (length history - maxHistoryLength m) history /\
   fps m' = getAverageFps m') /\
  lastTime m' = now /\
  frameCount m' = S (frameCount m) /\
  (length (fpsHistory (updates readings m)) <= maxHistoryLength m)%nat.
Proof.
  intros Hcap Hlen m' history.
  assert (now <= lastTime m ->
          fpsHistory m' = fpsHistory m /\ fps m' = fps m /\
          getCurrentFps m' = getCurrentFps m) as Hskip.
  { intros Hback. subst m'. unfold update, getCurrentFps. exact_ops.
    assert (now - lastTime m <= 0) as Hdelta by lra.
    apply exact_ltb_false in Hdelta. by rewrite Hdelta. }
  split; [done|]. split; [|split].
  - intros Hchanged. apply Qnot_le_lt. intros Hback.
    by destruct (Hskip Hback) as (? & _).
  - intros Hforward. subst m' history. unfold update, getAverageFps. exact_ops.
    assert (0 < now - lastTime m) as Hdelta by lra.
    apply exact_ltb in Hdelta. rewrite Hdelta. cbn [fpsHistory fps].
    rewrite record_sample_survivors by done.
    rewrite length_app. simpl.
    replace (length (fpsHistory m) + 1 - maxHistoryLength m)%nat
      with (S (length (fpsHistory m)) - maxHistoryLength m)%nat by lia.
    done.
  - destruct (update_frame now m) as (? & ? & _).
    by destruct (updates_history_length readings m Hcap Hlen) as [_ ?].
Qed.

End MonitorFacts.

Lemma update_records_positive_deltas_witness :
  let m := FrameRateMonitor.update (lit 1016) (FrameRateMonitor.constructor (lit 1000 : Q)) in
  (1 <= FrameRateMonitor.maxHistoryLength m) /\
  (length (FrameRateMonitor.fpsHistory m) <= FrameRateMonitor.maxHistoryLength m) /\
  FrameRateMonitor.fpsHistory (FrameRateMonitor.update (lit 1016) m) = [lit 1000 / lit 16]%Q /\
  FrameRateMonitor.fpsHistory (FrameRateMonitor.update (lit 1010) m) = [lit 1000 / lit 16]%Q.
Proof.
  set (m0 := FrameRateMonitor.update (lit 1016) (FrameRateMonitor.constructor (lit 1000 : Q))).
  assert (1 <= FrameRateMonitor.maxHistoryLength m0) as H1 by (vm_compute; lia).
  assert (length (FrameRateMonitor.fpsHistory m0) <= FrameRateMonitor.maxHistoryLength m0)
    as H2 by (vm_compute; lia).
  split; [exact H1|]. split; [exact H2|]. split.
  - destruct (update_records_positive_deltas (lit 1016) [] m0 H1 H2) as (Hskip & _).
    destruct Hskip as (-> & _); [vm_compute; discriminate|reflexivity].
  - destruct (update_records_positive_deltas (lit 1010) [] m0 H1 H2) as (Hskip & _).
    destruct Hskip as (-> & _); [vm_compute; discriminate|reflexivity].
Defined.

(** ** Splashes *)

Section SplashFacts.

Context {num : Type} `{!JSNumber num}.

Variable random : nat -> num.

(** A property of splashes that [createSplash] establishes and a tick of
    [deltaTime] keeps. *)
Variable P : Splash.t num -> Prop.

Hypothesis P_new : forall (k : nat) (x y : num), P (new_splash random k x y).

Lemma createSplash_Forall (x y : num) (e : Engine num) :
  Forall P (splashEffects e) -> Forall P (splashEffects (createSplash random x y e)).
Proof.
  intros HP. rewrite createSplash_splashEffects. apply Forall_app. split.
  - case_decide; [by apply Forall_drop|done].
  - by apply Forall_singleton.
Qed.

Lemma update_droplets_Forall (deltaTime : num) (n : nat) (e : Engine num) :
  Forall P (splashEffects e) ->
  Forall P (splashEffects (update_droplets random deltaTime n e)).
Proof.
  revert e. induction n as [|i IH]; intros e HP; simpl; [done|].
  apply IH. destruct (droplets e !! i) as [d|] eqn:Hd.
  - destruct (update_droplet_spec random deltaTime i e d Hd) as (_ & _ & Hs & _).
    simpl in Hs. rewrite Hs. destruct (collides _ _); [|done].
    by apply createSplash_Forall.
  - by rewrite update_droplet_out_of_range.
Qed.

Lemma update_Forall (deltaTime : num) (e : Engine num) :
  (forall s : Splash.t num, P s -> P (age_splash deltaTime s)) ->
  Forall P (splashEffects e) ->
  Forall P (splashEffects (update random deltaTime e)).
Proof.
  intros Hage HP. rewrite update_splashEffects.
  pose proof (update_droplets_Forall deltaTime (length (droplets e)) e HP) as HP'.
  induction HP' as [|s l Hs _ IH]; csimpl; [done|].
  unfold splash_after at 1. destruct (splash_gone _); [done|].
  apply Forall_cons. split; [by apply Hage|done].
Qed.

End SplashFacts.

(** Every splash left by a tick is an earlier splash, aged by the
    [deltaTime] of the call, that is not gone. *)
Lemma update_ages_splashes {num : Type} `{!JSNumber num} (random : nat -> num)
    (deltaTime : num) (e : Engine num) (s' : Splash.t num) :
  s' ∈ splashEffects (update random deltaTime e) ->
  exists s : Splash.t num,
    s ∈ splashEffects (update_droplets random deltaTime (length (droplets e)) e) /\
    s' = age_splash deltaTime s /\ splash_gone s' = false.
Proof.
  rewrite update_splashEffects, list_elem_of_omap. intros (s & Hs & Hafter).
  exists s. split; [done|]. unfold splash_after in Hafter.
  destruct (splash_gone (age_splash deltaTime s)) eqn:Hgone; [done|].
  by injection Hafter as <-.
Qed.

(** C7, as the code has it.  One splash on a new engine and one tick of
    16.67 ms ([Math.random()] answering 0.5): the splash is still active,
    its opacity and life have decayed by [deltaTime * 0.002] and
    [deltaTime * 0.001], and its radius, 2 + 65 * 16.67 = 1085.55, is far
    above its [maxRadius] of 40, which the loop never reads.  At every
    number instance, the splashes a tick leaves are the earlier ones aged by
    [radius += expansionSpeed * deltaTime], [opacity -= deltaTime * 0.002],
    [life -= deltaTime * 0.001], without those whose life or opacity is
    then at most 0, in the same order. *)
Theorem splash_radius_exceeds_maxRadius :
  (let e := update half (lit 16.67) (createSplash half (lit 100) (lit 200) constructor) in
   map (fun s => (Splash.radius s, Splash.maxRadius s, Splash.opacity s, Splash.life s))
       (splashEffects e) =
   [(0x1.0f63333333334p+10, 40, 0x1.8887a8d64d7f1p-1, 0x1.f777079e59f2cp-1)%float] /\
   forallb (fun s => ltb (Splash.maxRadius s) (Splash.radius s)) (splashEffects e) = true) /\
  (forall (num : Type) (N : JSNumber num) (random : nat -> num) (deltaTime : num)
          (e : Engine num),
     splashEffects (update random deltaTime e) =
     omap (fun s =>
             let s' := age_splash deltaTime s in
             if leb (Splash.life s') (lit 0) || leb (Splash.opacity s') (lit 0)
             then None else Some s')
          (splashEffects (update_droplets random deltaTime (length (droplets e)) e)) /\
     forall s : Splash.t num,
       Splash.radius (age_splash deltaTime s) =
         add (Splash.radius s) (mul (Splash.expansionSpeed s) deltaTime) /\
       Splash.opacity (age_splash deltaTime s) =
         sub (Splash.opacity s) (mul deltaTime (lit 0.002)) /\
       Splash.life (age_splash deltaTime s) =
         sub (Splash.life s) (mul deltaTime (lit 0.001)) /\
       Splash.maxRadius (age_splash deltaTime s) = Splash.maxRadius s).
Proof.
  split; [by vm_compute|].
  intros num N random deltaTime e. split; [apply update_splashEffects|done].
Qed.

(** ** Any [deltaTime], in exact arithmetic *)

Section DeltaTimeFacts.

Open Scope Q_scope.

Lemma exact_bump_bounds (level : Q) :
  0 <= level <= 100 -> 0 <= bump 0.8 level <= 100 /\ level <= bump 0.8 level.
Proof.
  intros Hlevel. unfold bump. exact_ops.
  destruct (exact_min 100 (level + 0.8)) as [[? ->]|[? ->]]; lra.
Qed.

Lemma exact_bumps_bounds (k : nat) (level : Q) :
  0 <= level <= 100 -> 0 <= Nat.iter k (bump 0.8) level <= 100.
Proof.
  intros Hlevel. induction k as [|k IH]; [done|].
  rewrite Nat.iter_succ. by apply exact_bump_bounds.
Qed.

Lemma new_splash_grows (random : nat -> Q) (k : nat) (x y : Q) :
  (forall k : nat, 0 <= random k) -> grows (new_splash random k x y).
Proof.
  intros Hrandom. unfold grows. simpl. pose proof (Hrandom (S k)). lra.
Qed.

Lemma age_splash_grows (deltaTime : Q) (s : Splash.t Q) :
  0 <= deltaTime -> grows s -> grows (age_splash deltaTime s).
Proof.
  intros Hdt [Hr Hs]. unfold grows. simpl. split; [|done].
  pose proof (Qmult_le_0_compat _ _ Hs Hdt). lra.
Qed.

Lemma run_grows (random : nat -> Q) (calls : list (Call Q)) (e : Engine Q) :
  (forall k : nat, 0 <= random k) ->
  Forall forwards calls ->
  Forall grows (splashEffects e) ->
  Forall grows (splashEffects (run random calls e)).
Proof.
  intros Hrandom Hcalls. revert e.
  induction Hcalls as [|c calls Hc _ IH]; intros e He; [done|].
  simpl. apply IH. destruct c as [x y|deltaTime|x y]; simpl.
  - by destruct (addDroplet_frame random x y e) as (_ & -> & _).
  - apply update_Forall; [by intros; apply new_splash_grows|
                          by intros; apply age_splash_grows|done].
  - apply createSplash_Forall; [by intros; apply new_splash_grows|done].
Qed.

Lemma lasting_after (b deltaTime : Q) :
  deltaTime <= b ->
  splash_after deltaTime (lasting b) = Some (age_splash deltaTime (lasting b)).
Proof.
  intros Hdt. unfold splash_after, splash_gone, lasting. cbn [age_splash Splash.life Splash.opacity].
  exact_ops.
  destruct (exact_max 1 (b + 1)) as [[? ->]|[? ->]].
  - assert (0 < b + 1 - deltaTime * 0.001) as H1 by lra.
    assert (0 < b + 1 - deltaTime * 0.002) as H2 by lra.
    apply exact_leb_false in H1, H2. by rewrite H1, H2.
  - assert (0 < 1 - deltaTime * 0.001) as H1 by lra.
    assert (0 < 1 - deltaTime * 0.002) as H2 by lra.
    apply exact_leb_false in H1, H2. by rewrite H1, H2.
Qed.

(** For no limit do all ticks behave as ticks of at most the limit. *)
Lemma no_limit_on_deltaTime :
  ~ exists limit : Q,
      forall (random : nat -> Q) (e : Engine Q) (deltaTime : Q),
        update random deltaTime e = update random (Math_min deltaTime limit) e.
Proof.
  intros [limit Hclamp].
  pose (s := lasting (limit + 1)).
  specialize (Hclamp (fun _ => 0) (set_splashEffects [s] constructor) (limit + 1)).
  apply (f_equal splashEffects) in Hclamp.
  rewrite !update_splashEffects in Hclamp.
  change (omap (splash_after (limit + 1)) [s] =
          omap (splash_after (Math_min (limit + 1) limit)) [s]) in Hclamp.
  destruct (exact_min (limit + 1) limit) as [[? _]|[_ Hmin]]; [lra|].
  rewrite Hmin, !omap_option_list in Hclamp.
  unfold s in Hclamp. rewrite !lasting_after in Hclamp by lra.
  assert (age_splash (limit + 1) (lasting (limit + 1)) =
          age_splash limit (lasting (limit + 1))) as Hsame
    by (unfold option_list in Hclamp; congruence).
  apply (f_equal Splash.radius) in Hsame.
  cbn [age_splash Splash.radius Splash.expansionSpeed lasting] in Hsame. exact_ops.
  assert (0 + 1 * (limit + 1) == 0 + 1 * limit) as Heq by (by rewrite Hsame).
  lra.
Qed.

(** The engine does not clamp [deltaTime]: in exact arithmetic no limit
    bounds its effect; a negative [deltaTime] leaves an active splash with
    a negative radius (2 - 65 = -63); and in binary64 a tick of 1000 ms
    gives a droplet the velocity [gravity * 1000 = 500]. *)
Lemma deltaTime_is_not_clamped :
  (~ exists limit : Q,
       forall (random : nat -> Q) (e : Engine Q) (deltaTime : Q),
         update random deltaTime e = update random (Math_min deltaTime limit) e) /\
  (let e := update exact_half (-1) (run exact_half one_splash constructor) in
   length (splashEffects e) = 1%nat /\
   forallb (fun s => ltb (Splash.radius s) 0) (splashEffects e) = true) /\
  (let e := update half (lit 1000) (addDroplet half (lit 0) (lit (-1000000)) constructor).2 in
   map Droplet.velocityY (droplets e) = [lit 500]).
Proof. split; [exact no_limit_on_deltaTime|by vm_compute]. Qed.

Lemma exact_bumps_mono (k : nat) (level : Q) :
  0 <= level <= 100 -> level <= Nat.iter k (bump 0.8) level.
Proof.
  intros Hlevel. induction k as [|k IH]; [simpl; lra|].
  pose proof (exact_bumps_bounds k level Hlevel) as Hk.
  destruct (exact_bump_bounds _ Hk) as [_ Hstep]. rewrite Nat.iter_succ. lra.
Qed.

Lemma exact_update_any_deltaTime
    (random : nat -> Q) (calls : list (Call Q)) (deltaTime : Q) :
  let e := run random calls constructor in
  let e' := update random deltaTime e in
  0 <= waterLevel e' <= 100 /\
  waterLevel e <= waterLevel e' /\
  ((forall k : nat, 0 <= random k) -> Forall forwards calls -> 0 <= deltaTime ->
   Forall (fun s => 0 <= Splash.radius s) (splashEffects e')).
Proof.
  intros e e'.
  destruct (run_keeps random calls constructor) as ((_ & Hinc & _) & _ & _ & (k & Hk & _)).
  destruct (update_ticked random deltaTime e) as (_ & _ & (k' & Hk' & _) & _).
  fold e in Hinc, Hk. fold e' in Hk'. rewrite Hinc in Hk'.
  change (waterLevel e = Nat.iter k (bump 0.8) 0) in Hk.
  change (waterLevel e' = Nat.iter k' (bump 0.8) (waterLevel e)) in Hk'.
  assert (0 <= waterLevel e <= 100) as He
    by (rewrite Hk; apply exact_bumps_bounds; lra).
  split; [rewrite Hk'; by apply exact_bumps_bounds|].
  split; [rewrite Hk'; by apply exact_bumps_mono|].
  intros Hrandom Hcalls Hdt.
  assert (Forall grows (splashEffects e')) as Hgrows.
  { apply update_Forall; [by intros; apply new_splash_grows|
                          by intros; apply age_splash_grows|].
    by apply run_grows. }
  eapply Forall_impl; [exact Hgrows|]. by intros s [? _].
Qed.

End DeltaTimeFacts.

(** ** The closed form of the level *)

Section ClosedForm.

Open Scope Q_scope.

Lemma closed_form_S (n : nat) :
  inject_Z (Z.of_nat (S n)) == inject_Z (Z.of_nat n) + 1.
Proof. rewrite Nat2Z.inj_succ. unfold Z.succ. by rewrite inject_Z_plus. Qed.

(** In exact arithmetic the level after [n] collisions is the closed form:
    125 collisions give exactly 100, and the level stays there. *)
Lemma exact_level_closed_form (n : nat) :
  Nat.iter n (bump 0.8) 0 == closed_form n.
Proof.
  unfold closed_form.
  induction n as [|n IH].
  - change (inject_Z (Z.of_nat 0)) with 0. change (Nat.iter 0 (bump 0.8) 0) with 0.
    destruct (Q.min_spec 100 (0 * 0.8)) as [[? ->]|[? ->]]; lra.
  - rewrite Nat.iter_succ, closed_form_S.
    set (level := Nat.iter n (bump 0.8) 0) in *.
    set (m := inject_Z (Z.of_nat n)) in *.
    unfold bump. exact_ops.
    destruct (Q.min_spec 100 (m * 0.8)) as [[? Hm]|[? Hm]]; rewrite Hm in IH;
      destruct (Q.min_spec 100 ((m + 1) * 0.8)) as [[? ->]|[? ->]];
      destruct (exact_min 100 (level + 0.8)) as [[? ->]|[? ->]]; lra.
Qed.

Lemma binary64_level_within_tolerance (n : nat) : within_tolerance n = true.
Proof.
  destruct (decide (n <= 126)%nat) as [Hn|Hn].
  - assert (forallb within_tolerance (seq 0 127) = true) as Hall
      by (vm_compute; reflexivity).
    rewrite forallb_forall in Hall. apply Hall, in_seq. lia.
  - unfold within_tolerance.
    replace n with (126 + (n - 126))%nat at 1 by lia.
    rewrite level_saturates.
    destruct (exact_value (lit 100)) as [q|] eqn:Hq; [|by vm_compute in Hq].
    assert (q == 100) as Hq100
      by (vm_compute in Hq; injection Hq as <-; by vm_compute).
    apply exact_ltb. unfold closed_form.
    assert (127 <= inject_Z (Z.of_nat n)) as Hbig.
    { change 127 with (inject_Z 127). rewrite <- Zle_Qle. lia. }
    destruct (Q.min_spec 100 (inject_Z (Z.of_nat n) * 0.8)) as [[? ->]|[? ->]];
      [|lra].
    apply Qabs_case; intros; lra.
Qed.

End ClosedForm.

(** ** 125 collisions *)

Section Binary64Collisions.

Variable random : nat -> float.

Open Scope js_scope.

(** C2, as the code has it.  In binary64 arithmetic 125 collisions raise the
    level of a new engine to 100 - 2^-42 (99.99999999999977...), below 100:
    the milestone at 100 does not fire, the 126th collision still raises the
    level (to 100), and the end-to-end flow of the test suite, which applies
    [Math.ceil(100 / 0.8) = 125] increments, ends with [flowComplete = false].
    What does hold: after any number [n] of collisions the level is within
    0.01 of [min(100, n * 0.8)], and from the 126th collision on it is 100. *)
Theorem level_after_125_collisions :
  (let e := Nat.iter 125 (collision random) constructor in
   waterLevel e = 0x1.8fffffffffffp+6%float /\
   (waterLevel e <? lit 100) = true /\
   fires (waterLevel e) (Milestone.mk (lit 100) false) = false /\
   waterLevel (collision random e) = lit 100 /\
   (waterLevel e <? waterLevel (collision random e)) = true /\
   waterLevel e = level_after 125 /\
   accumulate (lit 0.8) 125 (lit 0) = waterLevel e /\
   testEndToEndFlow 1000 =
     Some (waterLevel e,
           [("fish"%string, Milestone.mk (lit 30) true);
            ("waves"%string, Milestone.mk (lit 70) true);
            ("completion"%string, Milestone.mk (lit 100) false)],
           false)) /\
  (forall n : nat, within_tolerance n = true) /\
  (forall n : nat, level_after (126 + n) = lit 100).
Proof.
  split; [vm_compute; repeat split; reflexivity|].
  split; [apply binary64_level_within_tolerance|apply level_saturates].
Qed.

End Binary64Collisions.

(** ** The milestone test of the suite *)

(** The expectations of [testMilestoneThresholds] list every milestone
    achieved so far, the loop reports the new ones only: the test fails, in
    binary64 and in exact arithmetic. *)
Lemma testMilestoneThresholds_fails :
  @testMilestoneThresholds float _ = false /\ @testMilestoneThresholds Q _ = false.
Proof. by vm_compute. Qed.

(** ** Progress persistence *)

(** *** What is written is read back *)

Section NumberFacts.
Import ProgressManager.


Lemma char_digit_char (d : digit) : char_digit (digit_char d) = Some d.
Proof. by destruct d as [|[]]. Qed.

Lemma closes_digits (s : text) :
  closes s -> read_digits s = ([], s).
Proof. destruct s as [|c s]; [done|]. intros (Hc & _). simpl. by rewrite Hc. Qed.

Lemma read_digits_print (l : list digit) (s : text) :
  read_digits s = ([], s) -> read_digits (print_digits l ++ s) = (l, s).
Proof.
  intros Hs. induction l as [|d l IH]; [done|].
  simpl. by rewrite char_digit_char, IH.
Qed.

Lemma drop_zeros_replicate (z : nat) (l : list digit) :
  drop_zeros (replicate z zero ++ l) = drop_zeros l.
Proof. induction z as [|z IH]; [done|]. exact IH. Qed.

Lemma trailing_zeros (z : nat) : trailing (replicate z zero) = (None, z).
Proof. induction z as [|z IH]; [done|]. simpl. by rewrite IH. Qed.

Lemma trailing_last (middle : list digit) (last : nonzero) (z : nat) :
  trailing (middle ++ nz last :: replicate z zero) = (Some (middle, last), z).
Proof.
  induction middle as [|d middle IH]; simpl.
  - by rewrite trailing_zeros.
  - by rewrite IH.
Qed.

Lemma normal_digits (negative : bool) (m : significand) (y z : nat) (e : Z) :
  normal negative (replicate y zero ++ digits m ++ replicate z zero) e =
  Signed negative m (e + Z.of_nat z).
Proof.
  unfold normal. rewrite drop_zeros_replicate.
  destruct m as [d|first middle last]; cbn [digits app drop_zeros].
  - by rewrite trailing_zeros.
  - rewrite <- app_assoc. cbn [app]. by rewrite trailing_last.
Qed.

Lemma to_uint_of_uint (u : Decimal.uint) : to_uint (of_uint u) = u.
Proof. induction u; simpl; by f_equal. Qed.

Lemma number_of_numeral (n : N) : number_of (numeral n) = n.
Proof. unfold number_of, numeral. rewrite to_uint_of_uint. apply Unsigned.of_to. Qed.

Lemma numeral_not_nil (n : N) : numeral n <> [].
Proof.
  unfold numeral. intros H. apply (f_equal to_uint) in H.
  rewrite to_uint_of_uint in H. simpl in H.
  pose proof (Unsigned.of_to n) as Hn. rewrite H in Hn. simpl in Hn. subst n.
  discriminate H.
Qed.

Lemma closes_fraction (s : text) : closes s -> read_fraction s = Some ([], s).
Proof.
  destruct s as [|c s]; [done|]. intros (_ & Hc & _). simpl.
  destruct (Ascii.eqb_spec c "."); [done|done].
Qed.

Lemma closes_exponent (s : text) : closes s -> read_exponent s = Some (0%Z, s).
Proof.
  destruct s as [|c s]; [done|]. intros (_ & _ & He & HE). simpl.
  destruct (Ascii.eqb_spec c "e"); [done|].
  destruct (Ascii.eqb_spec c "E"); [done|done].
Qed.

Lemma read_fraction_print (l : list digit) (s : text) :
  l <> [] -> read_digits s = ([], s) ->
  read_fraction ("."%char :: print_digits l ++ s) = Some (l, s).
Proof.
  intros Hl Hs. cbn [read_fraction]. change ("." =? ".")%char with true. cbv iota.
  rewrite read_digits_print by done. by destruct l.
Qed.

Lemma read_exponent_print (x : Z) (s : text) :
  read_digits s = ([], s) ->
  read_exponent (print_exponent x ++ s) = Some (x, s).
Proof.
  intros Hs. unfold print_exponent. cbn [app read_exponent].
  change ("e" =? "e")%char with true. cbn [orb].
  pose proof (numeral_not_nil (Z.abs_N x)) as Hnil.
  case_decide as Hx; cbn [read_sign].
  - change ("+" =? "-")%char with false. change ("+" =? "+")%char with true. cbv iota.
    rewrite read_digits_print by done.
    destruct (numeral (Z.abs_N x)) as [|d l] eqn:Hl; [done|].
    rewrite <- Hl, number_of_numeral. do 2 f_equal. lia.
  - change ("-" =? "-")%char with true. cbv iota.
    rewrite read_digits_print by done.
    destruct (numeral (Z.abs_N x)) as [|d l] eqn:Hl; [done|].
    rewrite <- Hl, number_of_numeral. do 2 f_equal. lia.
Qed.

Lemma digits_head (m : significand) :
  exists (first : nonzero) (l : list digit), digits m = nz first :: l.
Proof. destruct m as [d|first middle last]; simpl; eauto. Qed.

Lemma normal_after (negative : bool) (m : significand) (z : nat) (e : Z) :
  normal negative (digits m ++ replicate z zero) e = Signed negative m (e + Z.of_nat z).
Proof. apply (normal_digits negative m 0). Qed.

Lemma normal_before (negative : bool) (m : significand) (y : nat) (e : Z) :
  normal negative (replicate y zero ++ digits m) e = Signed negative m e.
Proof.
  rewrite <- (app_nil_r (digits m)). rewrite (normal_digits negative m y 0).
  f_equal. simpl. lia.
Qed.

Lemma normal_exact (negative : bool) (m : significand) (e : Z) :
  normal negative (digits m) e = Signed negative m e.
Proof. apply (normal_before negative m 0). Qed.

Lemma read_unsigned_print (negative : bool) (m : significand) (e : Z) (s : text) :
  closes s ->
  read_unsigned negative (print_unsigned m e ++ s) = Some (Signed negative m e, s).
Proof.
  intros Hs. pose proof (closes_digits s Hs) as Hstop.
  unfold print_unsigned, read_unsigned.
  destruct (digits_head m) as (first & tail & Hds).
  assert (1 <= Z.of_nat (length (digits m)))%Z as Hk by (rewrite Hds; simpl; lia).
  repeat case_decide.
  - rewrite read_digits_print by done.
    assert (integer_part (digits m ++ replicate (Z.to_nat (e + Z.of_nat (length (digits m)) - Z.of_nat (length (digits m)))) zero) = true) as ->
      by (by rewrite Hds).
    rewrite closes_fraction by done. cbn [mbind option_bind].
    rewrite closes_exponent by done. cbn [mbind option_bind].
    rewrite app_nil_r, normal_after. do 3 f_equal. simpl. lia.
  - rewrite <- app_assoc. rewrite read_digits_print by done.
    assert (integer_part (take (Z.to_nat (e + Z.of_nat (length (digits m)))) (digits m)) = true) as ->.
    { rewrite Hds. destruct (Z.to_nat (e + Z.of_nat (length (nz first :: tail)))) eqn:Hn; [|done].
      rewrite Hds in *. lia. }
    cbn [app]. rewrite read_fraction_print; [|by intros Hnil; apply (f_equal length) in Hnil;
      rewrite length_drop in Hnil; simpl in Hnil; lia|done].
    cbn [mbind option_bind].
    rewrite closes_exponent by done. cbn [mbind option_bind].
    rewrite take_drop, length_drop, normal_exact. do 3 f_equal. lia.
  - cbn [app].
    change (read_digits ("0"%char :: "."%char :: ?t)) with ([zero], "."%char :: t).
    cbn [integer_part].
    rewrite read_fraction_print; [|by rewrite Hds; destruct (Z.to_nat _)|done].
    cbn [mbind option_bind].
    rewrite closes_exponent by done. cbn [mbind option_bind].
    rewrite length_app, length_replicate.
    change ([zero] ++ ?l) with (replicate 1 zero ++ l).
    rewrite app_assoc, <- replicate_add, normal_before. do 3 f_equal. lia.
  - rewrite <- app_assoc.
    destruct m as [d|first' middle last]; cbn [print_mantissa app].
    + assert (read_digits (digit_char (nz d) :: print_exponent (e + Z.of_nat (length (digits (One d))) - 1) ++ s) = ([nz d], print_exponent (e + Z.of_nat (length (digits (One d))) - 1) ++ s)) as ->.
      { cbn [read_digits]. rewrite char_digit_char. done. }
      cbn [integer_part].
      assert (read_fraction (print_exponent (e + Z.of_nat (length (digits (One d))) - 1) ++ s) = Some ([], print_exponent (e + Z.of_nat (length (digits (One d))) - 1) ++ s)) as -> by done.
      cbn [mbind option_bind].
      rewrite read_exponent_print by done. cbn [mbind option_bind].
      rewrite (normal_exact negative (One d)). do 3 f_equal. simpl. lia.
    + assert (forall t, read_digits (digit_char (nz first') :: "."%char :: t) = ([nz first'], "."%char :: t)) as ->.
      { intros t. cbn [read_digits]. rewrite char_digit_char. done. }
      cbn [integer_part].
      rewrite read_fraction_print; [|by destruct middle|].
      2:{ done. }
      cbn [mbind option_bind].
      rewrite read_exponent_print by done. cbn [mbind option_bind].
      rewrite (normal_exact negative (More first' middle last)). do 3 f_equal.
      rewrite length_app. simpl. rewrite length_app. simpl. lia.
Qed.

Lemma read_number_print (d : Dec) (s : text) :
  closes s -> read_number (print_number d ++ s) = Some (d, s).
Proof.
  intros Hs. destruct d as [|negative m e].
  - cbn [print_number app read_number]. change ("0" =? "-")%char with false. cbv iota.
    unfold read_unsigned. change (read_digits ("0"%char :: s))
      with (let '(l, rest) := read_digits s in (zero :: l, rest)).
    rewrite (closes_digits s Hs). cbn [integer_part].
    rewrite closes_fraction by done. cbn [mbind option_bind].
    by rewrite closes_exponent by done.
  - cbn [print_number]. destruct negative; cbn [app].
    + cbn [read_number]. change ("-" =? "-")%char with true. cbv iota.
      by apply read_unsigned_print.
    + pose proof (read_unsigned_print false m e s Hs) as Hread.
      destruct (print_unsigned m e ++ s) as [|c t] eqn:Htext.
      { by unfold read_unsigned in Hread. }
      cbn [read_number].
      destruct (Ascii.eqb_spec c "-") as [->|_]; [|done].
      by unfold read_unsigned in Hread.
Qed.

End NumberFacts.

Section StringFacts.
Import ProgressManager.

Lemma read_string_escape (c : ascii) (s : text) :
  read_string (escape c ++ s) = '(l, rest) ← read_string s; Some (c :: l, rest).
Proof.
  destruct c as [[|] [|] [|] [|] [|] [|] [|] [|]]; reflexivity.
Qed.

Lemma read_string_print (l s : text) :
  read_string (flat_map escape l ++ quote :: s) = Some (l, s).
Proof.
  induction l as [|c l IH]; [done|].
  cbn [flat_map]. rewrite <- app_assoc, read_string_escape, IH. done.
Qed.

Lemma read_string_print_string (name : string) (s : text) :
  read_string (flat_map escape (chars name) ++ quote :: s) = Some (chars name, s).
Proof. apply read_string_print. Qed.

End StringFacts.

Section ValueFacts.
Import ProgressManager.

Lemma json_nested_ind (P : json -> Prop) :
  P JNull -> (forall b, P (JBool b)) -> (forall d, P (JNumber d)) ->
  (forall s, P (JString s)) ->
  (forall elements, Forall P elements -> P (JArray elements)) ->
  (forall members, Forall (fun m => P m.2) members -> P (JObject members)) ->
  forall j, P j.
Proof.
  intros Hnull Hbool Hnumber Hstring Harray Hobject.
  fix IH 1. intros [|b|d|s|elements|members].
  - exact Hnull.
  - apply Hbool.
  - apply Hnumber.
  - apply Hstring.
  - apply Harray.
    refine ((fix all (l : list json) : Forall P l :=
               match l with
               | [] => Forall_nil_2 _
               | j :: l => Forall_cons_2 _ _ _ (IH j) (all l)
               end) elements).
  - apply Hobject.
    refine ((fix all (l : list (string * json)) : Forall (fun m => P m.2) l :=
               match l with
               | [] => Forall_nil_2 _
               | m :: l => Forall_cons_2 _ _ _ (IH m.2) (all l)
               end) members).
Qed.


Lemma print_number_head (d : Dec) :
  exists (c : ascii) (t : text),
    print_number d = c :: t /\ (c = "-"%char \/ exists g : digit, c = digit_char g).
Proof.
  destruct d as [|[|] m e].
  - exists "0"%char, []. split; [done|]. right. by exists zero.
  - eexists _, _. split; [done|]. by left.
  - cbn [print_number app]. unfold print_unsigned.
    destruct (digits_head m) as (first & tail & Hds).
    repeat case_decide.
    + rewrite Hds. eexists _, _. split; [done|]. right. by eexists.
    + rewrite Hds. destruct (Z.to_nat _) eqn:Hn; [rewrite Hds in *; simpl in *; lia|].
      eexists _, _. split; [done|]. right. by eexists.
    + eexists _, _. split; [done|]. right. by exists zero.
    + destruct m as [d|first' middle last]; eexists _, _; (split; [done|]); right; by eexists.
Qed.

Lemma print_head (j : json) :
  exists (c : ascii) (t : text), print j = c :: t /\ opens c.
Proof.
  destruct j as [|[|]|d|s|elements|members]; try by (eexists _, _; split; [done|]).
  destruct (print_number_head d) as (c & t & Hd & [->|[g ->]]).
  - by exists "-"%char, t.
  - exists (digit_char g), t. split; [done|]. by destruct g as [|[]].
Qed.

Lemma skip_opens (c : ascii) (s : text) : whitespace c = false -> skip (c :: s) = c :: s.
Proof. intros Hc. simpl. by rewrite Hc. Qed.

Lemma skip_print (j : json) (s : text) : skip (print j ++ s) = print j ++ s.
Proof.
  destruct (print_head j) as (c & t & -> & Hc & _). by apply skip_opens.
Qed.

Lemma separated_cons (t : text) (l : list text) :
  l <> [] -> separated (t :: l) = t ++ ","%char :: separated l.
Proof. by destruct l. Qed.


Lemma read_elements_print (read : text -> option (json * text))
    (l : list json) (n : nat) (s : text) :
  l <> [] -> length l <= n -> Forall (reads_back read) l ->
  read_elements read n (separated (map print l) ++ "]"%char :: s) = Some (l, s).
Proof.
  revert n. induction l as [|j l IH]; intros n Hl Hn Hall; [done|].
  apply Forall_cons in Hall as [Hj Hall].
  destruct n as [|n]; [simpl in Hn; lia|].
  destruct l as [|j' l].
  - cbn [map separated read_elements]. rewrite Hj by done. reflexivity.
  - rewrite map_cons, separated_cons by done.
    rewrite <- app_assoc. cbn [read_elements]. rewrite Hj by done.
    cbn [mbind option_bind app]. rewrite skip_opens by done.
    change ("," =? ",")%char with true. cbv iota.
    rewrite IH; [done|done|simpl in *; lia|done].
Qed.


Lemma read_members_print (read : text -> option (json * text))
    (l : list (string * json)) (n : nat) (s : text) :
  l <> [] -> length l <= n -> Forall (fun m => reads_back read m.2) l ->
  read_members read n (separated (map print_member l) ++ "}"%char :: s) = Some (l, s).
Proof.
  revert n. induction l as [|[name j] l IH]; intros n Hl Hn Hall; [done|].
  apply Forall_cons in Hall as [Hj Hall]. simpl in Hj.
  destruct n as [|n]; [simpl in Hn; lia|].
  assert (forall t : text,
            closes t ->
            read_members read (S n) (print_member (name, j) ++ t) =
            match skip t with
            | c :: s =>
              if (c =? ",")%char then '(l, s) ← read_members read n s; Some ((name, j) :: l, s)
              else if (c =? "}")%char then Some ([(name, j)], s)
              else None
            | [] => None
            end) as Hmember.
  { intros t Ht. unfold print_member, print_string. cbn [fst snd].
    rewrite <- !app_assoc. cbn [app read_members].
    rewrite skip_opens by done. cbn [expect].
    change (quote =? quote)%char with true. cbv iota. cbn [mbind option_bind].
    rewrite <- app_assoc. cbn [app]. rewrite read_string_print. cbn [mbind option_bind].
    rewrite skip_opens by done. cbn [expect].
    change (":" =? ":")%char with true. cbv iota. cbn [mbind option_bind].
    rewrite Hj by done. cbn [mbind option_bind].
    unfold chars. by rewrite String.string_of_list_ascii_of_string. }
  destruct l as [|m' l].
  - cbn [map separated]. by rewrite Hmember.
  - rewrite map_cons, separated_cons by done.
    rewrite <- app_assoc, Hmember by done. cbn [app]. rewrite skip_opens by done.
    change ("," =? ",")%char with true. cbv iota.
    rewrite IH; [done|done|simpl in *; lia|done].
Qed.

Lemma depth_elements (l : list json) (fuel : nat) :
  foldr (fun j d => depth j `max` d) 0 l <= fuel -> Forall (fun j => depth j <= fuel) l.
Proof.
  induction l as [|j l IH]; intros Hd; [done|].
  simpl in Hd. apply Forall_cons. split; [lia|apply IH; lia].
Qed.

Lemma depth_members (l : list (string * json)) (fuel : nat) :
  foldr (fun m d => depth m.2 `max` d) 0 l <= fuel -> Forall (fun m => depth m.2 <= fuel) l.
Proof.
  induction l as [|m l IH]; intros Hd; [done|].
  simpl in Hd. apply Forall_cons. split; [lia|apply IH; lia].
Qed.

Lemma print_not_nil (j : json) : 1 <= length (print j).
Proof. destruct (print_head j) as (c & t & -> & _). simpl. lia. Qed.

Lemma length_separated (l : list text) :
  Forall (fun t => 1 <= length t) l -> length l <= length (separated l).
Proof.
  induction l as [|t l IH]; intros Hall; [done|].
  apply Forall_cons in Hall as [Ht Hall].
  destruct l as [|t' l]; [simpl; lia|].
  rewrite separated_cons by done. rewrite length_app. cbn [length] in *.
  specialize (IH Hall). lia.
Qed.

(** What [read_value] with enough fuel reads of a written value is the
    value. *)
Lemma read_value_print (j : json) (fuel : nat) :
  depth j <= fuel -> reads_back (read_value fuel) j.
Proof.
  revert fuel. induction j as [|b|d|name|elements IH|members IH] using json_nested_ind;
    intros [|fuel] Hfuel s Hs; try (simpl in Hfuel; lia).
  - done.
  - by destruct b.
  - cbn [print read_value]. rewrite (skip_print (JNumber d)). cbn [print].
    pose proof (read_number_print d s Hs) as Hread.
    destruct (print_number_head d) as (c & t & Hd & Hc).
    rewrite Hd in *. cbn [app] in *.
    destruct Hc as [->|[g ->]]; [by rewrite Hread|].
    destruct g as [|[]]; by rewrite Hread.
  - cbn [print read_value]. unfold print_string. cbn [app]. rewrite <- app_assoc.
    cbn [app]. rewrite skip_opens by done.
    change (quote =? "[")%char with false. change (quote =? "{")%char with false.
    change (quote =? quote)%char with true. cbv iota.
    rewrite read_string_print. cbn [mbind option_bind].
    unfold chars. by rewrite String.string_of_list_ascii_of_string.
  - cbn [print read_value app]. rewrite <- app_assoc. cbn [app].
    rewrite skip_opens by done.
    change ("[" =? "[")%char with true. cbv iota.
    destruct elements as [|j l]; [done|].
    destruct (print_head j) as (c & t & Hj & Hc & Hbracket & _).
    assert (exists t', separated (map print (j :: l)) ++ "]"%char :: s = c :: t') as [t' Ht'].
    { destruct l; cbn [map separated]; rewrite Hj; by eexists. }
    rewrite Ht', skip_opens by done.
    destruct (Ascii.eqb_spec c "]") as [|_]; [done|].
    rewrite <- Ht'. rewrite read_elements_print; [done|done| |].
    + rewrite length_app. etransitivity; [|apply Nat.le_add_r].
      etransitivity; [|apply length_separated].
      * by rewrite length_map.
      * apply Forall_map, Forall_true. intros j'. apply print_not_nil.
    + cbn [depth] in Hfuel. apply le_S_n, depth_elements in Hfuel.
      rewrite Forall_forall in IH, Hfuel |- *.
      intros j' Hj'. by apply IH, Hfuel.
  - cbn [print read_value app]. rewrite <- app_assoc. cbn [app].
    rewrite skip_opens by done.
    change ("{" =? "[")%char with false. change ("{" =? "{")%char with true. cbv iota.
    destruct members as [|m l]; [done|].
    change (separated (map _ (m :: l))) with (separated (map print_member (m :: l))).
    assert (exists t', separated (map print_member (m :: l)) ++ "}"%char :: s = quote :: t')
      as [t' Ht'].
    { destruct l; cbn [map separated]; unfold print_member at 1, print_string;
        cbn [app]; by eexists. }
    rewrite Ht', skip_opens by done.
    change (quote =? "}")%char with false. cbv iota.
    rewrite <- Ht'. rewrite read_members_print; [done|done| |].
    + rewrite length_app. etransitivity; [|apply Nat.le_add_r].
      etransitivity; [|apply length_separated].
      * by rewrite length_map.
      * apply Forall_map, Forall_true. intros m'. unfold print_member, print_string.
        simpl. lia.
    + cbn [depth] in Hfuel. apply le_S_n, depth_members in Hfuel.
      rewrite Forall_forall in IH, Hfuel |- *.
      intros m' Hm'. by apply IH, Hfuel.
Qed.

Lemma closes_nil : closes [].
Proof. done. Qed.

Lemma length_separated_max {A : Type} (f : A -> text) (g : A -> nat) (l : list A) :
  Forall (fun a => g a <= length (f a)) l ->
  foldr (fun a d => g a `max` d) 0 l <= length (separated (map f l)).
Proof.
  induction 1 as [|a l Ha _ IH]; [done|].
  destruct l as [|a' l]; [simpl in *; lia|].
  rewrite map_cons, separated_cons by done. rewrite length_app.
  cbn [foldr length] in *. lia.
Qed.

Lemma depth_le_length (j : json) : depth j <= length (print j).
Proof.
  induction j as [|b|d|name|elements IH|members IH] using json_nested_ind;
    try apply print_not_nil.
  - cbn [depth print length]. apply le_n_S. rewrite length_app.
    etransitivity; [|apply Nat.le_add_r].
    by apply (length_separated_max print depth).
  - cbn [depth print length]. apply le_n_S. rewrite length_app.
    etransitivity; [|apply Nat.le_add_r].
    apply (length_separated_max print_member (fun m => depth m.2)).
    eapply Forall_impl; [exact IH|]. intros m Hm. cbv beta in Hm |- *.
    unfold print_member. rewrite length_app. cbn [length]. lia.
Qed.

(** A written value is read back. *)
Lemma parse_print (j : json) : parse (print j) = Some j.
Proof.
  unfold parse.
  pose proof (read_value_print j (length (print j)) (depth_le_length j) [] closes_nil)
    as Hread.
  rewrite app_nil_r in Hread. by rewrite Hread.
Qed.

End ValueFacts.

Section RecordFacts.
Import ProgressManager.

Lemma map_reverse {A B : Type} (f : A -> B) (l : list A) :
  map f (reverse l) = reverse (map f l).
Proof.
  induction l as [|a l IH]; [done|].
  cbn [map]. by rewrite !reverse_cons, map_app, IH.
Qed.

Lemma object_booleans (l : list (string * bool)) :
  object (map (fun m => (m.1, JBool m.2)) l) = JBool <$> list_to_map (reverse l).
Proof.
  unfold object. rewrite <- map_reverse.
  induction (reverse l) as [|[name b] l' IH].
  - cbn [map]. by rewrite !list_to_map_nil, fmap_empty.
  - cbn [map]. by rewrite !list_to_map_cons, fmap_insert, IH.
Qed.

Lemma flags_booleans (ms : gmap string bool) (l : list (string * bool)) :
  l ≡ₚ map_to_list ms ->
  flags (map (fun m => (m.1, JBool m.2)) l) = Some ms.
Proof.
  intros Hl. unfold flags. rewrite object_booleans.
  replace (list_to_map (reverse l)) with ms.
  2:{ apply list_to_map_flip. rewrite <- Hl. symmetry. apply reverse_Permutation. }
  assert (forallb (fun m : string * json => is_flag m.2) (map_to_list (JBool <$> ms)) = true)
    as ->.
  { apply forallb_forall. intros [name j] Hin.
    apply list_elem_of_In, elem_of_map_to_list in Hin.
    rewrite lookup_fmap in Hin. by destruct (ms !! name); simplify_eq/=. }
  f_equal. apply map_eq. intros name.
  rewrite lookup_omap, lookup_fmap. by destruct (ms !! name).
Qed.

Lemma of_json_record (level : Dec) (order : list (string * bool)) (ms : gmap string bool) :
  order ≡ₚ map_to_list ms -> of_json (record level order) = Some (mkState level ms).
Proof.
  intros Horder. unfold record, of_json.
  assert (forall a b : json,
            object [("waterLevel"%string, a); ("milestones"%string, b)] !! "waterLevel"%string
            = Some a) as -> by done.
  assert (forall a b : json,
            object [("waterLevel"%string, a); ("milestones"%string, b)] !! "milestones"%string
            = Some b) as -> by done.
  cbn [mbind option_bind]. by rewrite (flags_booleans ms).
Qed.

Lemma of_json_to_json (st : State) : of_json (to_json st) = Some st.
Proof. destruct st as [level ms]. by apply of_json_record. Qed.

Lemma parse_state_record (st : State) (order : list (string * bool)) :
  order ≡ₚ map_to_list (milestones st) ->
  parse_state (print (record (waterLevel st) order)) = Some st.
Proof.
  intros Horder. unfold parse_state. rewrite parse_print. cbn [mbind option_bind].
  destruct st as [level ms]. by apply of_json_record.
Qed.

Lemma parse_state_stringify (st : State) : parse_state (stringify st) = Some st.
Proof. by apply parse_state_record. Qed.

End RecordFacts.

(** *** What is left of a number, and more fuel *)

Section CutFacts.
Import ProgressManager.


Lemma digit_char_digit (c : ascii) (d : digit) : char_digit c = Some d -> digit_char d = c.
Proof.
  destruct c as [[|] [|] [|] [|] [|] [|] [|] [|]]; simpl; intros H; by simplify_eq.
Qed.

Lemma read_digits_suffix (s : text) : (read_digits s).2 `suffix_of` s.
Proof.
  induction s as [|c s IH]; [done|]. simpl.
  destruct (char_digit c); [|done].
  destruct (read_digits s) as [l r]. simpl in *. by apply suffix_cons_r.
Qed.

Lemma read_fraction_suffix (s r : text) (l : list digit) :
  read_fraction s = Some (l, r) -> r `suffix_of` s.
Proof.
  destruct s as [|c s]; simpl; [by intros [= _ <-]|].
  destruct (c =? ".")%char; [|by intros [= _ <-]].
  pose proof (read_digits_suffix s) as Hs.
  destruct (read_digits s) as [[|d l'] r']; [done|].
  intros [= _ <-]. by apply suffix_cons_r.
Qed.

Lemma read_sign_suffix (s : text) : (read_sign s).2 `suffix_of` s.
Proof.
  destruct s as [|c s]; simpl; [done|].
  destruct (c =? "-")%char; [by apply suffix_cons_r|].
  destruct (c =? "+")%char; [by apply suffix_cons_r|done].
Qed.

Lemma read_exponent_suffix (s r : text) (x : Z) :
  read_exponent s = Some (x, r) -> r `suffix_of` s.
Proof.
  destruct s as [|c s]; simpl; [by intros [= _ <-]|].
  destruct (_ || _); [|by intros [= _ <-]].
  pose proof (read_sign_suffix s) as Hsign.
  destruct (read_sign s) as [negative s'].
  pose proof (read_digits_suffix s') as Hs.
  destruct (read_digits s') as [[|d l'] r']; [done|].
  intros [= _ <-]. simpl in *. apply suffix_cons_r. by etransitivity.
Qed.

Lemma read_unsigned_suffix (negative : bool) (s r : text) (d : Dec) :
  read_unsigned negative s = Some (d, r) -> r `suffix_of` s.
Proof.
  unfold read_unsigned.
  pose proof (read_digits_suffix s) as Hs.
  destruct (read_digits s) as [whole s1].
  destruct (integer_part whole); [|done].
  destruct (read_fraction s1) as [[fraction s2]|] eqn:Hf; [|done].
  cbn [mbind option_bind].
  destruct (read_exponent s2) as [[x s3]|] eqn:He; [|done].
  cbn [mbind option_bind]. intros [= _ <-].
  apply read_fraction_suffix in Hf. apply read_exponent_suffix in He.
  simpl in Hs. by repeat (etransitivity; [eassumption|]).
Qed.

Lemma read_number_suffix (s r : text) (d : Dec) :
  read_number s = Some (d, r) -> r `suffix_of` s.
Proof.
  destruct s as [|c s]; [done|]. cbn [read_number].
  destruct (c =? "-")%char.
  - intros H. apply suffix_cons_r. by eapply read_unsigned_suffix.
  - apply read_unsigned_suffix.
Qed.

Lemma Forall_suffix {A : Type} (P : A -> Prop) (l k : list A) :
  l `suffix_of` k -> Forall P k -> Forall P l.
Proof. intros [p ->] H. by apply Forall_app in H as [_ ?]. Qed.

Lemma Forall_prefix {A : Type} (P : A -> Prop) (l k : list A) :
  l `prefix_of` k -> Forall P k -> Forall P l.
Proof. intros [p ->] H. by apply Forall_app in H as [? _]. Qed.

Lemma print_digits_chars (l : list digit) : Forall (fun c => number_char c = true) (print_digits l).
Proof. apply Forall_map, Forall_true. by intros [|[]]. Qed.

Lemma print_number_chars (d : Dec) : Forall (fun c => number_char c = true) (print_number d).
Proof.
  destruct d as [|negative m e]; [by repeat constructor|].
  cbn [print_number]. apply Forall_app. split; [destruct negative; by repeat constructor|].
  unfold print_unsigned. repeat case_decide.
  - apply print_digits_chars.
  - apply Forall_app. split; [apply print_digits_chars|].
    apply Forall_cons. split; [done|apply print_digits_chars].
  - do 2 (apply Forall_cons; split; [done|]). apply print_digits_chars.
  - apply Forall_app. split.
    + destruct m as [[]|[] middle last]; simpl; repeat (apply Forall_cons; split; [done|]);
        try done; apply print_digits_chars.
    + unfold print_exponent. apply Forall_cons. split; [done|].
      apply Forall_cons. split; [by case_decide|]. apply print_digits_chars.
Qed.

(** More fuel reads the same. *)
Lemma read_elements_mono (read read' : text -> option (json * text)) (n : nat) (s : text)
    (x : list json * text) :
  (forall s x, read s = Some x -> read' s = Some x) ->
  read_elements read n s = Some x -> read_elements read' n s = Some x.
Proof.
  intros Hread. revert s x. induction n as [|n IH]; intros s x; [done|].
  cbn [read_elements].
  destruct (read s) as [[j s1]|] eqn:Hj; [|done].
  rewrite (Hread _ _ Hj). cbn [mbind option_bind].
  destruct (skip s1) as [|c s2]; [done|].
  destruct (c =? ",")%char; [|done].
  destruct (read_elements read n s2) as [y|] eqn:Hl; [|done].
  by rewrite (IH _ _ Hl).
Qed.

Lemma read_members_mono (read read' : text -> option (json * text)) (n : nat) (s : text)
    (x : list (string * json) * text) :
  (forall s x, read s = Some x -> read' s = Some x) ->
  read_members read n s = Some x -> read_members read' n s = Some x.
Proof.
  intros Hread. revert s x. induction n as [|n IH]; intros s x; [done|].
  cbn [read_members].
  destruct (expect [quote] (skip s)) as [s1|]; [|done]. cbn [mbind option_bind].
  destruct (read_string s1) as [[name s2]|]; [|done]. cbn [mbind option_bind].
  destruct (expect [":"%char] (skip s2)) as [s3|]; [|done]. cbn [mbind option_bind].
  destruct (read s3) as [[j s4]|] eqn:Hj; [|done].
  rewrite (Hread _ _ Hj). cbn [mbind option_bind].
  destruct (skip s4) as [|c s5]; [done|].
  destruct (c =? ",")%char; [|done].
  destruct (read_members read n s5) as [y|] eqn:Hl; [|done].
  by rewrite (IH _ _ Hl).
Qed.

Lemma read_value_step (fuel : nat) (s : text) :
  read_value (S fuel) s =
  match skip s with
  | [] => None
  | c :: s' =>
    if (c =? "[")%char then
      match skip s' with
      | c' :: s'' =>
        if (c' =? "]")%char then Some (JArray [], s'')
        else '(l, rest) ← read_elements (read_value fuel) (length s') s';
             Some (JArray l, rest)
      | [] => None
      end
    else if (c =? "{")%char then
      match skip s' with
      | c' :: s'' =>
        if (c' =? "}")%char then Some (JObject [], s'')
        else '(l, rest) ← read_members (read_value fuel) (length s') s';
             Some (JObject l, rest)
      | [] => None
      end
    else if (c =? quote)%char then
      '(l, rest) ← read_string s'; Some (JString (String.string_of_list_ascii l), rest)
    else if (c =? "t")%char then
      rest ← expect (chars "rue") s'; Some (JBool true, rest)
    else if (c =? "f")%char then
      rest ← expect (chars "alse") s'; Some (JBool false, rest)
    else if (c =? "n")%char then
      rest ← expect (chars "ull") s'; Some (JNull, rest)
    else '(d, rest) ← read_number (c :: s'); Some (JNumber d, rest)
  end.
Proof. reflexivity. Qed.

Lemma read_value_S (fuel : nat) (s : text) (x : json * text) :
  read_value fuel s = Some x -> read_value (S fuel) s = Some x.
Proof.
  revert s x. induction fuel as [|fuel IH]; intros s x; [done|].
  intros H. rewrite read_value_step in H. rewrite (read_value_step (S fuel)).
  destruct (skip s) as [|c s1]; [done|].
  destruct (c =? "[")%char.
  { destruct (skip s1) as [|c' s2]; [done|].
    destruct (c' =? "]")%char; [done|].
    destruct (read_elements (read_value fuel) (length s1) s1) as [y|] eqn:Hl; [|done].
    by rewrite (read_elements_mono _ (read_value (S fuel)) _ _ _ IH Hl). }
  destruct (c =? "{")%char; [|done].
  destruct (skip s1) as [|c' s2]; [done|].
  destruct (c' =? "}")%char; [done|].
  destruct (read_members (read_value fuel) (length s1) s1) as [y|] eqn:Hl; [|done].
  by rewrite (read_members_mono _ (read_value (S fuel)) _ _ _ IH Hl).
Qed.

Lemma read_value_mono (fuel fuel' : nat) (s : text) (x : json * text) :
  fuel <= fuel' -> read_value fuel s = Some x -> read_value fuel' s = Some x.
Proof. induction 1 as [|fuel' _ IH]; [done|]. intros H. by apply read_value_S, IH. Qed.


Lemma read_value_back (j : json) (fuel : nat) : back_or_none (read_value fuel) j.
Proof.
  intros s Hs. destruct (read_value fuel (print j ++ s)) as [x|] eqn:Hread; [|by left].
  right. apply (read_value_mono fuel (fuel `max` depth j)) in Hread; [|lia].
  rewrite read_value_print in Hread by (done || lia). done.
Qed.

(** *** Texts cut short *)



Lemma number_rest (r : text) :
  Forall (fun c => number_char c = true) r ->
  match skip r with
  | [] => True
  | c :: _ => (c =? ",")%char = false /\ (c =? "]")%char = false /\
              (c =? "}")%char = false /\ (c =? ":")%char = false
  end.
Proof.
  destruct r as [|c r]; [done|]. intros Hc. apply Forall_cons in Hc as [Hc _].
  destruct c as [[|] [|] [|] [|] [|] [|] [|] [|]]; done.
Qed.

Lemma halted_elements (read : text -> option (json * text)) (n : nat) (s : text) :
  halted (read s) -> read_elements read n s = None.
Proof.
  intros H. destruct n as [|n]; [done|]. cbn [read_elements].
  destruct (read s) as [[j r]|]; [|done]. cbn [mbind option_bind].
  apply number_rest in H. destruct (skip r) as [|c r']; [done|].
  by destruct H as (-> & -> & _).
Qed.

Lemma escape_cut (c : ascii) (i : nat) :
  i < length (escape c) -> read_string (take i (escape c)) = None.
Proof.
  destruct c as [[|] [|] [|] [|] [|] [|] [|] [|]];
    do 6 (destruct i as [|i]; [by intros|]); simpl; lia.
Qed.

Lemma read_string_cut (l s t : text) :
  flat_map escape l = s ++ t -> read_string s = None.
Proof.
  revert s. induction l as [|c l IH]; intros s H.
  - by destruct s.
  - cbn [flat_map] in H. apply app_eq_inv in H as [(k & Hs & Ht)|(k & -> & Ht)].
    + destruct (decide (k = [])) as [->|Hk].
      * rewrite app_nil_r in Hs. subst s.
        rewrite <- (app_nil_r (escape c)), read_string_escape. done.
      * assert (s = take (length s) (escape c)) as -> by (by rewrite Hs, take_app_length).
        apply escape_cut. rewrite Hs, length_app. destruct k; [done|simpl; lia].
    + rewrite read_string_escape, (IH k) by done. done.
Qed.

Lemma snoc_eq_app {A : Type} (l s t : list A) (x : A) :
  l ++ [x] = s ++ t -> t <> [] -> exists t', l = s ++ t' /\ t = t' ++ [x].
Proof.
  intros H Ht. destruct (exists_last Ht) as (t' & y & ->).
  rewrite app_assoc in H. apply app_inj_tail in H as [-> ->]. by exists t'.
Qed.

Lemma read_whole_elements (read : text -> option (json * text)) (n : nat) (j : json) :
  back_or_none read j -> read_elements read n (print j) = None.
Proof.
  intros Hj. destruct n as [|n]; [done|]. cbn [read_elements].
  destruct (Hj [] closes_nil) as [H|H]; rewrite app_nil_r in H; by rewrite H.
Qed.

Lemma read_elements_cut (read : text -> option (json * text))
    (l : list json) (n : nat) (s t : text) :
  Forall (fun j => cut_short read j /\ back_or_none read j) l ->
  l <> [] ->
  separated (map print l) = s ++ t ->
  read_elements read n s = None.
Proof.
  intros Hall. revert n s.
  induction Hall as [|j l [Hcut Hback] _ IH]; intros n s Hl H; [done|].
  assert (forall k : text, print j = s ++ k -> read_elements read n s = None) as Hfirst.
  { intros k Hk. destruct (decide (k = [])) as [->|Hne].
    - rewrite app_nil_r in Hk. subst s. by apply read_whole_elements.
    - apply halted_elements. by apply (Hcut s k). }
  destruct l as [|j' l]; [by apply (Hfirst t)|].
  rewrite map_cons, separated_cons in H by done.
  apply app_eq_inv in H as [(k & Hs & _)|(k & -> & Ht)]; [by apply (Hfirst k)|].
  destruct k as [|c k]; [by apply (Hfirst []); rewrite !app_nil_r|].
  injection Ht as <- Ht.
  destruct n as [|n]; [done|]. cbn [read_elements].
  destruct (Hback (","%char :: k)) as [Hread|Hread]; [done|by rewrite Hread|].
  rewrite Hread. cbn [mbind option_bind]. rewrite skip_opens by done.
  change ("," =? ",")%char with true. cbv iota.
  by rewrite (IH n k).
Qed.

Lemma halted_members (read : text -> option (json * text)) (name : string) (v : json)
    (n : nat) (s k : text) :
  cut_short read v -> back_or_none read v ->
  print_member (name, v) = s ++ k -> k <> [] ->
  read_members read n s = None.
Proof.
  intros Hcut Hback H Hk. destruct n as [|n]; [done|].
  unfold print_member, print_string in H. cbn [fst snd app] in H.
  destruct s as [|c s]; [done|]. injection H as <- H.
  cbn [read_members]. rewrite skip_opens by done. cbn [expect].
  change (quote =? quote)%char with true. cbv iota. cbn [mbind option_bind].
  rewrite <- app_assoc in H. cbn [app] in H.
  apply app_eq_inv in H as [(k1 & Hs & _)|(k1 & -> & H)].
  { by rewrite (read_string_cut _ _ _ Hs). }
  destruct k1 as [|c k1].
  { rewrite app_nil_r.
    by rewrite (read_string_cut (chars name) (flat_map escape (chars name)) []
                  (eq_sym (app_nil_r _))). }
  injection H as <- H. rewrite read_string_print. cbn [mbind option_bind].
  destruct k1 as [|c k1]; [done|]. injection H as <- H.
  rewrite skip_opens by done. cbn [expect].
  change (":" =? ":")%char with true. cbv iota. cbn [mbind option_bind].
  destruct (Hcut k1 k H Hk) as [Hhalt _].
  destruct (read k1) as [[j r]|]; [|done]. cbn [mbind option_bind].
  apply number_rest in Hhalt. destruct (skip r) as [|c r']; [done|].
  by destruct Hhalt as (-> & _ & -> & _).
Qed.

Lemma read_whole_members (read : text -> option (json * text)) (name : string) (v : json)
    (n : nat) :
  back_or_none read v -> read_members read n (print_member (name, v)) = None.
Proof.
  intros Hback. destruct n as [|n]; [done|].
  unfold print_member, print_string. cbn [fst snd app read_members].
  rewrite skip_opens by done. cbn [expect].
  change (quote =? quote)%char with true. cbv iota. cbn [mbind option_bind].
  rewrite <- app_assoc. cbn [app]. rewrite read_string_print. cbn [mbind option_bind].
  rewrite skip_opens by done. cbn [expect].
  change (":" =? ":")%char with true. cbv iota. cbn [mbind option_bind].
  destruct (Hback [] closes_nil) as [H|H]; rewrite app_nil_r in H; by rewrite H.
Qed.

Lemma read_members_cut (read : text -> option (json * text))
    (l : list (string * json)) (n : nat) (s t : text) :
  Forall (fun m => cut_short read m.2 /\ back_or_none read m.2) l ->
  l <> [] ->
  separated (map print_member l) = s ++ t ->
  read_members read n s = None.
Proof.
  intros Hall. revert n s.
  induction Hall as [|[name v] l [Hcut Hback] _ IH]; intros n s Hl H; [done|].
  cbn [snd] in Hcut, Hback.
  assert (forall k : text, print_member (name, v) = s ++ k -> read_members read n s = None)
    as Hfirst.
  { intros k Hk. destruct (decide (k = [])) as [->|Hne].
    - rewrite app_nil_r in Hk. subst s. by apply read_whole_members.
    - by apply (halted_members read name v n s k). }
  destruct l as [|m' l]; [by apply (Hfirst t)|].
  rewrite map_cons, separated_cons in H by done.
  apply app_eq_inv in H as [(k & Hs & _)|(k & -> & Ht)]; [by apply (Hfirst k)|].
  destruct k as [|c k]; [by apply (Hfirst []); rewrite !app_nil_r|].
  injection Ht as <- Ht.
  destruct n as [|n]; [done|].
  unfold print_member, print_string. cbn [fst snd app read_members].
  rewrite skip_opens by done. cbn [expect].
  change (quote =? quote)%char with true. cbv iota. cbn [mbind option_bind].
  rewrite <- !app_assoc. cbn [app]. rewrite read_string_print. cbn [mbind option_bind].
  rewrite skip_opens by done. cbn [expect].
  change (":" =? ":")%char with true. cbv iota. cbn [mbind option_bind].
  destruct (Hback (","%char :: k)) as [Hread|Hread]; [done|by rewrite Hread|].
  rewrite Hread. cbn [mbind option_bind]. rewrite skip_opens by done.
  change ("," =? ",")%char with true. cbv iota.
  by rewrite (IH n k).
Qed.

Lemma separated_head (l : list json) (j : json) :
  exists (c : ascii) (t : text), separated (map print (j :: l)) = c :: t /\ opens c.
Proof.
  destruct (print_head j) as (c & t & Hj & Hc).
  destruct l; cbn [map separated]; rewrite Hj; by eexists _, _.
Qed.

Lemma members_head (l : list (string * json)) (m : string * json) :
  exists t : text, separated (map print_member (m :: l)) = quote :: t.
Proof.
  destruct l; cbn [map separated]; unfold print_member at 1, print_string;
    cbn [app]; by eexists.
Qed.

(** A written value cut short is not read, except a number, of which the
    digits that are left are read, up to characters of a number. *)
Lemma read_value_cut (j : json) (fuel : nat) : cut_short (read_value fuel) j.
Proof.
  revert fuel. induction j as [|b|d|name|elements IH|members IH] using json_nested_ind;
    intros [|fuel] s t H Ht; try done.
  - destruct s as [|c1 [|c2 [|c3 [|c4 s]]]]; simplify_eq/=; try done.
    by destruct s.
  - destruct b; destruct s as [|c1 [|c2 [|c3 [|c4 [|c5 s]]]]]; simplify_eq/=; try done;
      by destruct s.
  - split; [|by intros Hd; destruct (Hd d)].
    rewrite read_value_step. cbn [print] in H.
    assert (Forall (fun c => number_char c = true) s) as Hs.
    { eapply Forall_prefix; [|apply (print_number_chars d)]. by exists t. }
    destruct s as [|c s]; [done|].
    destruct (print_number_head d) as (c' & t' & Hd & Hc).
    rewrite Hd in H. injection H as <- H.
    assert (skip (c' :: s) = c' :: s) as -> by (by destruct Hc as [->|[[|[]] ->]]).
    assert (((c' =? "[") || (c' =? "{") || (c' =? quote) || (c' =? "t") || (c' =? "f")
             || (c' =? "n"))%char = false) as Hother
      by (by destruct Hc as [->|[[|[]] ->]]).
    repeat (apply orb_false_elim in Hother as [Hother ?]).
    repeat match goal with E : (_ =? _)%char = false |- _ => rewrite E; clear E end.
    destruct (read_number (c' :: s)) as [[d' r]|] eqn:Hread; [|done].
    cbn [mbind option_bind halted].
    eapply Forall_suffix; [by eapply read_number_suffix|done].
  - assert (read_value (S fuel) s = None) as ->; [|done].
    rewrite read_value_step. unfold print, print_string in H. cbn [app] in H.
    destruct s as [|c s]; [done|]. injection H as <- H.
    apply snoc_eq_app in H as (t' & H & _); [|done].
    rewrite skip_opens by done.
    change (quote =? "[")%char with false. change (quote =? "{")%char with false.
    change (quote =? quote)%char with true. cbv iota.
    by rewrite (read_string_cut _ _ _ H).
  - assert (read_value (S fuel) s = None) as ->; [|done].
    rewrite read_value_step. cbn [print app] in H.
    destruct s as [|c s]; [done|]. injection H as <- H.
    apply snoc_eq_app in H as (t' & H & _); [|done].
    rewrite skip_opens by done.
    change ("[" =? "[")%char with true. cbv iota.
    destruct elements as [|j l]; [by destruct s|].
    destruct s as [|c s]; [done|].
    destruct (separated_head l j) as (c' & k & Hhead & Hc & Hbracket & _).
    assert (c = c') as -> by (rewrite Hhead in H; by injection H).
    rewrite skip_opens by done.
    destruct (Ascii.eqb_spec c' "]") as [|_]; [done|].
    rewrite (read_elements_cut _ (j :: l) _ _ t'); [done| |done|done].
    eapply Forall_impl; [exact IH|]. intros j' Hj'. split; [apply Hj'|apply read_value_back].
  - assert (read_value (S fuel) s = None) as ->; [|done].
    rewrite read_value_step. cbn [print app] in H.
    destruct s as [|c s]; [done|]. injection H as <- H.
    apply snoc_eq_app in H as (t' & H & _); [|done].
    rewrite skip_opens by done.
    change ("{" =? "[")%char with false. change ("{" =? "{")%char with true. cbv iota.
    destruct members as [|m l]; [by destruct s|].
    destruct s as [|c s]; [done|].
    change (separated (map _ (m :: l))) with (separated (map print_member (m :: l))) in H.
    assert (c = quote) as ->.
    { destruct (members_head l m) as [k Hk]. rewrite Hk in H. by injection H. }
    rewrite skip_opens by done.
    change (quote =? "}")%char with false. cbv iota.
    rewrite (read_members_cut _ (m :: l) _ _ t'); [done| |done|done].
    eapply Forall_impl; [exact IH|]. intros m' Hm'. split; [apply Hm'|apply read_value_back].
Qed.

(** An object, an array or a string cut short is not JSON. *)
Lemma parse_cut (j : json) (n : nat) :
  (forall d, j <> JNumber d) -> n < length (print j) -> parse (take n (print j)) = None.
Proof.
  intros Hj Hn. unfold parse.
  destruct (read_value_cut j (length (take n (print j))) (take n (print j))
              (drop n (print j))) as [_ Hnone].
  - by rewrite take_drop.
  - intros Hnil. apply (f_equal length) in Hnil. rewrite length_drop in Hnil.
    simpl in Hnil. lia.
  - by rewrite Hnone.
Qed.

End CutFacts.

(** *** The round trip *)

Section ProgressFacts.
Import ProgressManager.

Lemma load_insert (s : text) (items : gmap string text) :
  load (Available (<[storageKey := s]> items)) = parse_state s.
Proof. unfold load. by rewrite lookup_insert_eq. Qed.

(** C9, on the Progress Manager as the specification describes it, with
    JSON as [JSON.stringify] writes it and the grammar of JSON read in full.

    For every state (a level that is any decimal number, and any flags
    under any names) and whatever the storage held: [save] writes the one
    record and reports success, and [load] after it returns the state
    saved; so it does when the flags are written in any other order.

    [load] returns [null] on an empty storage, on a storage without the
    key, on a text that is not JSON, on JSON that is not a record, and on
    unavailable storage, where [save] reports the failure and changes
    nothing.  A record cut short at any point is such a text that is not
    JSON: no part of a saved record is read as a record.

    The numbers 42, 75.5 and 0.8 are written as JavaScript writes them; a
    name with a quote, a backslash and control characters is written with
    its escapes and read back; the text that [testDataIntegrity] stores is
    read as its record, also with spaces and with the members in another
    order; and a leading zero, single quotes or a comma before the brace
    make a text that is not JSON. *)
Theorem save_load_roundtrip (st : State) (items : gmap string text) :
  (save st (Available items) = (true, Available (<[storageKey := stringify st]> items)) /\
   load (save st (Available items)).2 = Some st /\
   (forall order : list (string * bool),
      order ≡ₚ map_to_list (milestones st) ->
      load (Available (<[storageKey := print (record (waterLevel st) order)]> items)) =
        Some st)) /\
  (load (Available ∅) = None /\
   (items !! storageKey = None -> load (Available items) = None) /\
   (forall s : text,
      parse s = None -> load (Available (<[storageKey := s]> items)) = None) /\
   (forall (s : text) (j : json),
      parse s = Some j -> of_json j = None ->
      load (Available (<[storageKey := s]> items)) = None) /\
   (forall n : nat,
      n < length (stringify st) ->
      parse (take n (stringify st)) = None /\
      load (Available (<[storageKey := take n (stringify st)]> items)) = None) /\
   load Unavailable = None /\
   save st Unavailable = (false, Unavailable)) /\
  (map print_number [waterLevel spec_record; waterLevel test_record; increment] =
     [chars "42"; chars "75.5"; chars "0.8"] /\
   stringify escaped_record =
     chars "{" ++ quoted "waterLevel" ++ chars ":0.8," ++ quoted "milestones" ++
     chars ":{" ++ [quote] ++ chars "a" ++ [backslash; quote; backslash; backslash] ++
     [backslash] ++ chars "n" ++ [backslash] ++ chars "u0001b" ++ [quote] ++
     chars ":true}}" /\
   parse_state (stringify escaped_record) = Some escaped_record /\
   parse_state test_text = Some test_record /\
   parse_state spaced_text = Some test_record /\
   Forall (fun s => parse s = None) corrupt_texts /\
   Forall (fun s => exists j, parse s = Some j /\ of_json j = None) malformed_texts).
Proof.
  split; [|split].
  - split; [done|]. split; [cbn [save snd]; rewrite load_insert; apply parse_state_stringify|].
    intros order Horder. rewrite load_insert. by apply parse_state_record.
  - split; [done|]. split; [by intros Hnone; unfold load; rewrite Hnone|].
    split; [by intros s Hs; rewrite load_insert; unfold parse_state; rewrite Hs|].
    split; [by intros s j Hs Hj; rewrite load_insert; unfold parse_state; rewrite Hs|].
    split; [|done].
    intros n Hn.
    assert (parse (take n (stringify st)) = None) as Hcut by (by apply parse_cut).
    split; [done|]. rewrite load_insert. unfold parse_state. by rewrite Hcut.
  - do 5 (split; [by vm_compute|]).
    split.
    + repeat (apply Forall_cons_2; [by vm_compute|]). apply Forall_nil_2.
    + repeat (apply Forall_cons_2; [eexists; split; by vm_compute|]). apply Forall_nil_2.
Qed.

Lemma save_load_roundtrip_witness :
  let order := map_to_list (milestones spec_record) in
  load (save spec_record (Available ∅)).2 = Some spec_record /\
  order ≡ₚ map_to_list (milestones spec_record) /\
  load (Available (<[storageKey := print (record (waterLevel spec_record) order)]> ∅)) =
    Some spec_record /\
  (∅ : gmap string text) !! storageKey = None /\
  load (Available ∅) = None /\
  parse (chars "not json") = None /\
  load (Available (<[storageKey := chars "not json"]> ∅)) = None /\
  parse (chars "[42]") = Some (JArray [JNumber (waterLevel spec_record)]) /\
  of_json (JArray [JNumber (waterLevel spec_record)]) = None /\
  load (Available (<[storageKey := chars "[42]"]> ∅)) = None /\
  40 < length (stringify spec_record) /\
  load (Available (<[storageKey := take 40 (stringify spec_record)]> ∅)) = None.
Proof.
  intros order.
  pose proof (save_load_roundtrip spec_record ∅) as
    ((_ & Hload & Horder) & (_ & Hmissing & Hcorrupt & Hmalformed & Hcut & _) & _).
  assert (order ≡ₚ map_to_list (milestones spec_record)) as H0 by reflexivity.
  assert ((∅ : gmap string text) !! storageKey = None) as H1 by reflexivity.
  assert (parse (chars "not json") = None) as H2 by reflexivity.
  assert (parse (chars "[42]") = Some (JArray [JNumber (waterLevel spec_record)])) as H3
    by reflexivity.
  assert (of_json (JArray [JNumber (waterLevel spec_record)]) = None) as H4 by reflexivity.
  assert (40 < length (stringify spec_record)) as H5 by (vm_compute; lia).
  split; [exact Hload|]. split; [exact H0|]. split; [exact (Horder order H0)|].
  split; [exact H1|]. split; [exact (Hmissing H1)|].
  split; [exact H2|]. split; [exact (Hcorrupt _ H2)|].
  split; [exact H3|]. split; [exact H4|]. split; [exact (Hmalformed _ _ H3 H4)|].
  split; [exact H5|]. exact (proj2 (Hcut 40 H5)).
Defined.

End ProgressFacts.

(** ** More concrete runs *)

Lemma water_level_invariant_witness :
  let e := run half hit_and_falling constructor in
  let e1 := run half one_click constructor in
  (exists d : Droplet.t float, droplets e !! 0 = Some d /\ Droplet.splashed d = true) /\
  waterLevel (update_droplet half (lit 16) 0 e) = waterLevel e /\
  waterLevel e1 = lit 0 /\
  waterLevel (update_droplet half (lit 1) 0 e1) = lit 0.8 /\
  waterLevel e = lit 0.8.
Proof.
  intros e e1.
  assert (exists d : Droplet.t float,
            droplets e !! 0 = Some d /\ Droplet.splashed d = true)
    as Hsplashed by (vm_compute; eauto).
  split; [exact Hsplashed|]. destruct Hsplashed as (d & Hd & Hs).
  destruct (water_level_invariant half hit_and_falling []) as (_ & _ & _ & _ & _ & Honce & _).
  split; [exact (Honce (lit 16) 0 d Hd Hs)|].
  split; [reflexivity|].
  destruct (water_level_invariant half one_click []) as (_ & _ & _ & _ & _ & _ & Hhit).
  assert (exists d1 : Droplet.t float, droplets e1 !! 0 = Some d1) as [d1 Hd1]
    by (vm_compute; eauto).
  destruct (Hhit (lit 1) 0 d1 Hd1) as [Hlevel _].
  split; [|reflexivity].
  fold e1 in Hlevel. rewrite Hlevel.
  vm_compute in Hd1. injection Hd1 as <-. vm_compute. reflexivity.
Defined.

Lemma evaluate_idempotent_ordered_witness :
  (evaluate (lit 30 : float) milestones).1 = ["fish"%string] /\
  (evaluate (lit 65 : float) (evaluate (lit 30 : float) milestones).2).1 = [].
Proof.
  split; [reflexivity|].
  destruct evaluate_idempotent_ordered as [Hgeneral _].
  destruct (Hgeneral float _ (lit 30) (lit 65) milestones) as (_ & _ & _ & _ & Hquiet).
  apply Hquiet. intros key m Hin. unfold milestones in Hin.
  repeat (apply elem_of_cons in Hin as [[= -> ->]|Hin]; [by vm_compute|]).
  by apply elem_of_nil in Hin.
Defined.

(** ** The object pool *)

Section PoolFacts.
Import ObjectPool.
Context {A : Type} `{!EqDecision A}.
Variable createFn : nat -> A.

Lemma indexOf_None (obj : A) (l : list A) :
  indexOf obj l = None <-> obj ∉ l.
Proof.
  unfold indexOf. rewrite fmap_None, list_find_None, Forall_forall.
  split; [intros H Hin; by apply (H obj)|intros H x Hx ->; done].
Qed.

Lemma indexOf_Some (obj : A) (l : list A) (i : nat) :
  indexOf obj l = Some i <-> l !! i = Some obj /\ obj ∉ take i l.
Proof.
  unfold indexOf. rewrite fmap_Some. split.
  - intros ([j x] & Hfind & ->). apply list_find_Some in Hfind as (Hj & -> & Hbefore).
    simpl. split; [done|]. intros Hin. apply list_elem_of_lookup in Hin as [k Hk].
    pose proof (lookup_lt_Some _ _ _ Hk) as Hlen. rewrite length_take in Hlen.
    rewrite lookup_take_lt in Hk by lia. apply (Hbefore k obj Hk); [lia|done].
  - intros [Hi Hnot]. exists (i, obj). split; [|done].
    apply list_find_Some. split; [done|]. split; [done|].
    intros j y Hj Hlt ->. apply Hnot. apply list_elem_of_lookup. exists j.
    by rewrite lookup_take_lt.
Qed.

Lemma indexOf_snoc (obj : A) (l : list A) :
  obj ∉ l -> indexOf obj (l ++ [obj]) = Some (length l).
Proof.
  intros Hnot. apply indexOf_Some. split.
  - by rewrite lookup_app_r, Nat.sub_diag.
  - by rewrite take_app_length.
Qed.

Lemma delete_snoc (l : list A) (x : A) : delete (length l) (l ++ [x]) = l.
Proof. rewrite (delete_middle l [] x). apply app_nil_r. Qed.

Lemma acquire_pop (l : list A) (obj : A) (act : list A) (n : nat) :
  acquire createFn (mk (l ++ [obj]) act n) = (obj, mk l (act ++ [obj]) n).
Proof.
  unfold acquire. simpl. rewrite last_snoc. by rewrite removelast_last.
Qed.

Lemma acquire_create (act : list A) (n : nat) :
  acquire createFn (mk [] act n) = (createFn n, mk [] (act ++ [createFn n]) (S n)).
Proof. reflexivity. Qed.


Lemma fill_spec (n : nat) (p : t A) :
  fill createFn n p =
  mk (pool p ++ map createFn (seq (created p) n)) (active p) (created p + n).
Proof.
  revert p. induction n as [|n IH]; intros p; simpl.
  - rewrite app_nil_r, Nat.add_0_r. by destruct p.
  - rewrite IH. simpl. rewrite <- app_assoc. simpl. f_equal. lia.
Qed.

Lemma constructor_spec (initialSize : nat) :
  constructor createFn initialSize = mk (map createFn (seq 0 initialSize)) [] initialSize.
Proof. unfold constructor. by rewrite fill_spec. Qed.

Lemma well_formed_Permutation (p p' : t A) :
  pool p' ++ active p' ≡ₚ pool p ++ active p -> created p <= created p' ->
  well_formed createFn p -> well_formed createFn p'.
Proof.
  intros Hperm Hcreated [Hnodup Hfrom]. split; [by rewrite Hperm|].
  intros o Ho. rewrite Hperm in Ho. destruct (Hfrom o Ho) as (i & Hi & ->).
  exists i. split; [lia|done].
Qed.

Lemma well_formed_sublist (p p' : t A) :
  pool p' ++ active p' `sublist_of` pool p ++ active p -> created p <= created p' ->
  well_formed createFn p -> well_formed createFn p'.
Proof.
  intros Hsub Hcreated [Hnodup Hfrom]. split; [by eapply sublist_NoDup|].
  intros o Ho. destruct (Hfrom o) as (i & Hi & ->).
  - by eapply elem_of_sublist.
  - exists i. split; [lia|done].
Qed.

Section Fresh.

Hypothesis createFn_fresh : Inj (=) (=) createFn.

Lemma well_formed_constructor (initialSize : nat) :
  well_formed createFn (constructor createFn initialSize).
Proof.
  rewrite constructor_spec. split; simpl; rewrite app_nil_r.
  - apply (NoDup_fmap_2 createFn), NoDup_seq.
  - intros o [i [-> Hi]]%list_elem_of_fmap. apply elem_of_seq in Hi.
    exists i. split; [lia|done].
Qed.

Lemma well_formed_acquire (p : t A) :
  well_formed createFn p -> well_formed createFn (acquire createFn p).2.
Proof.
  intros Hwf. destruct p as [pl act n].
  destruct (decide (pl = [])) as [->|Hne].
  - rewrite acquire_create. simpl. destruct Hwf as [Hnodup Hfrom]. simpl in *.
    split; simpl.
    + rewrite Permutation_app_comm. simpl. apply NoDup_cons. split; [|done].
      intros Hin. destruct (Hfrom _ Hin) as (i & Hi & Heq).
      apply createFn_fresh in Heq. lia.
    + intros o [Ho|Ho%list_elem_of_singleton]%elem_of_app.
      * destruct (Hfrom o Ho) as (i & Hi & ->). exists i. split; [lia|done].
      * exists n. split; [lia|done].
  - destruct (exists_last Hne) as (l & obj & ->). rewrite acquire_pop.
    revert Hwf. apply well_formed_Permutation; [|done]. simpl.
    rewrite <- !app_assoc. f_equiv. apply Permutation_app_comm.
Qed.

End Fresh.

Lemma well_formed_release (obj : A) (p : t A) :
  well_formed createFn p -> well_formed createFn (release obj p).
Proof.
  intros Hwf. unfold release. destruct (indexOf obj (active p)) as [i|] eqn:Hi; [|done].
  apply indexOf_Some in Hi as [Hi _].
  case_decide; revert Hwf.
  - apply well_formed_Permutation; [|done]. simpl.
    rewrite <- app_assoc. f_equiv. simpl. symmetry. by apply delete_Permutation.
  - apply well_formed_sublist; [|done]. simpl.
    apply sublist_app; [done|apply sublist_delete].
Qed.


Lemma well_formed_run (calls : list (Call A)) (p : t A) :
  Inj (=) (=) createFn -> well_formed createFn p -> well_formed createFn (run createFn calls p).
Proof.
  intros Hinj. revert p. induction calls as [|c calls IH]; intros p Hwf; [done|].
  simpl. apply IH. destruct c as [|obj]; simpl.
  - by apply well_formed_acquire.
  - by apply well_formed_release.
Qed.

Lemma acquire_active (p : t A) :
  active (acquire createFn p).2 = active p ++ [(acquire createFn p).1].
Proof. unfold acquire. by destruct (last (pool p)). Qed.

(** X2. When every call of [createFn] returns a new object, then whatever
    calls of [acquire] and [release] were made on a new pool, with whatever
    arguments: the object [acquire] hands out is not active before the call
    and is not left in the pool; it is pushed at the end of [active]; and
    after the call no object is active twice, or both pooled and active. *)
Theorem acquire_never_aliases (initialSize : nat) (calls : list (Call A)) :
  Inj (=) (=) createFn ->
  let p := run createFn calls (constructor createFn initialSize) in
  let r := acquire createFn p in
  (r.1 ∉ active p) /\ (r.1 ∉ pool r.2) /\
  active r.2 = active p ++ [r.1] /\
  NoDup (active r.2) /\
  (forall o : A, o ∈ pool r.2 -> o ∉ active r.2).
Proof.
  intros Hinj p r.
  assert (well_formed createFn p) as Hwf
    by (by apply well_formed_run; [|apply well_formed_constructor]).
  destruct (well_formed_acquire Hinj p Hwf) as [Hnodup _]. fold r in Hnodup.
  pose proof (acquire_active p) as Hactive. fold r in Hactive.
  rewrite Hactive in Hnodup |- *.
  apply NoDup_app in Hnodup as (_ & Hapart & Hact).
  apply NoDup_app in Hact as (_ & Hnew & _).
  split; [|split; [|split; [done|split]]].
  - intros Hin. apply (Hnew _ Hin). by apply list_elem_of_singleton.
  - intros Hin. apply (Hapart _ Hin). apply elem_of_app. right.
    by apply list_elem_of_singleton.
  - rewrite <- Hactive. destruct (well_formed_acquire Hinj p Hwf) as [Hn _].
    fold r in Hn. by apply NoDup_app in Hn as (_ & _ & ?).
  - done.
Qed.

Lemma release_missing (obj : A) (p : t A) : obj ∉ active p -> release obj p = p.
Proof. intros Hnot. unfold release. apply indexOf_None in Hnot. by rewrite Hnot. Qed.

Lemma release_active (obj : A) (p : t A) (i : nat) :
  indexOf obj (active p) = Some i -> active (release obj p) = delete i (active p).
Proof. intros Hi. unfold release. rewrite Hi. by case_decide. Qed.

(** X3. [release] of an object that is not active changes nothing.  When no
    object is active twice, the object is not active after its [release],
    so that a second [release] of it changes nothing: it is not pushed on
    the pool again. *)
Theorem release_twice (obj : A) (p : t A) :
  NoDup (active p) ->
  (obj ∉ active p -> release obj p = p) /\
  (obj ∉ active (release obj p)) /\
  release obj (release obj p) = release obj p.
Proof.
  intros Hnodup. split; [apply release_missing|].
  assert (obj ∉ active (release obj p)) as Hgone.
  { destruct (indexOf obj (active p)) as [i|] eqn:Hi.
    - rewrite (release_active _ _ _ Hi). apply indexOf_Some in Hi as [Hi _].
      rewrite (delete_Permutation _ _ _ Hi) in Hnodup.
      by apply NoDup_cons in Hnodup as [? _].
    - rewrite release_missing; by apply indexOf_None. }
  split; [done|]. by apply release_missing.
Qed.

Lemma indexOf_singleton (obj : A) : indexOf obj [obj] = Some 0.
Proof. apply (indexOf_snoc obj []), not_elem_of_nil. Qed.

Lemma cycle_empty (n : nat) :
  cycle createFn (mk [] [] n) = mk [createFn n] [] (S n).
Proof.
  unfold cycle. rewrite acquire_create. unfold release. simpl.
  by rewrite indexOf_singleton.
Qed.

Lemma cycle_pop (l : list A) (obj : A) (n : nat) :
  cycle createFn (mk (l ++ [obj]) [] n) =
  if decide (length l < 50) then mk (l ++ [obj]) [] n else mk l [] n.
Proof.
  unfold cycle. rewrite acquire_pop. unfold release. simpl.
  by rewrite indexOf_singleton.
Qed.

(** X1. [n] rounds of [acquire] followed by [release] of the object
    acquired, on a new pool of [initialSize] objects, for any [createFn]:
    nothing is left active; a pool of 1 to 50 objects is as the constructor
    made it, and [createFn] is not called again; a larger pool loses one
    object a round until 50 are left; an empty pool creates one object in
    the first round and uses it ever after. *)
Theorem cycles_from_constructor (initialSize n : nat) :
  Nat.iter n (cycle createFn) (constructor createFn initialSize) =
  mk (map createFn (seq 0 (pool_size_after initialSize n))) []
     (initialSize `max` (n `min` 1)).
Proof.
  induction n as [|n IH].
  - simpl. rewrite constructor_spec. unfold pool_size_after.
    case_decide; [by subst|]. f_equal; [|lia]. do 2 f_equal. lia.
  - rewrite Nat.iter_succ, IH. unfold pool_size_after.
    case_decide as Hk.
    + subst. destruct n as [|n]; [apply cycle_empty|].
      rewrite !Nat.min_r by lia. apply (cycle_pop [] (createFn 0)).
    + set (m := (initialSize `min` 50) `max` (initialSize - n)).
      destruct m as [|m'] eqn:Hm; [lia|].
      replace (initialSize `max` (S n `min` 1)) with (initialSize `max` (n `min` 1)) by lia.
      rewrite seq_S, map_app.
      change (map createFn [0 + m']) with [createFn m'].
      rewrite cycle_pop, length_map, length_seq.
      case_decide.
      * replace ((initialSize `min` 50) `max` (initialSize - S n)) with (S m') by lia.
        by rewrite seq_S, map_app.
      * by replace ((initialSize `min` 50) `max` (initialSize - S n)) with m' by lia.
Qed.

Lemma call_bounds (c : Call A) (p : t A) :
  let p' := call createFn p c in
  length (pool p') <= 50 `max` length (pool p) /\
  created p <= created p' /\
  length (pool p') + length (active p') + created p <=
  length (pool p) + length (active p) + created p'.
Proof.
  destruct c as [|obj]; simpl.
  - destruct p as [pl act n]. destruct (decide (pl = [])) as [->|Hne].
    + rewrite acquire_create. simpl. rewrite length_app. simpl. lia.
    + destruct (exists_last Hne) as (l & obj & ->). rewrite acquire_pop. simpl.
      rewrite !length_app. simpl. lia.
  - unfold release. destruct (indexOf obj (active p)) as [i|] eqn:Hi; [|lia].
    apply indexOf_Some in Hi as [Hi _].
    pose proof (length_delete (active p) i (ex_intro _ obj Hi)).
    pose proof (lookup_lt_Some _ _ _ Hi).
    case_decide; simpl; rewrite ?length_app; simpl; lia.
Qed.

(** X4. Whatever calls of [acquire] and [release] are made, with whatever
    arguments: the pool never holds more than 50 objects, or than it held at
    first if that was more; and the objects held, pooled or active, are at
    most those held at first and those [createFn] was called for since. *)
Theorem pool_is_bounded (calls : list (Call A)) (p : t A) :
  let p' := run createFn calls p in
  length (pool p') <= 50 `max` length (pool p) /\
  created p <= created p' /\
  length (pool p') + length (active p') + created p <=
  length (pool p) + length (active p) + created p'.
Proof.
  revert p. induction calls as [|c calls IH]; intros p; simpl; [lia|].
  specialize (IH (call createFn p c)). pose proof (call_bounds c p). simpl in *. lia.
Qed.

End PoolFacts.

Lemma acquire_never_aliases_witness :
  let p := ObjectPool.run numbered
             [ObjectPool.Acquire; ObjectPool.Acquire; ObjectPool.Release 1;
              ObjectPool.Acquire; ObjectPool.Acquire]
             (ObjectPool.constructor numbered 2) in
  Inj (=) (=) numbered /\
  ObjectPool.active p = [0; 1; 2] /\
  (ObjectPool.acquire numbered p).1 ∉ ObjectPool.active p.
Proof.
  assert (Inj (=) (=) numbered) as Hinj by (by intros x y).
  split; [exact Hinj|]. split; [reflexivity|].
  exact (proj1 (acquire_never_aliases numbered 2
                  [ObjectPool.Acquire; ObjectPool.Acquire; ObjectPool.Release 1;
                   ObjectPool.Acquire; ObjectPool.Acquire] Hinj)).
Defined.

Lemma release_twice_witness :
  let p := ObjectPool.run numbered [ObjectPool.Acquire; ObjectPool.Acquire]
             (ObjectPool.constructor numbered 2) in
  NoDup (ObjectPool.active p) /\
  ObjectPool.release 0 (ObjectPool.release 0 p) = ObjectPool.release 0 p.
Proof.
  assert (NoDup (ObjectPool.active
                   (ObjectPool.run numbered [ObjectPool.Acquire; ObjectPool.Acquire]
                      (ObjectPool.constructor numbered 2)))) as Hnodup
    by (apply (bool_decide_unpack _); vm_compute; exact I).
  split; [exact Hnodup|].
  exact (proj2 (proj2 (release_twice 0 _ Hnodup))).
Defined.

(** ** The droplet loop *)

Section SweepFacts.

Context {num : Type} `{!JSNumber num}.

Variable random : nat -> num.

Lemma droplet_after_droplets (deltaTime : num) (e : Engine num) (d : Droplet.t num) :
  droplets (droplet_after random deltaTime e d).1 = droplets e.
Proof.
  unfold droplet_after. simpl. destruct (collides _ _); [|done].
  by destruct (createSplash_frame random (Droplet.x (set_splashed (move_droplet deltaTime e d)))
                 (waterSurfaceY e) (set_waterLevel (raise_level e) e)) as (_ & -> & _).
Qed.

Lemma droplet_after_set_droplets (deltaTime : num) (l : list (Droplet.t num))
    (e : Engine num) (d : Droplet.t num) :
  droplet_after random deltaTime (set_droplets l e) d =
  (set_droplets l (droplet_after random deltaTime e d).1,
   (droplet_after random deltaTime e d).2).
Proof.
  unfold droplet_after. simpl.
  change (collides (set_droplets l e)) with (collides e).
  change (move_droplet deltaTime (set_droplets l e)) with (move_droplet deltaTime e).
  destruct (collides _ _); [|done].
  f_equal. unfold createSplash. simpl. by case_decide.
Qed.

Lemma update_droplet_after (deltaTime : num) (i : nat) (e : Engine num) (d : Droplet.t num) :
  droplets e !! i = Some d ->
  update_droplet random deltaTime i e =
  set_droplets
    (take i (droplets e) ++ option_list (droplet_after random deltaTime e d).2
       ++ drop (S i) (droplets e))
    (droplet_after random deltaTime e d).1.
Proof.
  intros Hd. pose proof (droplet_after_droplets deltaTime e d) as Hsame.
  unfold update_droplet. rewrite Hd. unfold droplet_after in *. cbn [fst snd] in *.
  cbv zeta.
  set (e' := if collides e (move_droplet deltaTime e d) then _ else e) in *.
  rewrite Hsame.
  destruct (droplet_gone _); simpl.
  - by rewrite delete_take_drop.
  - rewrite insert_take_drop; [done|by eapply lookup_lt_Some].
Qed.

Lemma sweep_set_droplets (deltaTime : num) (l ds : list (Droplet.t num)) (e : Engine num) :
  sweep random deltaTime ds (set_droplets l e) =
  (set_droplets l (sweep random deltaTime ds e).1, (sweep random deltaTime ds e).2).
Proof.
  induction ds as [|d ds IH]; [done|].
  cbn [sweep]. cbv zeta. rewrite IH. cbn [fst snd].
  by rewrite droplet_after_set_droplets.
Qed.

Lemma sweep_app (deltaTime : num) (l1 l2 : list (Droplet.t num)) (e : Engine num) :
  sweep random deltaTime (l1 ++ l2) e =
  ((sweep random deltaTime l1 (sweep random deltaTime l2 e).1).1,
   (sweep random deltaTime l1 (sweep random deltaTime l2 e).1).2
     ++ (sweep random deltaTime l2 e).2).
Proof.
  induction l1 as [|d l1 IH]; [simpl; by destruct (sweep random deltaTime l2 e)|].
  cbn [app sweep]. cbv zeta. rewrite IH. cbn [fst snd]. by rewrite app_assoc.
Qed.

Lemma set_droplets_twice (l l' : list (Droplet.t num)) (e : Engine num) :
  set_droplets l (set_droplets l' e) = set_droplets l e.
Proof. done. Qed.

Lemma update_droplets_prefix (deltaTime : num) (n : nat) (e : Engine num) :
  n <= length (droplets e) ->
  update_droplets random deltaTime n e =
  set_droplets
    ((sweep random deltaTime (take n (droplets e)) e).2 ++ drop n (droplets e))
    (sweep random deltaTime (take n (droplets e)) e).1.
Proof.
  revert e. induction n as [|i IH]; intros e Hn.
  - simpl. rewrite drop_0. by destruct e.
  - destruct (lookup_lt_is_Some_2 (droplets e) i) as [d Hd]; [lia|].
    cbn [update_droplets]. rewrite (update_droplet_after _ _ _ _ Hd).
    assert (length (take i (droplets e)) = i) as Hlen by (rewrite length_take; lia).
    rewrite IH by (simpl; rewrite length_app; lia).
    cbn [droplets set_droplets].
    rewrite take_app_length', drop_app_length' by done.
    rewrite sweep_set_droplets. cbn [fst snd].
    rewrite (take_S_r _ _ _ Hd), sweep_app. cbn [sweep fst snd]. cbv zeta.
    rewrite app_nil_r, <- !app_assoc. done.
Qed.

Lemma update_droplets_sweep (deltaTime : num) (e : Engine num) :
  update_droplets random deltaTime (length (droplets e)) e =
  set_droplets (sweep random deltaTime (droplets e) e).2
               (sweep random deltaTime (droplets e) e).1.
Proof.
  rewrite update_droplets_prefix by done.
  by rewrite firstn_all, drop_all, app_nil_r.
Qed.

(** X5. At every number instance, [update] is two passes over lists.  The
    droplet loop, which runs over the indices from the last to the first
    and removes droplets from the array it runs over, visits every droplet
    once, from the last to the first, each with the water level, the
    splashes and the random numbers the droplets after it left; the droplets
    that stay keep their order.  The splash loop then ages every splash and
    drops those that are gone. *)
Theorem update_is_two_sweeps (deltaTime : num) (e : Engine num) :
  let swept := sweep random deltaTime (droplets e) e in
  update random deltaTime e =
  set_splashEffects (omap (splash_after deltaTime) (splashEffects swept.1))
    (set_droplets swept.2 swept.1).
Proof.
  simpl. unfold update. rewrite update_droplets_sweep.
  by rewrite update_splashes_spec.
Qed.


Lemma droplet_after_config (deltaTime : num) (e : Engine num) (d : Droplet.t num) :
  same_config e (droplet_after random deltaTime e d).1.
Proof.
  unfold droplet_after. simpl. destruct (collides _ _); [|apply same_config_refl].
  by destruct (createSplash_frame random (Droplet.x (set_splashed (move_droplet deltaTime e d)))
                 (waterSurfaceY e) (set_waterLevel (raise_level e) e)) as (_ & _ & ?).
Qed.

Lemma sweep_config (deltaTime : num) (ds : list (Droplet.t num)) (e : Engine num) :
  same_config e (sweep random deltaTime ds e).1.
Proof.
  induction ds as [|d ds IH]; [apply same_config_refl|].
  cbn [sweep]. cbv zeta. cbn [fst].
  eapply same_config_trans; [exact IH|apply droplet_after_config].
Qed.

Lemma droplet_after_survived (deltaTime : num) (e : Engine num) (d d' : Droplet.t num) :
  (droplet_after random deltaTime e d).2 = Some d' ->
  survived deltaTime (gravity e) d d'.
Proof.
  unfold droplet_after. cbn [snd].
  destruct (droplet_gone _) eqn:Hgone; [done|]. intros [= <-].
  unfold droplet_gone in Hgone. apply orb_false_iff in Hgone as [Hy Hlife].
  destruct (collides _ _); simpl in *; by repeat split.
Qed.

Lemma sweep_survivors (deltaTime : num) (ds : list (Droplet.t num)) (e : Engine num) :
  exists l : list (Droplet.t num),
    l `sublist_of` ds /\
    Forall2 (survived deltaTime (gravity e)) l (sweep random deltaTime ds e).2.
Proof.
  induction ds as [|d ds (l & Hsub & Hall)]; [by exists []|].
  cbn [sweep]. cbv zeta. cbn [snd].
  destruct (sweep_config deltaTime ds e) as (Hg & _).
  destruct (droplet_after random deltaTime (sweep random deltaTime ds e).1 d).2
    as [d'|] eqn:Hd'.
  - exists (d :: l). split; [by apply sublist_skip|].
    apply Forall2_cons. split; [|done].
    rewrite <- Hg. by apply droplet_after_survived.
  - exists l. split; [by apply sublist_cons|done].
Qed.

Lemma update_droplets_kept (deltaTime : num) (e : Engine num) :
  droplets (update random deltaTime e) = (sweep random deltaTime (droplets e) e).2.
Proof. unfold update. by rewrite update_droplets_sweep, update_splashes_spec. Qed.

Lemma update_survivors (deltaTime : num) (e : Engine num) :
  exists l : list (Droplet.t num),
    l `sublist_of` droplets e /\
    Forall2 (survived deltaTime (gravity e)) l (droplets (update random deltaTime e)).
Proof. rewrite update_droplets_kept. apply sweep_survivors. Qed.

(** X6. At every number instance, the droplets a tick leaves are droplets
    of before, each once and in their order, and each of them moved and aged
    once: [velocityY += gravity * deltaTime], [x += velocityX * deltaTime],
    [y += velocityY * deltaTime] with the new velocity,
    [life -= deltaTime * 0.001]; a [splashed] flag that was set stays set;
    and none of them was beyond 450 after the move, or had run out of life.
    So a tick never adds a droplet. *)
Theorem update_moves_each_droplet_once (deltaTime : num) (e : Engine num) :
  exists l : list (Droplet.t num),
    l `sublist_of` droplets e /\
    Forall2 (survived deltaTime (gravity e)) l (droplets (update random deltaTime e)) /\
    length (droplets (update random deltaTime e)) = length l /\
    length l <= length (droplets e).
Proof.
  destruct (update_survivors deltaTime e) as (l & Hsub & Hall).
  exists l. split; [done|]. split; [done|].
  split; [symmetry; by eapply Forall2_length|by apply sublist_length].
Qed.


Lemma drain_iter (deltaTime : num) (budget : nat) (e : Engine num) :
  (drain random deltaTime budget e).2 =
  Nat.iter (drain random deltaTime budget e).1 (update random deltaTime) e.
Proof.
  revert e. induction budget as [|budget IH]; intros e; [done|].
  cbn [drain]. case_decide; [|done].
  specialize (IH (update random deltaTime e)).
  destruct (drain random deltaTime budget (update random deltaTime e)) as [k e'].
  cbn [fst snd] in *. by rewrite Nat.iter_succ_r.
Qed.

Lemma drain_done (deltaTime : num) (budget n : nat) (e : Engine num) :
  droplets (Nat.iter n (update random deltaTime) e) = [] -> n <= budget ->
  droplets (drain random deltaTime budget e).2 = [] /\
  (drain random deltaTime budget e).1 <= n.
Proof.
  revert n e. induction budget as [|budget IH]; intros n e Hgone Hn.
  - assert (n = 0) as -> by lia. done.
  - cbn [drain]. case_decide as Hsome.
    + destruct n as [|n]; [simpl in Hgone; rewrite Hgone in Hsome; simpl in Hsome; lia|].
      rewrite Nat.iter_succ_r in Hgone.
      destruct (IH n (update random deltaTime e) Hgone) as [Hnone Hk]; [lia|].
      destruct (drain random deltaTime budget (update random deltaTime e)) as [k e'].
      cbn [fst snd] in *. split; [done|lia].
    + cbn [fst snd]. split; [|lia].
      destruct (droplets e); [done|simpl in Hsome; lia].
Qed.

End SweepFacts.


Section ExpiryFacts.

Open Scope Q_scope.

Variable random : nat -> Q.

Lemma update_lives (deltaTime L : Q) (e : Engine Q) :
  Forall (fun d => Droplet.life d <= L) (droplets e) ->
  Forall (fun d => Droplet.life d <= L - deltaTime * 0.001 /\ 0 < L)
         (droplets (update random deltaTime e)).
Proof.
  intros Hlives.
  destruct (update_survivors random deltaTime e) as (l & Hsub & Hall).
  assert (Forall (fun d => Droplet.life d <= L) l) as Hl.
  { rewrite Forall_forall in Hlives |- *. intros d Hd. apply Hlives.
    by eapply elem_of_sublist. }
  clear Hsub Hlives.
  induction Hall as [|d d' l l' Hd _ IH]; [done|].
  apply Forall_cons in Hl as [Hlife Hl].
  apply Forall_cons. split; [|by apply IH].
  destruct Hd as (_ & _ & _ & _ & _ & -> & _ & _ & Halive).
  exact_ops. exact_tests. lra.
Qed.

Lemma updates_lives (deltaTime L : Q) (n : nat) (e : Engine Q) :
  Forall (fun d => Droplet.life d <= L) (droplets e) ->
  Forall (fun d => Droplet.life d <= L - inject_Z (Z.of_nat n) * (deltaTime * 0.001))
         (droplets (Nat.iter n (update random deltaTime) e)).
Proof.
  intros Hlives. induction n as [|n IH].
  - eapply Forall_impl; [exact Hlives|]. intros d Hd. cbv beta in Hd |- *.
    change (inject_Z (Z.of_nat 0)) with 0. lra.
  - rewrite Nat.iter_succ.
    eapply Forall_impl; [exact (update_lives deltaTime _ _ IH)|].
    intros d [Hd _]. cbv beta in Hd |- *. rewrite closed_form_S. lra.
Qed.

Lemma lives_run_out (deltaTime L : Q) (n : nat) (e : Engine Q) :
  Forall (fun d => Droplet.life d <= L) (droplets e) ->
  L <= inject_Z (Z.of_nat n) * (deltaTime * 0.001) ->
  droplets (Nat.iter (S n) (update random deltaTime) e) = [].
Proof.
  intros Hlives Hn. rewrite Nat.iter_succ.
  pose proof (updates_lives deltaTime L n e Hlives) as Hthen.
  pose proof (update_lives deltaTime _ _ Hthen) as Hnext.
  destruct (droplets (update random deltaTime _)) as [|d ds]; [done|].
  apply Forall_cons in Hnext as [[_ Hpos] _]. lra.
Qed.

Lemma run_lives (calls : list (Call Q)) (e : Engine Q) :
  Forall forwards calls ->
  Forall (fun d => Droplet.life d <= 1) (droplets e) ->
  Forall (fun d => Droplet.life d <= 1) (droplets (run random calls e)).
Proof.
  intros Hcalls. revert e.
  induction Hcalls as [|c calls Hc _ IH]; intros e He; [done|].
  simpl. apply IH. destruct c as [x y|deltaTime|x y]; cbn [call].
  - unfold addDroplet. case_decide; [done|]. simpl.
    apply Forall_app. split; [done|]. apply Forall_singleton. simpl. lra.
  - eapply Forall_impl; [exact (update_lives deltaTime 1 e He)|].
    intros d [Hd _]. cbv beta in Hd |- *. simpl in Hc. lra.
  - by destruct (createSplash_frame random x y e) as (_ & -> & _).
Qed.

(** X8. In exact arithmetic, on an engine reached from a new one by any
    calls whose ticks run forwards: no droplet has more life than 1, and
    the loop of [testMemoryUsageStability] (ticks of 16.67 ms, at most 1000
    of them) ends with no droplet left, after at most 61 iterations. *)
Theorem drain_empties (calls : list (Call Q)) :
  Forall forwards calls ->
  let e := run random calls constructor in
  let r := drain random 16.67 1000 e in
  Forall (fun d => Droplet.life d <= 1) (droplets e) /\
  droplets r.2 = [] /\ (r.1 <= 61)%nat.
Proof.
  intros Hcalls e r.
  assert (Forall (fun d => Droplet.life d <= 1) (droplets e)) as Hlives
    by (by apply run_lives).
  split; [done|].
  apply (drain_done random 16.67 1000 61 e); [|lia].
  apply (lives_run_out 16.67 1 60 e Hlives). by vm_compute.
Qed.

End ExpiryFacts.

(** ** Signs in binary64 arithmetic

    Rounding keeps the sign: the product and the sum of two values that are
    not negative are not negative, whatever their size (an overflow gives
    the infinity of that sign), and so is the quotient of a value that is
    not negative by one whose sign bit is clear. *)

Section SignFacts.

Lemma sf_sign_not_negative (x : spec_float) :
  sf_sign false x = true -> sf_not_negative x = true.
Proof. by destruct x as [[|]|[|]| |[|] m e]. Qed.

Lemma binary_round_aux_sign (s : bool) (mx ex : Z) (lx : location) :
  sf_sign s (binary_round_aux prec emax s mx ex lx) = true.
Proof.
  unfold binary_round_aux.
  destruct (shr_fexp prec emax mx ex lx) as [mrs' e'].
  destruct (shr_fexp prec emax _ e' loc_Exact) as [mrs'' e''].
  destruct (shr_m mrs''); [|destruct (Z.leb _ _)|]; simpl; by rewrite ?bool_decide_eq_true.
Qed.

Lemma binary_round_sign (s : bool) (mx : positive) (ex : Z) :
  sf_sign s (binary_round prec emax s mx ex) = true.
Proof.
  unfold binary_round. destruct (shl_align _ _ _) as [mz ez].
  apply binary_round_aux_sign.
Qed.

Lemma SFmul_not_negative (x y : spec_float) :
  sf_not_negative x = true -> sf_not_negative y = true ->
  sf_not_negative (SF64mul x y) = true.
Proof.
  destruct x as [sx|[|]| |[|] mx ex], y as [sy|[|]| |[|] my ey]; try done.
  intros _ _. apply sf_sign_not_negative. apply binary_round_aux_sign.
Qed.

Lemma SFadd_not_negative (x y : spec_float) :
  sf_not_negative x = true -> sf_not_negative y = true ->
  sf_not_negative (SF64add x y) = true.
Proof.
  destruct x as [[|]|[|]| |[|] mx ex], y as [[|]|[|]| |[|] my ey]; try done.
  intros _ _. apply sf_sign_not_negative.
  unfold SF64add, SFadd. cbn [cond_Zopp Z.add binary_normalize].
  apply binary_round_sign.
Qed.

Lemma not_negative_spec (x : float) :
  not_negative x <-> sf_not_negative (Prim2SF x) = true.
Proof.
  unfold not_negative. cbn [ltb Binary64]. rewrite ltb_spec.
  change (Prim2SF (lit 0)) with (S754_zero false).
  by destruct (Prim2SF x) as [[|]|[|]| |[|] m e].
Qed.

Lemma mul_not_negative (x y : float) :
  not_negative x -> not_negative y -> not_negative (mul x y).
Proof.
  rewrite !not_negative_spec. cbn [mul Binary64]. rewrite mul_spec.
  apply SFmul_not_negative.
Qed.

Lemma add_not_negative (x y : float) :
  not_negative x -> not_negative y -> not_negative (add x y).
Proof.
  rewrite !not_negative_spec. cbn [add Binary64]. rewrite add_spec.
  apply SFadd_not_negative.
Qed.

End SignFacts.

Section DivisionSigns.

Lemma SFdiv_not_negative (x y : spec_float) :
  sf_not_negative x = true -> sf_sign false y = true ->
  sf_not_negative (SF64div x y) = true.
Proof.
  destruct x as [[|]|[|]| |[|] mx ex], y as [[|]|[|]| |[|] my ey]; try done.
  intros _ _. apply sf_sign_not_negative. unfold SF64div, SFdiv.
  destruct (SFdiv_core_binary _ _ _ _ _ _) as [[mz ez] lz].
  apply binary_round_aux_sign.
Qed.

Lemma SFdiv_sign_clear (x y : spec_float) :
  sf_sign false x = true -> sf_sign false y = true ->
  sf_sign false (SF64div x y) = true.
Proof.
  destruct x as [[|]|[|]| |[|] mx ex], y as [[|]|[|]| |[|] my ey]; try done.
  intros _ _. unfold SF64div, SFdiv.
  destruct (SFdiv_core_binary _ _ _ _ _ _) as [[mz ez] lz].
  apply binary_round_aux_sign.
Qed.

Lemma above_zero_sign_clear (x : float) : above_zero x -> sign_clear x.
Proof.
  unfold above_zero, sign_clear. cbn [ltb Binary64]. rewrite ltb_spec.
  change (Prim2SF (lit 0)) with (S754_zero false).
  by destruct (Prim2SF x) as [[|]|[|]| |[|] m e].
Qed.

Lemma div_not_negative (x y : float) :
  not_negative x -> sign_clear y -> not_negative (div x y).
Proof.
  rewrite !not_negative_spec. unfold sign_clear. cbn [div Binary64]. rewrite div_spec.
  apply SFdiv_not_negative.
Qed.

Lemma of_Z_sign_clear (z : Z) : (0 <= z)%Z -> sign_clear (Binary64Ops.of_Z z).
Proof.
  intros Hz. destruct z as [|p|p]; [done| |lia].
  unfold sign_clear, Binary64Ops.of_Z. rewrite of_uint63_spec.
  pose proof (Uint63.to_Z_bounded (Uint63.of_Z (Z.pos p))) as [Hlo _].
  destruct (Uint63.to_Z _) as [|q|q]; [done| |lia].
  apply binary_round_sign.
Qed.

Lemma of_nat_sign_clear (n : nat) : sign_clear (of_nat n).
Proof.
  unfold sign_clear, of_nat. cbn [lit Binary64]. unfold Binary64Ops.of_Q.
  rewrite div_spec. apply SFdiv_sign_clear.
  - apply of_Z_sign_clear. simpl. lia.
  - by apply of_Z_sign_clear.
Qed.

End DivisionSigns.

(** ** Any [deltaTime], in binary64 arithmetic *)

Section Binary64Radii.

Variable random : nat -> float.

Hypothesis random_not_negative : forall k : nat, not_negative (random k).

Lemma new_splash_expanding (k : nat) (x y : float) : expanding (new_splash random k x y).
Proof.
  split; [reflexivity|]. cbn [new_splash Splash.expansionSpeed].
  apply add_not_negative; [reflexivity|].
  apply mul_not_negative; [apply random_not_negative|reflexivity].
Qed.

Lemma age_splash_expanding (deltaTime : float) (s : Splash.t float) :
  not_negative deltaTime -> expanding s -> expanding (age_splash deltaTime s).
Proof.
  intros Hdt [Hr Hs]. split; [|done]. cbn [age_splash Splash.radius].
  apply add_not_negative; [done|]. by apply mul_not_negative.
Qed.

Lemma run_expanding (calls : list (Call float)) (e : Engine float) :
  Forall not_backwards calls ->
  Forall expanding (splashEffects e) ->
  Forall expanding (splashEffects (run random calls e)).
Proof.
  intros Hcalls. revert e.
  induction Hcalls as [|c calls Hc _ IH]; intros e He; [done|].
  simpl. apply IH. destruct c as [x y|deltaTime|x y]; cbn [call].
  - by destruct (addDroplet_frame random x y e) as (_ & -> & _).
  - apply update_Forall; [by intros; apply new_splash_expanding|
                          by intros; apply age_splash_expanding|done].
  - apply createSplash_Forall; [by intros; apply new_splash_expanding|done].
Qed.

End Binary64Radii.

Section AnyDeltaTime.

Open Scope js_scope.

Lemma binary64_update_level (random : nat -> float) (calls : list (Call float))
    (deltaTime : float) :
  let e := run random calls constructor in
  let e' := update random deltaTime e in
  (lit 0 <=? waterLevel e') = true /\ (waterLevel e' <=? lit 100) = true /\
  (waterLevel e <=? waterLevel e') = true.
Proof.
  intros e e'.
  destruct (run_keeps random calls constructor) as ((_ & Hinc & _) & _ & _ & (k & Hk & _)).
  destruct (update_ticked random deltaTime e) as (_ & _ & (k' & Hk' & _) & _).
  fold e in Hinc, Hk. fold e' in Hk'. rewrite Hinc in Hk'.
  change (waterLevel e = level_after k) in Hk.
  assert (waterLevel e' = level_after (k' + k)) as Hk''.
  { rewrite Hk', Hk. symmetry. apply Nat.iter_add. }
  rewrite Hk, Hk''.
  split; [apply level_after_bounds|]. split; [apply level_after_bounds|].
  apply level_after_mono. lia.
Qed.

Lemma binary64_update_radii (random : nat -> float) (calls : list (Call float))
    (deltaTime : float) :
  (forall k : nat, not_negative (random k)) ->
  Forall not_backwards calls -> not_negative deltaTime ->
  Forall (fun s => not_negative (Splash.radius s))
         (splashEffects (update random deltaTime (run random calls constructor))).
Proof.
  intros Hrandom Hcalls Hdt.
  assert (Forall expanding
            (splashEffects (update random deltaTime (run random calls constructor))))
    as Hall.
  { apply update_Forall; [by intros; apply new_splash_expanding|
                          by intros; apply age_splash_expanding|].
    by apply run_expanding. }
  eapply Forall_impl; [exact Hall|]. by intros s [? _].
Qed.

End AnyDeltaTime.

(** An earlier tick that ran backwards is seen later: after a splash and a
    tick of -1 ms, a tick of 0 ms leaves the splash with the radius
    2 - 65 = -63, in exact and in binary64 arithmetic. *)
Lemma backwards_tick_is_remembered :
  (let e := update exact_half 0%Q
              (run exact_half [CreateSplash 100%Q 200%Q; Update (-1)%Q] constructor) in
   length (splashEffects e) = 1 /\
   forallb (fun s => Qeq_bool (Splash.radius s) (-63)) (splashEffects e) = true) /\
  map Splash.radius
    (splashEffects (update half (lit 0)
       (run half [CreateSplash (lit 100) (lit 200); Update (lit (-1))] constructor))) =
    [lit (-63)].
Proof. by vm_compute. Qed.

Section AnyDeltaTimeFacts.

Open Scope js_scope.

(** C8, as the code has it.  [update] is a function of the engine and of
    [deltaTime] that is defined everywhere, and it uses [deltaTime] as it
    is given.

    In binary64 arithmetic, on an engine reached from a new one by any
    calls, and for every [deltaTime] (zero, negative, however large, an
    infinity or NaN): the water level after the tick is within [0, 100] and
    not below what it was.  No radius compares below 0 after the tick under
    three conditions: [Math.random()] never answers below 0, no earlier
    tick had a negative [deltaTime], and the [deltaTime] of this tick is not
    negative.  A negative [deltaTime], now or earlier, does leave a negative
    radius.

    In exact arithmetic the same holds, with the same conditions.

    At every number instance, and on every engine, the tick integrates
    with the raw [deltaTime]: every splash it leaves is an earlier splash
    with [radius + expansionSpeed * deltaTime], [opacity - deltaTime * 0.002]
    and [life - deltaTime * 0.001]; and the droplets it leaves are droplets
    of before, in their order, each with
    [velocityY + gravity * deltaTime], [x + velocityX * deltaTime],
    [y + velocityY * deltaTime] (the new [velocityY]) and
    [life - deltaTime * 0.001]. *)
Theorem update_tolerates_any_deltaTime :
  (forall (random : nat -> float) (calls : list (Call float)) (deltaTime : float),
     let e := run random calls constructor in
     let e' := update random deltaTime e in
     (lit 0 <=? waterLevel e') = true /\
     (waterLevel e' <=? lit 100) = true /\
     (waterLevel e <=? waterLevel e') = true /\
     ((forall k : nat, not_negative (random k)) ->
      Forall not_backwards calls ->
      not_negative deltaTime ->
      Forall (fun s => not_negative (Splash.radius s)) (splashEffects e'))) /\
  (forall (random : nat -> Q) (calls : list (Call Q)) (deltaTime : Q),
     let e := run random calls constructor in
     let e' := update random deltaTime e in
     (0 <= waterLevel e' <= 100)%Q /\
     (waterLevel e <= waterLevel e')%Q /\
     ((forall k : nat, (0 <= random k)%Q) ->
      Forall forwards calls ->
      (0 <= deltaTime)%Q ->
      Forall (fun s => (0 <= Splash.radius s)%Q) (splashEffects e'))) /\
  (forall (num : Type) (N : JSNumber num) (random : nat -> num) (deltaTime : num)
          (e : Engine num),
     let e' := update random deltaTime e in
     (forall s' : Splash.t num,
        s' ∈ splashEffects e' ->
        exists s : Splash.t num,
          s ∈ splashEffects (update_droplets random deltaTime (length (droplets e)) e) /\
          Splash.radius s' = Splash.radius s + Splash.expansionSpeed s * deltaTime /\
          Splash.opacity s' = Splash.opacity s - deltaTime * lit 0.002 /\
          Splash.life s' = Splash.life s - deltaTime * lit 0.001) /\
     (exists l : list (Droplet.t num),
        l `sublist_of` droplets e /\
        Forall2 (survived deltaTime (gravity e)) l (droplets e'))).
Proof.
  split; [|split].
  - intros random calls deltaTime e e'.
    destruct (binary64_update_level random calls deltaTime) as (H0 & H100 & Hmono).
    split; [done|]. split; [done|]. split; [done|].
    intros Hrandom Hcalls Hdt. by apply binary64_update_radii.
  - intros random calls deltaTime. apply exact_update_any_deltaTime.
  - intros num N random deltaTime e e'. split.
    + intros s' Hs'.
      destruct (update_ages_splashes random deltaTime e s' Hs') as (s & Hs & -> & _).
      exists s. by repeat split.
    + apply update_survivors.
Qed.

End AnyDeltaTimeFacts.

Lemma update_tolerates_any_deltaTime_witness :
  let calls := [CreateSplash (lit 100) (lit 200); Update (lit 16.67)] in
  let e := update half (lit 16.67) (run half calls constructor) in
  let e' := update exact_half 16.67%Q (run exact_half one_splash constructor) in
  ((forall k : nat, not_negative (half k)) /\
   Forall not_backwards calls /\
   not_negative (lit 16.67) /\
   Forall (fun s => not_negative (Splash.radius s)) (splashEffects e) /\
   length (splashEffects e) = 1) /\
  ((forall k : nat, (0 <= exact_half k)%Q) /\
   Forall forwards one_splash /\
   (0 <= 16.67)%Q /\
   Forall (fun s => (0 <= Splash.radius s)%Q) (splashEffects e') /\
   length (splashEffects e') = 1) /\
  (exists s' s : Splash.t Q,
     s' ∈ splashEffects e' /\
     s ∈ splashEffects (run exact_half one_splash constructor) /\
     Splash.radius s' = (Splash.radius s + Splash.expansionSpeed s * 16.67)%Q).
Proof.
  intros calls e e'.
  destruct update_tolerates_any_deltaTime as (Hbinary64 & Hexact & Hraw).
  split; [|split].
  - assert (forall k : nat, not_negative (half k)) as H1 by (intros k; reflexivity).
    assert (Forall not_backwards calls) as H2
      by (apply Forall_cons_2; [exact I|apply Forall_singleton; reflexivity]).
    assert (not_negative (lit 16.67)) as H3 by reflexivity.
    split; [exact H1|]. split; [exact H2|]. split; [exact H3|]. split; [|reflexivity].
    exact (proj2 (proj2 (proj2 (Hbinary64 half calls (lit 16.67)))) H1 H2 H3).
  - assert (forall k : nat, (0 <= exact_half k)%Q) as H1 by (intros k; by vm_compute).
    assert (Forall forwards one_splash) as H2 by (apply Forall_singleton; exact I).
    assert (0 <= 16.67)%Q as H3 by (by vm_compute).
    split; [exact H1|]. split; [exact H2|]. split; [exact H3|]. split; [|reflexivity].
    exact (proj2 (proj2 (Hexact exact_half one_splash 16.67%Q)) H1 H2 H3).
  - destruct (splashEffects e') as [|s' l] eqn:Hleft; [by vm_compute in Hleft|].
    assert (s' ∈ splashEffects e') as Hin by (rewrite Hleft; apply list_elem_of_here).
    destruct (proj1 (Hraw Q _ exact_half 16.67%Q (run exact_half one_splash constructor))
                s' Hin) as (s & Hs & Hradius & _).
    exists s', s. split; [by rewrite <- Hleft|]. split; [exact Hs|exact Hradius].
Defined.

(** ** The life of a droplet in binary64 arithmetic *)

Section Binary64Expiry.

Variable random : nat -> float.

Lemma life_after_S (k : nat) :
  life_after (S k) = sub (life_after k) (mul (lit 16.67) (lit 0.001)).
Proof. reflexivity. Qed.

Lemma life_after_60 : leb (life_after 60) (lit 0) = true.
Proof. vm_compute. reflexivity. Qed.

Lemma aged_weaken (n m : nat) (d : Droplet.t float) : n <= m -> aged m d -> aged n d.
Proof. intros Hnm (k & Hk & Hlife). exists k. split; [lia|done]. Qed.

Lemma update_aged (n : nat) (e : Engine float) :
  Forall (aged n) (droplets e) ->
  Forall (aged (S n)) (droplets (update random (lit 16.67) e)).
Proof.
  intros Hall.
  destruct (update_survivors random (lit 16.67) e) as (l & Hsub & Hsurvived).
  assert (Forall (aged n) l) as Hl.
  { rewrite Forall_forall in Hall |- *. intros d Hd. apply Hall.
    by eapply elem_of_sublist. }
  clear Hsub Hall.
  induction Hsurvived as [|d d' l l' Hd _ IH]; [done|].
  apply Forall_cons in Hl as [(k & Hk & Hlife) Hl].
  apply Forall_cons. split; [|by apply IH].
  destruct Hd as (_ & _ & _ & _ & _ & Haged & _ & _ & Halive).
  assert (k <> 60) as Hyoung.
  { intros ->. rewrite Hlife, life_after_60 in Halive. done. }
  exists (S k). split; [lia|]. by rewrite Haged, Hlife, life_after_S.
Qed.

Lemma updates_aged (n : nat) (e : Engine float) :
  Forall (aged 0) (droplets e) ->
  Forall (aged n) (droplets (Nat.iter n (update random (lit 16.67)) e)).
Proof.
  intros Hall. induction n as [|n IH]; [done|].
  rewrite Nat.iter_succ. by apply update_aged.
Qed.

Lemma run_aged (calls : list (Call float)) (e : Engine float) :
  Forall steady calls ->
  Forall (aged 0) (droplets e) ->
  Forall (aged 0) (droplets (run random calls e)).
Proof.
  intros Hcalls. revert e.
  induction Hcalls as [|c calls Hc _ IH]; intros e He; [done|].
  simpl. apply IH. destruct c as [x y|deltaTime|x y]; cbn [call].
  - unfold addDroplet. case_decide; simpl; [done|].
    apply Forall_app. split; [done|]. apply Forall_singleton.
    exists 0. split; [lia|reflexivity].
  - simpl in Hc. subst deltaTime.
    eapply Forall_impl; [exact (update_aged 0 e He)|].
    intros d. apply aged_weaken. lia.
  - by destruct (createSplash_frame random x y e) as (_ & -> & _).
Qed.

(** X7. In binary64 arithmetic, on an engine reached from a new one by any
    calls whose ticks are the frames of 16.67 ms that the callers of the
    suite pass: every droplet has the life that a number of such ticks, at
    most 60, leave of 1; 61 more ticks remove every droplet; and the loop
    of [testMemoryUsageStability] (ticks of 16.67 ms, at most 1000) ends
    with no droplet after at most 61 iterations, the engine being the one
    those iterations of [update] leave.  The count of ticks is not the
    [life / (deltaTime * 0.001)] of exact arithmetic for every [deltaTime]:
    a droplet far above the canvas has the life [1.25 * 2^-53] after ten
    ticks of 100 ms, lives through the eleventh, and is removed by the
    twelfth. *)
Theorem droplets_expire (calls : list (Call float)) :
  Forall steady calls ->
  let e := run random calls constructor in
  let r := drain random (lit 16.67) 1000 e in
  (Forall (aged 0) (droplets e) /\
   droplets (Nat.iter 61 (update random (lit 16.67)) e) = [] /\
   droplets r.2 = [] /\ r.1 <= 61 /\
   r.2 = Nat.iter r.1 (update random (lit 16.67)) e) /\
  (map Droplet.life (droplets (Nat.iter 10 (update half (lit 100)) high_click)) =
     [0x1.4p-53%float] /\
   length (droplets (Nat.iter 11 (update half (lit 100)) high_click)) = 1 /\
   droplets (Nat.iter 12 (update half (lit 100)) high_click) = []).
Proof.
  intros Hcalls e r.
  split; [|by vm_compute].
  assert (Forall (aged 0) (droplets e)) as Hall by (by apply run_aged).
  assert (droplets (Nat.iter 61 (update random (lit 16.67)) e) = []) as Hgone.
  { pose proof (updates_aged 61 e Hall) as Hthen.
    destruct (droplets (Nat.iter 61 (update random (lit 16.67)) e)) as [|d ds]; [done|].
    apply Forall_cons in Hthen as [(k & Hk & _) _]. lia. }
  split; [done|]. split; [done|].
  destruct (drain_done random (lit 16.67) 1000 61 e Hgone) as [? ?]; [lia|].
  split; [done|]. split; [done|]. apply drain_iter.
Qed.

End Binary64Expiry.

(** ** Clicks and the water they bring *)

Section SpawnFacts.

Context {num : Type} `{!JSNumber num}.

Variable random : nat -> num.

(** X9. At every number instance, clicks in a row (as the 100 clicks of
    [testHeavyDropletLoad]) are served in their order until the cap is
    reached, and the later ones are lost: the droplets after them are the
    droplets of before followed by droplets at the first
    [maxDroplets - length] points; the count is
    [min(maxDroplets, length + clicks)], or stays as it was when it was
    above the cap; the water level and the splashes are untouched. *)
Theorem addDroplets_first_come (points : list (num * num)) (e : Engine num) :
  let e' := run random (addDroplets points) e in
  map position (droplets e') =
    map position (droplets e) ++ take (maxDroplets e - length (droplets e)) points /\
  take (length (droplets e)) (droplets e') = droplets e /\
  length (droplets e') =
    length (droplets e) `max` (maxDroplets e `min` (length (droplets e) + length points)) /\
  waterLevel e' = waterLevel e /\
  splashEffects e' = splashEffects e.
Proof.
  revert e. induction points as [|[x y] points IH]; intros e.
  - simpl. rewrite take_nil, app_nil_r, firstn_all. repeat split; lia.
  - cbn [addDroplets map run foldl call fst snd]. cbv zeta.
    fold (addDroplets points). fold (run random (addDroplets points) (addDroplet random x y e).2).
    destruct (IH (addDroplet random x y e).2) as (Hpos & Hold & Hlen & Hlevel & Hsplash).
    rewrite Hpos, Hlen, Hlevel, Hsplash. clear IH Hpos Hlen Hlevel Hsplash.
    unfold addDroplet in *. case_decide as Hfull; cbn [snd] in *.
    + replace (maxDroplets e - length (droplets e)) with 0 by lia.
      rewrite take_0. cbn [length]. repeat split; try done. lia.
    + cbn [droplets maxDroplets set_randomCalls set_droplets waterLevel splashEffects] in *.
      rewrite length_app in *. cbn [length] in *.
      replace (maxDroplets e - length (droplets e))
        with (S (maxDroplets e - (length (droplets e) + 1))) by lia.
      rewrite map_app, <- app_assoc. cbn [map app take position new_droplet Droplet.x Droplet.y].
      repeat split; try done; [|lia].
      apply (f_equal (take (length (droplets e)))) in Hold.
      rewrite take_take in Hold. rewrite Nat.min_l in Hold by lia.
      rewrite Hold. by rewrite take_app_length.
Qed.

End SpawnFacts.

Section Conservation.

Variable random : nat -> float.

Open Scope Q_scope.

(** X10. In binary64 arithmetic, whatever calls were made on a new engine:
    the water level is the level after a number [k] of collisions that,
    with the droplets still unsplashed, is at most the number of
    [addDroplet] calls; its value is within 0.01 of [min(100, 0.8 * k)] and
    below 0.8 times the number of [addDroplet] calls plus 0.01; and it is
    at most the level that as many collisions as [addDroplet] calls give.
    It is not always at most the binary64 product of 0.8 and that number:
    15 collisions give 12.000000000000002, above [0.8 * 15 = 12]. *)
Theorem level_is_paid_for (calls : list (Call float)) :
  let e := run random calls constructor in
  (exists (k : nat) (q : Q),
     (k + unsplashed (droplets e) <= spawns calls)%nat /\
     waterLevel e = level_after k /\
     exact_value (waterLevel e) = Some q /\
     Qabs (q - Qmin 100 (inject_Z (Z.of_nat k) * 0.8)) < 0.01 /\
     q < inject_Z (Z.of_nat (spawns calls)) * 0.8 + 0.01) /\
  leb (waterLevel e) (level_after (spawns calls)) = true /\
  ltb (mul (lit 0.8) (of_nat 15)) (level_after 15) = true.
Proof.
  intros e.
  destruct (run_keeps random calls constructor) as (_ & _ & _ & (k & Hk & Hu)).
  fold e in Hk, Hu.
  change (waterLevel e = level_after k) in Hk.
  change (k + unsplashed (droplets e) <= 0 + spawns calls)%nat in Hu.
  split; [|split; [|by vm_compute]].
  - pose proof (binary64_level_within_tolerance k) as Htol.
    unfold within_tolerance in Htol. rewrite <- Hk in Htol.
    destruct (exact_value (waterLevel e)) as [q|] eqn:Hq; [|done].
    apply exact_ltb in Htol. unfold closed_form in Htol.
    exists k, q. split; [lia|]. split; [done|]. split; [done|]. split; [done|].
    assert (inject_Z (Z.of_nat k) <= inject_Z (Z.of_nat (spawns calls))) as Hle
      by (rewrite <- Zle_Qle; lia).
    pose proof (Q.le_min_r 100 (inject_Z (Z.of_nat k) * 0.8)).
    revert Htol. apply Qabs_case; intros; lra.
  - rewrite Hk. apply level_after_mono. lia.
Qed.

End Conservation.

(** ** Runs of the scaler *)

Section ScalerRuns.

Import PerformanceScaler.

Open Scope Q_scope.

Lemma adjustPerformance_keeps (now : Q) (monitor : FrameRateMonitor.t Q) (s : PerformanceScaler.t Q) :
  0 <= minPerformanceLevel s ->
  minPerformanceLevel s <= performanceLevel s <= 1 ->
  let s' := (adjustPerformance now monitor s).2 in
  minPerformanceLevel s' = minPerformanceLevel s /\
  adjustmentCooldown s' = adjustmentCooldown s /\
  minPerformanceLevel s <= performanceLevel s' <= 1 /\
  (lastAdjustment s' = lastAdjustment s \/ lastAdjustment s' = now).
Proof.
  intros H0 Hlevel. simpl. unfold adjustPerformance.
  destruct (ltb _ _); cbn [snd]; [by auto|].
  cbn [minPerformanceLevel adjustmentCooldown performanceLevel lastAdjustment].
  pose proof (ladder_bounds (FrameRateMonitor.getCurrentFps monitor) s H0 Hlevel).
  auto.
Qed.

(** X11. In exact arithmetic, for a scaler whose level is between its floor
    (at least 0) and 1: whatever calls of [adjustPerformance] follow, at
    whatever clock readings and frame rates, the level stays between the
    floor and 1, the floor and the cooldown are as they were, and
    [lastAdjustment] is as it was or the clock reading of one of the
    calls. *)
Theorem adjustments_keep (calls : list (Q * FrameRateMonitor.t Q)) (s : PerformanceScaler.t Q) :
  0 <= minPerformanceLevel s ->
  minPerformanceLevel s <= performanceLevel s <= 1 ->
  let s' := adjustments calls s in
  minPerformanceLevel s' = minPerformanceLevel s /\
  adjustmentCooldown s' = adjustmentCooldown s /\
  minPerformanceLevel s <= performanceLevel s' <= 1 /\
  (lastAdjustment s' = lastAdjustment s \/ lastAdjustment s' ∈ calls.*1).
Proof.
  revert s. induction calls as [|[now monitor] calls IH]; intros s H0 Hlevel.
  - simpl. auto.
  - destruct (adjustPerformance_keeps now monitor s H0 Hlevel) as (Hmin & Hcool & Hl & Hlast).
    cbn [adjustments foldl fst snd] in *.
    destruct (IH (adjustPerformance now monitor s).2) as (Hmin' & Hcool' & Hl' & Hlast');
      rewrite ?Hmin; [done..|].
    fold (adjustments calls (adjustPerformance now monitor s).2).
    rewrite Hmin', Hcool', Hmin, Hcool. rewrite Hmin in Hl'.
    split; [done|]. split; [done|]. split; [done|].
    rewrite fmap_cons. cbn [fst].
    destruct Hlast' as [->|Hin]; [|right; by apply list_elem_of_further].
    destruct Hlast as [->| ->]; [by left|right; apply list_elem_of_here].
Qed.

Lemma exact_floor_le (a : Q) : Math_floor a <= a.
Proof. apply Qfloor_le. Qed.

Lemma exact_floor_mono (a b : Q) : a <= b -> Math_floor a <= Math_floor b.
Proof. intros Hab. simpl. unfold ExactOps.floor. rewrite <- Zle_Qle. by apply Qfloor_resp_le. Qed.

(** X12. In exact arithmetic, [getScaledValue] is an integer and at least
    1; it is at most the base value when that is at least 1 and the level
    is within [0, 1]; and for a base value that is not negative it grows
    with the level. *)
Theorem getScaledValue_spec (baseValue : Q) (s : PerformanceScaler.t Q) :
  1 <= getScaledValue baseValue s /\
  (exists z : Z, getScaledValue baseValue s = inject_Z z) /\
  (0 <= performanceLevel s <= 1 -> 1 <= baseValue -> getScaledValue baseValue s <= baseValue) /\
  (forall s' : PerformanceScaler.t Q,
     0 <= baseValue -> performanceLevel s <= performanceLevel s' ->
     getScaledValue baseValue s <= getScaledValue baseValue s').
Proof.
  unfold getScaledValue. exact_ops.
  split; [|split; [|split]].
  - destruct (exact_max 1 (Math_floor (baseValue * performanceLevel s))) as [[? ->]|[? ->]]; lra.
  - destruct (exact_max 1 (Math_floor (baseValue * performanceLevel s))) as [[? ->]|[? ->]].
    + by eexists.
    + by exists 1%Z.
  - intros Hlevel Hbase.
    pose proof (exact_floor_le (baseValue * performanceLevel s)).
    destruct (exact_max 1 (Math_floor (baseValue * performanceLevel s))) as [[? ->]|[? ->]];
      nra.
  - intros s' Hbase Hle.
    assert (baseValue * performanceLevel s <= baseValue * performanceLevel s') as Hmul by nra.
    pose proof (exact_floor_mono _ _ Hmul).
    destruct (exact_max 1 (Math_floor (baseValue * performanceLevel s))) as [[? ->]|[? ->]];
      destruct (exact_max 1 (Math_floor (baseValue * performanceLevel s'))) as [[? ->]|[? ->]];
      lra.
Qed.

End ScalerRuns.

Section ScalingTest.

Open Scope Q_scope.

(** X13. In exact arithmetic, when the four calls of
    [testPerformanceScaling] read a clock that does not run backwards and
    span less than the cooldown of 2000 ms: the test finds scaling
    ([hasScaling], status pass) exactly when the second call reads less than
    2000 and the fourth at least 2000, that is when the cooldown since 0
    ends at the third or the fourth call.  Otherwise the only adjustment
    is made at 60 or 45 fps, or none is, and the level stays 1. *)
Theorem testPerformanceScaling_window (now : nat -> Q) :
  now 1%nat <= now 2%nat -> now 2%nat <= now 3%nat -> now 3%nat <= now 4%nat ->
  now 4%nat - now 1%nat < 2000 ->
  hasScaling (testPerformanceScaling now) = true <->
  now 2%nat < 2000 /\ 2000 <= now 4%nat.
Proof.
  intros H12 H23 H34 Hspan.
  unfold testPerformanceScaling. cbn [scaling_loop].
  unfold PerformanceScaler.adjustPerformance.
  repeat match goal with
  | |- context [ltb (sub ?a ?b) ?c] =>
    let H := fresh "Htest" in
    destruct (ltb (sub a b) c) eqn:H;
    cbn [fst snd PerformanceScaler.performanceLevel PerformanceScaler.lastAdjustment
         PerformanceScaler.adjustmentCooldown PerformanceScaler.minPerformanceLevel
         PerformanceScaler.constructor] in *
  end.
  all: exact_tests; exact_ops.
  all: match goal with |- ?b = true <-> _ =>
         let v := eval vm_compute in b in change b with v end.
  all: split; [intros Hb|intros [Hlo Hhi]]; try discriminate; try reflexivity; try lra.
Qed.

End ScalingTest.

(** ** Runs of the monitor *)

Section MonitorRuns.

Import FrameRateMonitor.

(** X14. At every number instance, after [update] calls at any clock
    readings: [frameCount] has grown by the number of calls, whether a
    sample was recorded or not; [lastTime] is the last reading; and
    [maxHistoryLength] is as it was. *)
Theorem updates_count_frames {num : Type} `{!JSNumber num}
    (readings : list num) (m : FrameRateMonitor.t num) :
  frameCount (updates readings m) = frameCount m + length readings /\
  lastTime (updates readings m) = default (lastTime m) (last readings) /\
  maxHistoryLength (updates readings m) = maxHistoryLength m.
Proof.
  revert m. induction readings as [|now readings IH]; intros m; [simpl; auto with lia|].
  cbn [updates foldl]. fold (updates readings (update now m)).
  destruct (IH (update now m)) as (-> & -> & ->).
  destruct (update_frame now m) as (-> & -> & ->).
  split; [simpl; lia|]. split; [|done].
  rewrite (last_cons now readings). by destruct (last readings).
Qed.

Open Scope js_scope.

Lemma sum_not_negative (history : list float) (acc : float) :
  not_negative acc -> Forall not_negative history ->
  not_negative (foldl add acc history).
Proof.
  revert acc. induction history as [|x history IH]; intros acc Hacc Hall; [done|].
  apply Forall_cons in Hall as [Hx Hall]. simpl.
  apply IH; [|done]. by apply add_not_negative.
Qed.

Lemma average_not_negative (history : list float) :
  Forall not_negative history -> not_negative (average history).
Proof.
  intros Hall. unfold average. case_decide; [reflexivity|].
  apply div_not_negative; [|apply of_nat_sign_clear].
  by apply sum_not_negative.
Qed.

Lemma record_sample_not_negative (m : t float) (currentFps : float) :
  Forall not_negative (fpsHistory m) -> not_negative currentFps ->
  Forall not_negative (record_sample m currentFps).
Proof.
  intros Hall Hs. unfold record_sample.
  assert (Forall not_negative (fpsHistory m ++ [currentFps])) as H.
  { apply Forall_app. split; [done|]. by apply Forall_singleton. }
  case_decide; [|done]. unfold shift. by apply Forall_drop.
Qed.

Lemma update_sound (now : float) (m : t float) : sound m -> sound (update now m).
Proof.
  intros [Hall Hfps]. unfold update.
  destruct (now - lastTime m >? lit 0) eqn:Hd; [|done].
  assert (Forall not_negative (record_sample m (lit 1000 / (now - lastTime m)))) as H.
  { apply record_sample_not_negative; [done|].
    apply div_not_negative; [reflexivity|]. by apply above_zero_sign_clear. }
  split; simpl; [done|]. by apply average_not_negative.
Qed.

Lemma updates_sound (readings : list float) (m : t float) :
  sound m -> sound (updates readings m).
Proof.
  revert m. induction readings as [|now readings IH]; intros m Hm; [done|].
  apply IH. by apply update_sound.
Qed.

(** X15. In binary64 arithmetic, after [update] calls at any clock
    readings on a new monitor (readings in any order, infinities and NaN
    among them): no sample kept, nor the rolling mean [fps], nor
    [getAverageFps] compares below 0.  The mean is not always within the
    range of the samples it is the mean of: after three frames of 33 ms the
    three samples are 30.303030303030305 and the mean, rounded twice, is
    30.303030303030301, below every one of them. *)
Theorem rolling_mean_not_negative (readings : list float) (now0 : float) :
  let m := updates readings (constructor now0) in
  (Forall not_negative (fpsHistory m) /\
   not_negative (fps m) /\
   not_negative (getAverageFps m)) /\
  (fpsHistory three_frames = replicate 3 0x1.e4d9364d9364ep+4%float /\
   fps three_frames = 0x1.e4d9364d9364dp+4%float /\
   Forall (fun sample => (fps three_frames <? sample) = true) (fpsHistory three_frames)).
Proof.
  intros m. split.
  - assert (sound m) as [Hall Hfps].
    { apply updates_sound. split; [by apply Forall_nil_2|reflexivity]. }
    split; [done|]. split; [done|]. by apply average_not_negative.
  - split; [by vm_compute|]. split; [by vm_compute|].
    by repeat (apply Forall_cons_2 || apply Forall_nil_2); vm_compute.
Qed.

End MonitorRuns.

(** ** The tally, the geometry helpers and the accumulation test *)

Section TallyFacts.

Import OverallResults.

Lemma occurrences_cons (status s : string) (results : list string) :
  occurrences status (s :: results) =
  (if decide (s = status) then 1 else 0) + occurrences status results.
Proof. unfold occurrences. rewrite filter_cons. by case_decide. Qed.

Lemma count_result_spec (o : OverallResults.t) (status : string) :
  let o' := count_result o status in
  total o' = S (total o) /\
  passed o' = (if decide (status = "pass") then 1 else 0) + passed o /\
  failed o' = (if decide (status = "fail") then 1 else 0) + failed o /\
  warnings o' = (if decide (status = "warning") then 1 else 0) + warnings o /\
  errors o' = (if decide (status = "error") then 1 else 0) + errors o.
Proof.
  destruct o as [p f w e t]. unfold count_result. cbn [total].
  repeat case_decide; subst; simpl; try done.
Qed.

(** X16. [updateOverallResults] adds the number of results to [total] and
    the number of results of each status to the counter of that status; a
    result whose status is none of pass, fail, warning and error (such as
    info) is counted in [total] only, so that the four counters fall short
    of [total] by the number of such results. *)
Theorem updateOverallResults_tally (suiteResults : list string) (o : OverallResults.t) :
  let o' := updateOverallResults suiteResults o in
  total o' = total o + length suiteResults /\
  passed o' = passed o + occurrences "pass" suiteResults /\
  failed o' = failed o + occurrences "fail" suiteResults /\
  warnings o' = warnings o + occurrences "warning" suiteResults /\
  errors o' = errors o + occurrences "error" suiteResults /\
  tally o' + length (filter (fun s => s ∉ counted) suiteResults) =
    tally o + length suiteResults.
Proof.
  revert o. induction suiteResults as [|s results IH]; intros o.
  - unfold occurrences. simpl. lia.
  - cbn [updateOverallResults foldl]. fold (updateOverallResults results (count_result o s)).
    destruct (IH (count_result o s)) as (Ht & Hp & Hf & Hw & He & Hall).
    destruct (count_result_spec o s) as (Ht' & Hp' & Hf' & Hw' & He').
    rewrite !occurrences_cons. rewrite filter_cons.
    unfold tally in *. cbn [length].
    rewrite Ht, Hp, Hf, Hw, He, Ht', Hp', Hf', Hw', He'.
    rewrite Hp, Hf, Hw, He, Hp', Hf', Hw', He' in Hall.
    assert (s ∉ counted <->
            s <> "pass"%string /\ s <> "fail"%string /\
            s <> "warning"%string /\ s <> "error"%string) as Hcounted.
    { unfold counted. rewrite !not_elem_of_cons. pose proof (not_elem_of_nil s). tauto. }
    repeat case_decide; subst; cbn [length]; try lia; try done; tauto.
Qed.

End TallyFacts.

Section OverlapFacts.

Open Scope Q_scope.

(** X17. [checkElementOverlap] does not depend on the order of its
    arguments, at every number instance.  In exact arithmetic it answers
    true for two rectangles that share a point, their sides included (so
    also for rectangles that only touch), and two rectangles with their
    sides in order for which it answers true share a point. *)
Theorem checkElementOverlap_shares_a_point :
  (forall (num : Type) (N : JSNumber num) (rect1 rect2 : Rect.t num),
     checkElementOverlap rect1 rect2 = checkElementOverlap rect2 rect1) /\
  (forall rect1 rect2 : Rect.t Q,
     (exists x y : Q, inside rect1 x y /\ inside rect2 x y) ->
     checkElementOverlap rect1 rect2 = true) /\
  (forall rect1 rect2 : Rect.t Q,
     well_sided rect1 -> well_sided rect2 ->
     checkElementOverlap rect1 rect2 = true ->
     exists x y : Q, inside rect1 x y /\ inside rect2 x y).
Proof.
  split; [|split].
  - intros num N rect1 rect2. unfold checkElementOverlap.
    destruct (ltb (Rect.right rect1) _), (ltb (Rect.right rect2) _),
      (ltb (Rect.bottom rect1) _), (ltb (Rect.bottom rect2) _); done.
  - intros rect1 rect2 (x & y & [[? ?] [? ?]] & [[? ?] [? ?]]).
    unfold checkElementOverlap. rewrite negb_true_iff, !orb_false_iff.
    repeat split; apply exact_ltb_false; lra.
  - intros rect1 rect2 [Hx1 Hy1] [Hx2 Hy2]. unfold checkElementOverlap.
    rewrite negb_true_iff, !orb_false_iff. intros [[[H1 H2] H3] H4]. exact_tests.
    exists (Qmax (Rect.left rect1) (Rect.left rect2)),
           (Qmax (Rect.top rect1) (Rect.top rect2)).
    unfold inside.
    destruct (Q.max_spec (Rect.left rect1) (Rect.left rect2)) as [[? ->]|[? ->]];
      destruct (Q.max_spec (Rect.top rect1) (Rect.top rect2)) as [[? ->]|[? ->]];
      repeat split; lra.
Qed.

(** X18. At every number instance [isTextReadable] compares the font size
    with 14 for a viewport of at most 480 and with 16 otherwise: the
    breakpoint at 768 changes nothing.  In exact arithmetic a text that is
    readable stays readable at a larger font size and in a narrower
    viewport. *)
Theorem isTextReadable_breakpoint :
  (forall (num : Type) (N : JSNumber num) (fontSize viewportWidth : num),
     isTextReadable fontSize viewportWidth =
     leb (if leb viewportWidth (lit 480) then lit 14 else lit 16) fontSize) /\
  (forall fontSize fontSize' viewportWidth viewportWidth' : Q,
     fontSize <= fontSize' -> viewportWidth' <= viewportWidth ->
     isTextReadable fontSize viewportWidth = true ->
     isTextReadable fontSize' viewportWidth' = true).
Proof.
  split.
  - intros num N fontSize viewportWidth. unfold isTextReadable.
    cbv zeta. destruct (leb viewportWidth (lit 480)); [done|].
    by destruct (leb viewportWidth (lit 768)).
  - intros f f' w w' Hf Hw. unfold isTextReadable. exact_ops.
    destruct (leb w 480) eqn:H480, (leb w' 480) eqn:H480',
      (leb w 768) eqn:H768, (leb w' 768) eqn:H768';
      intros H; exact_tests; apply exact_leb; lra.
Qed.

End OverlapFacts.

Section AccumulationFacts.

Open Scope Q_scope.

Lemma exact_abs_small (a b : Q) : a == b -> ltb (Math_abs (a - b)) 0.1 = true.
Proof.
  intros Hab. apply exact_ltb. unfold Math_abs. exact_ops.
  destruct (exact_max (a - b) (0 - (a - b))) as [[? ->]|[? ->]]; lra.
Qed.

(** X19. The check of [testWaterLevelAccumulation] holds for every number
    of droplets in exact arithmetic, where the level accumulated is the
    expected one, and for every number of droplets up to 1000 in binary64
    arithmetic, where the two differ by less than 0.1. *)
Theorem testWaterLevelAccumulation_passes :
  (forall numDroplets : nat, @testWaterLevelAccumulation Q _ numDroplets = true) /\
  (forall numDroplets : nat,
     (numDroplets <= 1000)%nat -> @testWaterLevelAccumulation float _ numDroplets = true).
Proof.
  split.
  - intros n. unfold testWaterLevelAccumulation. cbv zeta.
    apply exact_abs_small.
    change (accumulate (lit 0.8) n (lit 0)) with (Nat.iter n (bump 0.8) 0).
    rewrite exact_level_closed_form. unfold closed_form, of_nat. exact_ops.
    destruct (exact_min 100 (inject_Z (Z.of_nat n) * 0.8)) as [[? ->]|[? ->]];
      destruct (Q.min_spec 100 (inject_Z (Z.of_nat n) * 0.8)) as [[? ->]|[? ->]]; lra.
  - intros n Hn.
    assert (forallb (@testWaterLevelAccumulation float _) (seq 0 1001) = true) as Hall
      by (vm_compute; reflexivity).
    rewrite forallb_forall in Hall. apply Hall, in_seq. lia.
Qed.

End AccumulationFacts.

(** ** The expectations of the milestone test *)

Section ThresholdsFacts.

Context {num : Type} `{!JSNumber num}.

Lemma length_filter_lt {A : Type} (P : A -> Prop) `{!forall x, Decision (P x)}
    (l : list A) (x : A) :
  x ∈ l -> ~ P x -> length (filter P l) < length l.
Proof.
  intros Hx HP. induction l as [|a l IH]; [by apply elem_of_nil in Hx|].
  rewrite filter_cons. pose proof (length_filter P l).
  apply elem_of_cons in Hx as [<-|Hx].
  - rewrite decide_False by done. simpl. lia.
  - specialize (IH Hx). case_decide; simpl; lia.
Qed.

Lemma evaluate_keys_kept (level : num) (entries : list (string * Milestone.t num)) :
  (evaluate level entries).2.*1 = entries.*1.
Proof.
  induction entries as [|[k m] entries IH]; [done|].
  rewrite evaluate_cons. cbn [snd]. rewrite !fmap_cons. by rewrite IH.
Qed.

Lemma evaluate_keys_NoDup (level : num) (entries : list (string * Milestone.t num)) :
  NoDup entries.*1 -> NoDup (evaluate level entries).1.
Proof.
  rewrite evaluate_keys. induction entries as [|[k m] entries IH]; [constructor|].
  intros [Hk Hrest]%NoDup_cons. simpl. destruct (fires level m); simpl; [|auto].
  apply NoDup_cons. split; [|auto].
  intros Hin. apply Hk. apply list_elem_of_fmap in Hin as ([k' m'] & -> & Hin).
  apply list_elem_of_fmap. exists (k', m'). split; [done|].
  apply list_elem_of_In, filter_In in Hin as [Hin _]. by apply list_elem_of_In.
Qed.

Lemma evaluate_skips_achieved (level : num) (entries : list (string * Milestone.t num))
    (key : string) (m : Milestone.t num) :
  NoDup entries.*1 -> (key, m) ∈ entries -> Milestone.achieved m = true ->
  key ∉ (evaluate level entries).1.
Proof.
  intros Hkeys Hin Hm. rewrite evaluate_keys.
  intros ([k m'] & Hk & Hin')%list_elem_of_fmap. simpl in Hk. subst k.
  apply list_elem_of_In, filter_In in Hin' as [Hin' Hfires]. apply list_elem_of_In in Hin'.
  assert (m' = m) as ->.
  { clear Hfires. induction entries as [|[k0 m0] entries IH]; [by apply elem_of_nil in Hin|].
    apply NoDup_cons in Hkeys as [Hk0 Hkeys].
    apply elem_of_cons in Hin as [Hin|Hin], Hin' as [Hin'|Hin'].
    - congruence.
    - injection Hin as <- <-. exfalso. apply Hk0.
      apply list_elem_of_fmap. by exists (key, m').
    - injection Hin' as <- <-. exfalso. apply Hk0.
      apply list_elem_of_fmap. by exists (key, m).
    - by apply IH. }
  unfold fires in Hfires. simpl in Hfires. by rewrite Hm in Hfires.
Qed.

Lemma correct_misses (achieved expected : list string) (key : string) :
  NoDup achieved -> key ∈ expected -> key ∉ achieved ->
  correct achieved expected = false.
Proof.
  intros Hnodup Hexp Hnot. unfold correct.
  destruct (forallb _ achieved) eqn:Hall; [|by rewrite andb_false_r].
  rewrite andb_true_r. apply bool_decide_eq_false. intros Hlen.
  rewrite forallb_forall in Hall.
  assert (achieved ⊆+ filter (fun k => k <> key) expected) as Hsub.
  { apply NoDup_submseteq; [done|]. intros k Hk. apply list_elem_of_filter.
    split; [by intros ->|].
    apply list_elem_of_In, Hall, bool_decide_eq_true in Hk. done. }
  apply submseteq_length in Hsub.
  pose proof (length_filter_lt (fun k => k <> key) expected key Hexp) as Hlt.
  assert (~ key <> key) as Hkey by (by intros ?). specialize (Hlt Hkey). lia.
Qed.

Lemma thresholds_loop_false (cases : list (num * list string))
    (entries : list (string * Milestone.t num)) :
  (thresholds_loop cases entries false).1 = false.
Proof.
  revert entries. induction cases as [|[level expected] cases IH]; intros entries; [done|].
  cbn [thresholds_loop]. destruct (evaluate level entries) as [achieved entries'].
  by destruct (correct achieved expected).
Qed.

Lemma thresholds_loop_app (cases more : list (num * list string))
    (entries : list (string * Milestone.t num)) (allCorrect : bool) :
  thresholds_loop (cases ++ more) entries allCorrect =
  thresholds_loop more (thresholds_loop cases entries allCorrect).2
                  (thresholds_loop cases entries allCorrect).1.
Proof.
  revert entries allCorrect.
  induction cases as [|[level expected] cases IH]; intros entries allCorrect; [done|].
  cbn [app thresholds_loop]. destruct (evaluate level entries) as [achieved entries'].
  apply IH.
Qed.

Lemma thresholds_loop_keys (cases : list (num * list string))
    (entries : list (string * Milestone.t num)) (allCorrect : bool) :
  (thresholds_loop cases entries allCorrect).2.*1 = entries.*1.
Proof.
  revert entries allCorrect.
  induction cases as [|[level expected] cases IH]; intros entries allCorrect; [done|].
  cbn [thresholds_loop]. pose proof (evaluate_keys_kept level entries) as Hkeys.
  destruct (evaluate level entries) as [achieved entries']. by rewrite IH.
Qed.

(** X20. At every number instance, for milestones with distinct keys: a
    case of the loop of [testMilestoneThresholds] that expects the key of a
    milestone achieved at an earlier case is found incorrect, since the
    loop reports a milestone once only; and [allCorrect], once false, stays
    false.  The expectations of the test list every milestone achieved so
    far, so the test fails. *)
Theorem thresholds_loop_rejects_cumulative (cases more : list (num * list string))
    (level : num) (expected : list string)
    (entries : list (string * Milestone.t num)) (allCorrect : bool)
    (key : string) (m : Milestone.t num) :
  NoDup entries.*1 ->
  (key, m) ∈ (thresholds_loop cases entries allCorrect).2 ->
  Milestone.achieved m = true ->
  key ∈ expected ->
  (thresholds_loop (cases ++ (level, expected) :: more) entries allCorrect).1 = false.
Proof.
  intros Hkeys Hin Hm Hexp. rewrite thresholds_loop_app.
  set (entries' := (thresholds_loop cases entries allCorrect).2) in *.
  assert (NoDup entries'.*1) as Hkeys'
    by (subst entries'; by rewrite thresholds_loop_keys).
  cbn [thresholds_loop].
  pose proof (evaluate_keys_NoDup level entries' Hkeys') as Hnodup.
  pose proof (evaluate_skips_achieved level entries' key m Hkeys' Hin Hm) as Hskip.
  destruct (evaluate level entries') as [achieved entries''].
  rewrite (correct_misses achieved expected key) by done.
  apply thresholds_loop_false.
Qed.

End ThresholdsFacts.

(** ** Concrete runs of the further properties *)

Lemma droplets_expire_witness :
  let calls := [AddDroplet (lit 100) (lit 50); Update (lit 16.67);
                AddDroplet (lit 200) (lit 50)] in
  Forall steady calls /\
  length (droplets (run half calls constructor)) = 2 /\
  droplets (drain half (lit 16.67) 1000 (run half calls constructor)).2 = [].
Proof.
  intros calls.
  assert (Forall steady calls) as H by (by repeat apply Forall_cons_2; [..|apply Forall_nil_2]).
  split; [exact H|]. split; [reflexivity|].
  exact (proj1 (proj2 (proj2 (proj1 (droplets_expire half calls H))))).
Defined.

Lemma drain_empties_witness :
  Forall forwards [AddDroplet 100%Q 50%Q; Update 16.67%Q; AddDroplet 200%Q 50%Q] /\
  droplets (drain exact_half 16.67%Q 1000
              (run exact_half [AddDroplet 100%Q 50%Q; Update 16.67%Q; AddDroplet 200%Q 50%Q]
                 constructor)).2 = [].
Proof.
  assert (Forall forwards [AddDroplet 100%Q 50%Q; Update 16.67%Q; AddDroplet 200%Q 50%Q])
    as Hcalls.
  { apply Forall_cons. split; [exact I|].
    apply Forall_cons. split; [vm_compute; discriminate|].
    apply Forall_singleton. exact I. }
  split; [exact Hcalls|].
  exact (proj1 (proj2 (drain_empties exact_half _ Hcalls))).
Defined.

Lemma adjustments_keep_witness :
  let s := @PerformanceScaler.constructor Q _ in
  let s' := adjustments [(2000%Q, monitor_at 15%Q); (4000%Q, monitor_at 15%Q);
                         (4500%Q, monitor_at 15%Q)] s in
  (0 <= PerformanceScaler.minPerformanceLevel s)%Q /\
  (PerformanceScaler.minPerformanceLevel s <= PerformanceScaler.performanceLevel s <= 1)%Q /\
  (PerformanceScaler.minPerformanceLevel s <= PerformanceScaler.performanceLevel s' <= 1)%Q.
Proof.
  assert (0 <= PerformanceScaler.minPerformanceLevel (@PerformanceScaler.constructor Q _))%Q
    as H0 by (vm_compute; discriminate).
  assert (PerformanceScaler.minPerformanceLevel (@PerformanceScaler.constructor Q _)
          <= PerformanceScaler.performanceLevel (@PerformanceScaler.constructor Q _) <= 1)%Q
    as H1 by (split; vm_compute; discriminate).
  split; [exact H0|]. split; [exact H1|].
  exact (proj1 (proj2 (proj2 (adjustments_keep _ _ H0 H1)))).
Defined.

Lemma getScaledValue_spec_witness :
  let s := @PerformanceScaler.constructor Q _ in
  (0 <= PerformanceScaler.performanceLevel s <= 1)%Q /\ (1 <= 10)%Q /\
  (PerformanceScaler.getScaledValue 10%Q s <= 10)%Q.
Proof.
  assert (0 <= PerformanceScaler.performanceLevel (@PerformanceScaler.constructor Q _) <= 1)%Q
    as H0 by (split; vm_compute; discriminate).
  assert (1 <= 10)%Q as H1 by (vm_compute; discriminate).
  split; [exact H0|]. split; [exact H1|].
  exact (proj1 (proj2 (proj2 (getScaledValue_spec 10%Q PerformanceScaler.constructor))) H0 H1).
Defined.

Lemma testPerformanceScaling_window_witness :
  let now := fun k : nat => (1850 + 50 * inject_Z (Z.of_nat k))%Q in
  (now 1%nat <= now 2%nat)%Q /\ (now 2%nat <= now 3%nat)%Q /\ (now 3%nat <= now 4%nat)%Q /\
  (now 4%nat - now 1%nat < 2000)%Q /\
  hasScaling (testPerformanceScaling now) = true.
Proof.
  set (now := fun k : nat => (1850 + 50 * inject_Z (Z.of_nat k))%Q).
  assert (now 1%nat <= now 2%nat)%Q as H12 by (vm_compute; discriminate).
  assert (now 2%nat <= now 3%nat)%Q as H23 by (vm_compute; discriminate).
  assert (now 3%nat <= now 4%nat)%Q as H34 by (vm_compute; discriminate).
  assert (now 4%nat - now 1%nat < 2000)%Q as Hspan by (vm_compute; reflexivity).
  split; [exact H12|]. split; [exact H23|]. split; [exact H34|]. split; [exact Hspan|].
  apply (proj2 (testPerformanceScaling_window now H12 H23 H34 Hspan)).
  split; [vm_compute; reflexivity|vm_compute; discriminate].
Defined.

Lemma checkElementOverlap_shares_a_point_witness :
  let rect1 := Rect.mk 0%Q 10%Q 0%Q 10%Q in
  let rect2 := Rect.mk 10%Q 20%Q 0%Q 10%Q in
  well_sided rect1 /\ well_sided rect2 /\
  checkElementOverlap rect1 rect2 = true /\
  exists x y : Q, inside rect1 x y /\ inside rect2 x y.
Proof.
  set (rect1 := Rect.mk 0%Q 10%Q 0%Q 10%Q). set (rect2 := Rect.mk 10%Q 20%Q 0%Q 10%Q).
  assert (well_sided rect1) as H1 by (split; vm_compute; discriminate).
  assert (well_sided rect2) as H2 by (split; vm_compute; discriminate).
  assert (checkElementOverlap rect1 rect2 = true) as H3 by (vm_compute; reflexivity).
  split; [exact H1|]. split; [exact H2|]. split; [exact H3|].
  exact (proj2 (proj2 checkElementOverlap_shares_a_point) rect1 rect2 H1 H2 H3).
Defined.

Lemma isTextReadable_breakpoint_witness :
  (14 <= 16)%Q /\ (320 <= 400)%Q /\
  @isTextReadable Q _ 14%Q 400%Q = true /\
  @isTextReadable Q _ 16%Q 320%Q = true.
Proof.
  assert (14 <= 16)%Q as H1 by (vm_compute; discriminate).
  assert (320 <= 400)%Q as H2 by (vm_compute; discriminate).
  assert (@isTextReadable Q _ 14%Q 400%Q = true) as H3 by (vm_compute; reflexivity).
  split; [exact H1|]. split; [exact H2|]. split; [exact H3|].
  exact (proj2 isTextReadable_breakpoint 14%Q 16%Q 400%Q 320%Q H1 H2 H3).
Defined.

Lemma testWaterLevelAccumulation_passes_witness :
  10 <= 1000 /\ @testWaterLevelAccumulation float _ 10 = true.
Proof.
  assert (10 <= 1000) as H by lia.
  split; [exact H|]. exact (proj2 testWaterLevelAccumulation_passes 10 H).
Defined.

Lemma thresholds_loop_rejects_cumulative_witness :
  NoDup (@milestones float _).*1 /\
  @testMilestoneThresholds float _ = false.
Proof.
  assert (NoDup (@milestones float _).*1) as Hkeys
    by (apply (bool_decide_unpack _); vm_compute; exact I).
  split; [exact Hkeys|].
  apply (thresholds_loop_rejects_cumulative
           [(lit 25, []); (lit 30, ["fish"%string])]
           [(lit 70, ["fish"; "waves"]); (lit 95, ["fish"; "waves"]);
            (lit 100, ["fish"; "waves"; "completion"])]%string
           (lit 65) ["fish"%string] milestones true "fish"%string
           (Milestone.mk (lit 30) true) Hkeys).
  - vm_compute. apply list_elem_of_here.
  - reflexivity.
  - apply list_elem_of_here.
Defined.

(** ** Droplets that hit the surface *)

Section SplashedFacts.

Context {num : Type} `{!JSNumber num}.

Variable random : nat -> num.

Lemma droplet_after_splashed (deltaTime : num) (e : Engine num) (d : Droplet.t num) :
  Droplet.splashed d = true ->
  waterLevel (droplet_after random deltaTime e d).1 = waterLevel e /\
  splashEffects (droplet_after random deltaTime e d).1 = splashEffects e.
Proof.
  intros Hs. unfold droplet_after. cbn [fst].
  unfold collides. cbn [move_droplet Droplet.splashed]. rewrite Hs.
  by rewrite andb_false_r.
Qed.

Lemma sweep_splashed (deltaTime : num) (ds : list (Droplet.t num)) (e : Engine num) :
  Forall (fun d => Droplet.splashed d = true) ds ->
  waterLevel (sweep random deltaTime ds e).1 = waterLevel e /\
  splashEffects (sweep random deltaTime ds e).1 = splashEffects e.
Proof.
  induction 1 as [|d ds Hd _ [IHl IHs]]; [done|].
  cbn [sweep]. cbv zeta. cbn [fst].
  destruct (droplet_after_splashed deltaTime (sweep random deltaTime ds e).1 d Hd)
    as [-> ->]. done.
Qed.

Lemma update_level_swept (deltaTime : num) (e : Engine num) :
  waterLevel (update random deltaTime e) =
  waterLevel (sweep random deltaTime (droplets e) e).1.
Proof. unfold update. by rewrite update_droplets_sweep, update_splashes_spec. Qed.

End SplashedFacts.

Section PaysOnce.

Open Scope Q_scope.

Variable random : nat -> Q.

Lemma sweep_sinking (deltaTime : Q) (ds : list (Droplet.t Q)) (e : Engine Q) :
  gravity e = 0.5 -> dropletIncrement e = 0.8 ->
  0 <= waterLevel e <= 100 -> 0 <= deltaTime ->
  Forall sinking ds ->
  waterLevel (sweep random deltaTime ds e).1 =
    Nat.iter (length ds) (bump 0.8) (waterLevel e) /\
  Forall (fun d => Droplet.splashed d = true) (sweep random deltaTime ds e).2.
Proof.
  intros Hg Hinc Hlevel Hdt Hds.
  induction Hds as [|d ds (Hd & Hy & Hv) _ [IHl IHs]]; [done|].
  cbn [sweep length]. cbv zeta. cbn [fst snd]. rewrite Nat.iter_succ.
  set (later := (sweep random deltaTime ds e).1) in *.
  destruct (sweep_config random deltaTime ds e) as (Hg' & Hinc' & _).
  fold later in Hg', Hinc'. rewrite Hg in Hg'. rewrite Hinc in Hinc'.
  pose proof (exact_bumps_bounds (length ds) (waterLevel e) Hlevel) as Hthen.
  rewrite <- IHl in Hthen.
  assert (collides later (move_droplet deltaTime later d) = true) as Hhit.
  { unfold collides. cbn [move_droplet Droplet.splashed Droplet.y]. rewrite Hd.
    rewrite andb_true_r. apply exact_leb. unfold waterSurfaceY. rewrite Hg'. exact_ops.
    pose proof (Qmult_le_0_compat _ _ Hdt Hdt).
    pose proof (Qmult_le_0_compat _ _ Hv Hdt).
    assert (waterLevel later / 100 * 300 == waterLevel later * 3) as -> by field.
    lra. }
  unfold droplet_after. cbn [fst snd]. rewrite Hhit. split.
  - destruct (createSplash_frame random
                (Droplet.x (set_splashed (move_droplet deltaTime later d)))
                (waterSurfaceY later) (set_waterLevel (raise_level later) later))
      as (-> & _).
    cbn [waterLevel set_waterLevel]. rewrite raise_level_bump, Hinc', IHl. done.
  - apply Forall_app. split; [|done].
    destruct (droplet_gone _); [constructor|]. by apply Forall_singleton.
Qed.

(** X21. In exact arithmetic, on an engine with the gravity and the
    increment of the constructor and a level within [0, 100]: when every
    droplet is at or below y = 400, has not hit yet and does not rise, a
    tick with [deltaTime >= 0] raises the level once for every droplet
    ([Math.min(100, level + 0.8)] applied as often as there are droplets),
    the droplets it leaves all have [splashed] set, and a further tick of
    any [deltaTime'] leaves the level as it is: a droplet raises the level
    once. *)
Theorem every_droplet_pays_once (deltaTime deltaTime' : Q) (e : Engine Q) :
  gravity e = 0.5 -> dropletIncrement e = 0.8 ->
  0 <= waterLevel e <= 100 -> 0 <= deltaTime ->
  Forall sinking (droplets e) ->
  let e' := update random deltaTime e in
  waterLevel e' = Nat.iter (length (droplets e)) (bump 0.8) (waterLevel e) /\
  Forall (fun d => Droplet.splashed d = true) (droplets e') /\
  waterLevel (update random deltaTime' e') = waterLevel e'.
Proof.
  intros Hg Hinc Hlevel Hdt Hds e'.
  destruct (sweep_sinking deltaTime (droplets e) e Hg Hinc Hlevel Hdt Hds) as [Hl Hs].
  assert (droplets e' = (sweep random deltaTime (droplets e) e).2) as Hkept
    by apply update_droplets_kept.
  split; [subst e'; by rewrite update_level_swept|].
  split; [by rewrite Hkept|].
  rewrite update_level_swept. apply sweep_splashed. by rewrite Hkept.
Qed.

End PaysOnce.

(** ** The end-to-end flow *)

Section FlowFacts.

Lemma endToEnd_loop_fuel {num : Type} `{!JSNumber num} (fuel more : nat)
    (requiredDroplets dropletIncrement i waterLevel : num)
    (entries : list (string * Milestone.t num))
    (r : num * list (string * Milestone.t num)) :
  endToEnd_loop fuel requiredDroplets dropletIncrement i waterLevel entries = Some r ->
  endToEnd_loop (fuel + more) requiredDroplets dropletIncrement i waterLevel entries = Some r.
Proof.
  revert i waterLevel entries. induction fuel as [|fuel IH]; intros i waterLevel entries.
  - simpl. destruct (ltb i requiredDroplets) eqn:Hi; [done|].
    intros <-. destruct more; simpl; by rewrite Hi.
  - simpl. destruct (ltb i requiredDroplets); [apply IH|done].
Qed.

Lemma testEndToEndFlow_fuel {num : Type} `{!JSNumber num} (fuel more : nat)
    (r : num * list (string * Milestone.t num) * bool) :
  testEndToEndFlow fuel = Some r -> testEndToEndFlow (fuel + more) = Some r.
Proof.
  unfold testEndToEndFlow. cbv zeta.
  destruct (endToEnd_loop fuel _ _ _ _ _) as [[level entries]|] eqn:Hloop; [|done].
  by rewrite (endToEnd_loop_fuel fuel more _ _ _ _ _ _ Hloop).
Qed.

(** X22. [testEndToEndFlow] ends after 125 iterations of its loop, whatever
    the bound on them from 125 on, and not before.  In exact arithmetic it
    ends with the level 100, the three milestones achieved and
    [flowComplete = true]; in binary64 arithmetic with the level
    100 - 2^-42, the milestone at 100 not achieved and
    [flowComplete = false]. *)
Theorem testEndToEndFlow_exact (fuel : nat) :
  125 <= fuel ->
  (exists level : Q,
     @testEndToEndFlow Q _ fuel =
       Some (level,
             [("fish"%string, Milestone.mk (lit 30) true);
              ("waves"%string, Milestone.mk (lit 70) true);
              ("completion"%string, Milestone.mk (lit 100) true)],
             true) /\
     (level == 100)%Q) /\
  @testEndToEndFlow float _ fuel =
    Some (0x1.8fffffffffffp+6%float,
          [("fish"%string, Milestone.mk (lit 30) true);
           ("waves"%string, Milestone.mk (lit 70) true);
           ("completion"%string, Milestone.mk (lit 100) false)],
          false) /\
  @testEndToEndFlow Q _ 124 = None /\
  @testEndToEndFlow float _ 124 = None.
Proof.
  intros Hfuel. replace fuel with (125 + (fuel - 125)) by lia.
  split; [|split; [|split]].
  - destruct (@testEndToEndFlow Q _ 125) as [[[level entries] flow]|] eqn:Hrun;
      [|by vm_compute in Hrun].
    exists level. rewrite (testEndToEndFlow_fuel 125 _ _ Hrun).
    vm_compute in Hrun. injection Hrun as <- <- <-. split; reflexivity.
  - apply testEndToEndFlow_fuel. vm_compute. reflexivity.
  - vm_compute. reflexivity.
  - vm_compute. reflexivity.
Qed.

End FlowFacts.

(** ** The scaler under a steady frame rate *)

Section Recovery.

Import PerformanceScaler.

Open Scope Q_scope.

Lemma adjustPerformance_due (now : Q) (monitor : FrameRateMonitor.t Q)
    (s : PerformanceScaler.t Q) :
  adjustmentCooldown s <= now - lastAdjustment s ->
  (adjustPerformance now monitor s).2 =
  PerformanceScaler.mk (ladder (FrameRateMonitor.getCurrentFps monitor) s) now
    (adjustmentCooldown s) (minPerformanceLevel s).
Proof.
  intros Hdue. apply exact_ltb_false in Hdue. unfold adjustPerformance.
  exact_ops. by rewrite Hdue.
Qed.

Lemma ladder_slow (fps : Q) (s : PerformanceScaler.t Q) (upper : Q) :
  fps < 20 -> performanceLevel s <= upper ->
  ladder fps s <= Qmax (minPerformanceLevel s) (upper * 0.6).
Proof.
  intros Hfps Hupper. unfold ladder. apply exact_ltb in Hfps. exact_ops. rewrite Hfps.
  destruct (exact_max (minPerformanceLevel s) (performanceLevel s * 0.6)) as [[? ->]|[? ->]];
    destruct (Q.max_spec (minPerformanceLevel s) (upper * 0.6)) as [[? ->]|[? ->]]; lra.
Qed.

Lemma ladder_fast (fps : Q) (s : PerformanceScaler.t Q) (lower : Q) :
  50 < fps -> lower <= performanceLevel s ->
  Qmin 1 (lower * 1.1) <= ladder fps s.
Proof.
  intros Hfps Hlower. unfold ladder.
  assert (20 <= fps) as H20 by lra. assert (30 <= fps) as H30 by lra.
  apply exact_ltb_false in H20, H30. apply exact_ltb in Hfps.
  exact_ops. rewrite H20, H30, Hfps. cbn [andb].
  destruct (ltb (performanceLevel s) 1.0) eqn:Hlevel; exact_tests.
  - destruct (exact_min 1.0 (performanceLevel s * 1.1)) as [[? ->]|[? ->]];
      destruct (Q.min_spec 1 (lower * 1.1)) as [[? ->]|[? ->]]; lra.
  - destruct (Q.min_spec 1 (lower * 1.1)) as [[? ->]|[? ->]]; lra.
Qed.

Lemma slow_bound (calls : list (Q * FrameRateMonitor.t Q)) (s : PerformanceScaler.t Q)
    (upper : Q) :
  spaced (adjustmentCooldown s) (lastAdjustment s) calls ->
  Forall (fun c => reads c < 20) calls ->
  performanceLevel s <= upper ->
  performanceLevel (adjustments calls s) <=
  Nat.iter (length calls) (fun u => Qmax (minPerformanceLevel s) (u * 0.6)) upper.
Proof.
  revert s upper. induction calls as [|[now monitor] calls IH]; intros s upper Hspaced Hslow Hupper.
  - done.
  - destruct Hspaced as [Hdue Hspaced]. apply Forall_cons in Hslow as [Hfps Hslow].
    cbn [adjustments foldl fst snd length]. rewrite Nat.iter_succ_r.
    fold (adjustments calls (adjustPerformance now monitor s).2).
    rewrite (adjustPerformance_due now monitor s Hdue).
    apply (IH (PerformanceScaler.mk _ now (adjustmentCooldown s) (minPerformanceLevel s)));
      [done|done|].
    by apply ladder_slow.
Qed.

Lemma fast_bound (calls : list (Q * FrameRateMonitor.t Q)) (s : PerformanceScaler.t Q)
    (lower : Q) :
  spaced (adjustmentCooldown s) (lastAdjustment s) calls ->
  Forall (fun c => 50 < reads c) calls ->
  lower <= performanceLevel s ->
  Nat.iter (length calls) (fun l => Qmin 1 (l * 1.1)) lower <=
  performanceLevel (adjustments calls s).
Proof.
  revert s lower. induction calls as [|[now monitor] calls IH]; intros s lower Hspaced Hfast Hlower.
  - done.
  - destruct Hspaced as [Hdue Hspaced]. apply Forall_cons in Hfast as [Hfps Hfast].
    cbn [adjustments foldl fst snd length]. rewrite Nat.iter_succ_r.
    fold (adjustments calls (adjustPerformance now monitor s).2).
    rewrite (adjustPerformance_due now monitor s Hdue).
    apply (IH (PerformanceScaler.mk _ now (adjustmentCooldown s) (minPerformanceLevel s)));
      [done|done|].
    by apply ladder_fast.
Qed.

Lemma adjustments_within (calls : list (Q * FrameRateMonitor.t Q))
    (s : PerformanceScaler.t Q) :
  0 <= minPerformanceLevel s ->
  minPerformanceLevel s <= performanceLevel s <= 1 ->
  minPerformanceLevel s <= performanceLevel (adjustments calls s) <= 1.
Proof.
  revert s. induction calls as [|[now monitor] calls IH]; intros s H0 Hlevel; [done|].
  destruct (adjustPerformance_keeps now monitor s H0 Hlevel) as (Hmin & _ & Hl & _).
  cbn [adjustments foldl fst snd] in *.
  fold (adjustments calls (adjustPerformance now monitor s).2).
  rewrite <- Hmin. apply IH; rewrite Hmin; done.
Qed.

Lemma sink_stays (n : nat) (floor u : Q) :
  0 <= floor -> u <= floor ->
  Nat.iter n (fun u => Qmax floor (u * 0.6)) u <= floor.
Proof.
  intros H0 Hu. induction n as [|n IH]; [done|]. rewrite Nat.iter_succ.
  apply Q.max_lub; lra.
Qed.

Lemma sink_three (n : nat) (floor : Q) :
  0.216 <= floor -> (3 <= n)%nat ->
  Nat.iter n (fun u => Qmax floor (u * 0.6)) 1 <= floor.
Proof.
  intros Hfloor Hn. replace n with ((n - 3) + 3)%nat by lia. rewrite Nat.iter_add.
  apply sink_stays; [lra|]. cbn [Nat.iter nat_rect].
  repeat (apply Q.max_lub; [lra|]);
    repeat match goal with
    | |- context [Qmax ?a ?b] => destruct (Q.max_spec a b) as [[? ->]|[? ->]]
    end; lra.
Qed.

Lemma climb_stays (n : nat) (l : Q) :
  1 <= l -> 1 <= Nat.iter n (fun l => Qmin 1 (l * 1.1)) l.
Proof.
  intros Hl. induction n as [|n IH]; [done|]. rewrite Nat.iter_succ.
  apply Q.min_glb; lra.
Qed.

Lemma climb_thirteen (n : nat) :
  (13 <= n)%nat -> 1 <= Nat.iter n (fun l => Qmin 1 (l * 1.1)) 0.3.
Proof.
  intros Hn. replace n with ((n - 13) + 13)%nat by lia. rewrite Nat.iter_add.
  apply climb_stays. by vm_compute.
Qed.

(** X23. In exact arithmetic, for a scaler whose floor is at least 0.3 and
    whose level is between the floor and 1, and calls of
    [adjustPerformance] each at least the cooldown after the adjustment
    before it: three or more calls that all read less than 20 fps leave the
    level at the floor, and thirteen or more calls that all read more than
    50 fps leave it at 1. *)
Theorem scaler_sinks_and_recovers (calls : list (Q * FrameRateMonitor.t Q))
    (s : PerformanceScaler.t Q) :
  0.3 <= minPerformanceLevel s ->
  minPerformanceLevel s <= performanceLevel s <= 1 ->
  spaced (adjustmentCooldown s) (lastAdjustment s) calls ->
  (Forall (fun c => reads c < 20) calls -> (3 <= length calls)%nat ->
   performanceLevel (adjustments calls s) == minPerformanceLevel s) /\
  (Forall (fun c => 50 < reads c) calls -> (13 <= length calls)%nat ->
   performanceLevel (adjustments calls s) == 1).
Proof.
  intros Hfloor Hlevel Hspaced.
  assert (0 <= minPerformanceLevel s) as H0 by lra.
  pose proof (adjustments_within calls s H0 Hlevel) as [Hlo Hhi].
  split.
  - intros Hslow Hn.
    pose proof (slow_bound calls s 1 Hspaced Hslow (proj2 Hlevel)) as Hupper.
    pose proof (sink_three (length calls) (minPerformanceLevel s)) as Hsink.
    apply Qle_antisym; [|done]. eapply Qle_trans; [exact Hupper|]. apply Hsink; [lra|done].
  - intros Hfast Hn.
    assert (0.3 <= performanceLevel s) as Hlower by lra.
    pose proof (fast_bound calls s 0.3 Hspaced Hfast Hlower) as Hbound.
    pose proof (climb_thirteen (length calls) Hn).
    apply Qle_antisym; [done|]. lra.
Qed.

End Recovery.

(** ** The water surface *)

Section SurfaceFacts.

Lemma surfaces_rise_lookup (t : list float) (i j : nat) (a b : float) :
  surfaces_rise t = true -> i <= j -> t !! i = Some a -> t !! j = Some b ->
  leb (waterSurfaceY (set_waterLevel b constructor))
      (waterSurfaceY (set_waterLevel a constructor)) = true.
Proof.
  revert i j. induction t as [|c t IH]; intros i j Ht Hij Ha Hb; [done|].
  cbn [surfaces_rise] in Ht. apply andb_true_iff in Ht as [Hc Ht].
  destruct i as [|i].
  - injection Ha as ->.
    rewrite forallb_forall in Hc. apply Hc.
    apply list_elem_of_In. by eapply list_elem_of_lookup_2.
  - destruct j as [|j]; [lia|]. simpl in Ha, Hb.
    apply (IH i j); [done|lia|done|done].
Qed.

Lemma run_level_after (random : nat -> float) (calls : list (Call float)) :
  exists k : nat, waterLevel (run random calls constructor) = level_after k.
Proof.
  destruct (run_keeps random calls constructor) as (_ & _ & _ & (k & Hk & _)).
  by exists k.
Qed.

Lemma waterSurfaceY_level {num : Type} `{!JSNumber num} (e : Engine num) :
  waterSurfaceY e = waterSurfaceY (set_waterLevel (waterLevel e) constructor).
Proof. reflexivity. Qed.

(** X24. In exact and in binary64 arithmetic alike, whatever calls were
    made on a new engine: the water surface [400 - (level / 100) * 300] is
    between y = 100 and y = 400, and further calls never lower it (its y
    never grows). *)
Theorem surface_between_100_and_400 :
  (forall (random : nat -> Q) (calls more : list (Call Q)),
     let e := run random calls constructor in
     (100 <= waterSurfaceY e <= 400)%Q /\
     (waterSurfaceY (run random more e) <= waterSurfaceY e)%Q) /\
  (forall (random : nat -> float) (calls more : list (Call float)),
     let e := run random calls constructor in
     leb (lit 100) (waterSurfaceY e) = true /\
     leb (waterSurfaceY e) (lit 400) = true /\
     leb (waterSurfaceY (run random more e)) (waterSurfaceY e) = true).
Proof.
  split.
  - intros random calls more e.
    destruct (run_keeps random calls constructor) as ((_ & Hinc & _) & _ & _ & (k & Hk & _)).
    destruct (run_keeps random more e) as (_ & _ & _ & (k' & Hk' & _)).
    fold e in Hinc, Hk. rewrite Hinc in Hk'.
    change (waterLevel e = Nat.iter k (bump 0.8%Q) 0%Q) in Hk.
    change (waterLevel (run random more e) = Nat.iter k' (bump 0.8%Q) (waterLevel e)) in Hk'.
    assert (0 <= waterLevel e <= 100)%Q as He
      by (rewrite Hk; apply exact_bumps_bounds; lra).
    pose proof (exact_bumps_mono k' _ He) as Hmono. rewrite <- Hk' in Hmono.
    unfold waterSurfaceY. exact_ops.
    assert (waterLevel e / 100 * 300 == waterLevel e * 3)%Q as -> by field.
    assert (waterLevel (run random more e) / 100 * 300 ==
            waterLevel (run random more e) * 3)%Q as -> by field.
    split; lra.
  - intros random calls more e.
    destruct (run_level_after random calls) as [k Hk]. fold e in Hk.
    destruct (run_keeps random more e) as (_ & _ & _ & (k' & Hk' & _)).
    destruct (run_keeps random calls constructor) as ((_ & Hinc & _) & _).
    fold e in Hinc. rewrite Hinc, Hk in Hk'.
    assert (waterLevel (run random more e) = level_after (k' + k)) as Hk''.
    { rewrite Hk'. symmetry. apply Nat.iter_add. }
    rewrite (waterSurfaceY_level e), (waterSurfaceY_level (run random more e)), Hk, Hk''.
    assert (surfaces_within (table 127 (lit 0)) = true) as Hwithin by (vm_compute; reflexivity).
    assert (surfaces_rise (table 127 (lit 0)) = true) as Hrise by (vm_compute; reflexivity).
    unfold surfaces_within in Hwithin. rewrite forallb_forall in Hwithin.
    pose proof (level_after_table k) as Hlookup.
    pose proof (Hwithin (level_after k)) as Hbounds. cbv zeta in Hbounds.
    apply andb_true_iff in Hbounds;
      [|apply list_elem_of_In; by eapply list_elem_of_lookup_2].
    split; [tauto|]. split; [tauto|].
    apply (surfaces_rise_lookup (table 127 (lit 0)) (k `min` 126) ((k' + k) `min` 126));
      [done|lia|apply level_after_table..].
Qed.

End SurfaceFacts.

(** ** More concrete runs of the further properties *)

Lemma every_droplet_pays_once_witness :
  let e := (addDroplet exact_half 0%Q 1000%Q constructor).2 in
  gravity e = 0.5%Q /\ dropletIncrement e = 0.8%Q /\
  (0 <= waterLevel e <= 100)%Q /\ (0 <= 16.67)%Q /\
  Forall sinking (droplets e) /\
  waterLevel (update exact_half 16.67%Q e) = bump 0.8%Q 0%Q.
Proof.
  set (e := (addDroplet exact_half 0%Q 1000%Q constructor).2).
  assert (gravity e = 0.5%Q) as H1 by reflexivity.
  assert (dropletIncrement e = 0.8%Q) as H2 by reflexivity.
  assert (0 <= waterLevel e <= 100)%Q as H3 by (split; vm_compute; discriminate).
  assert (0 <= 16.67)%Q as H4 by (vm_compute; discriminate).
  assert (Forall sinking (droplets e)) as H5.
  { apply Forall_singleton. split; [reflexivity|]. split; vm_compute; discriminate. }
  split; [exact H1|]. split; [exact H2|]. split; [exact H3|]. split; [exact H4|].
  split; [exact H5|].
  exact (proj1 (every_droplet_pays_once exact_half 16.67%Q 16.67%Q e H1 H2 H3 H4 H5)).
Defined.

Lemma scaler_sinks_and_recovers_witness :
  let s := @PerformanceScaler.constructor Q _ in
  let calls := [(2000%Q, monitor_at 15%Q); (4000%Q, monitor_at 15%Q);
                (6000%Q, monitor_at 15%Q)] in
  (0.3 <= PerformanceScaler.minPerformanceLevel s)%Q /\
  (PerformanceScaler.minPerformanceLevel s <= PerformanceScaler.performanceLevel s <= 1)%Q /\
  spaced (PerformanceScaler.adjustmentCooldown s) (PerformanceScaler.lastAdjustment s) calls /\
  Forall (fun c => reads c < 20)%Q calls /\
  3 <= length calls /\
  (PerformanceScaler.performanceLevel (adjustments calls s) == 0.3)%Q.
Proof.
  set (s := @PerformanceScaler.constructor Q _).
  set (calls := [(2000%Q, monitor_at 15%Q); (4000%Q, monitor_at 15%Q);
                 (6000%Q, monitor_at 15%Q)]).
  assert (0.3 <= PerformanceScaler.minPerformanceLevel s)%Q as H0
    by (vm_compute; discriminate).
  assert (PerformanceScaler.minPerformanceLevel s <= PerformanceScaler.performanceLevel s <= 1)%Q
    as H1 by (split; vm_compute; discriminate).
  assert (spaced (PerformanceScaler.adjustmentCooldown s)
                 (PerformanceScaler.lastAdjustment s) calls) as H2.
  { repeat split; vm_compute; discriminate. }
  assert (Forall (fun c => reads c < 20)%Q calls) as H3.
  { repeat (apply Forall_cons; split; [vm_compute; reflexivity|]). apply Forall_nil_2. }
  assert (3 <= length calls) as H4 by (simpl; lia).
  split; [exact H0|]. split; [exact H1|]. split; [exact H2|]. split; [exact H3|].
  split; [exact H4|].
  exact (proj1 (scaler_sinks_and_recovers calls s H0 H1 H2) H3 H4).
Defined.

Lemma testEndToEndFlow_exact_witness :
  125 <= 1000 /\
  exists level : Q,
    @testEndToEndFlow Q _ 1000 =
      Some (level,
            [("fish"%string, Milestone.mk (lit 30) true);
             ("waves"%string, Milestone.mk (lit 70) true);
             ("completion"%string, Milestone.mk (lit 100) true)],
            true) /\
    (level == 100)%Q.
Proof.
  assert (125 <= 1000) as H by lia.
  split; [exact H|]. exact (proj1 (testEndToEndFlow_exact 1000 H)).
Defined.
